(** * ApiKeyManager (python-sdk): key rotation, circuit breaker, bulkhead, retry loop

    A shallow embedding of [splashcodex_api_manager/core]:
    - [types.py]      : the records and enumerations;
    - [strategies.py] : the three load-balancing strategies;
    - [manager.py]    : [classify_error], [_is_on_cooldown], [get_key],
                        [get_key_by_provider], [mark_success], [mark_failed],
                        [calculate_backoff], [execute], [_execute_with_retry].

    Conventions.
    - Python [int] is [Z]; [Optional[int]] is [option Z]; Python truthiness of
      an optional integer ([if k.failedAt:]) is [truthy], false on [None] and 0.
    - Python [float] values (weights, latencies, the jitter) are idealised as
      rationals [Q]; rounding is not modelled.
    - [str] is [string], read as a sequence of ASCII characters: case folding
      ([str.lower], [re.IGNORECASE]) acts on the letters A-Z only.
    - The wall clock and the random generator are oracles of the state: every
      [int(time.time() * 1000)] consumes the next clock reading and every
      [random.uniform] the next draw, so no assumption is made on how time
      advances between two reads.
    - [KeyState] objects are shared between [self.keys] and the candidate
      lists handed to a strategy; the registry is the store and a candidate
      is an index into it.
    - An [async] function is a resumption: it runs atomically up to its next
      [await], where it hands a request to the event loop and is resumed later
      on the state the manager has by then.
    - The manager is the one built without a semantic cache
      ([semantic_cache=None]), so that [execute] starts at the bulkhead.

    The second part, after the properties of these methods, embeds what
    else the package holds that a manager is built from: [load_state], the
    string form of [initial_keys], the class [SemanticCache] and the
    manager of a [BasePreset] (presets/base.py), each next to the
    properties proved about it. *)

From Stdlib Require Import ZArith QArith Lqa String Ascii List Bool Lia DecimalString.
From stdpp Require Import base list.
Import ListNotations.

Open Scope Z_scope.

(** ** types.py *)

Inductive CircuitState := CLOSED | OPEN | HALF_OPEN | DEAD.

Inductive ErrorType :=
  QUOTA | TRANSIENT | AUTH | BAD_REQUEST | SAFETY | RECITATION | TIMEOUT | UNKNOWN.

Definition CircuitState_eqb (a b : CircuitState) : bool :=
  match a, b with
  | CLOSED, CLOSED | OPEN, OPEN | HALF_OPEN, HALF_OPEN | DEAD, DEAD => true
  | _, _ => false
  end.

Definition ErrorType_eqb (a b : ErrorType) : bool :=
  match a, b with
  | QUOTA, QUOTA | TRANSIENT, TRANSIENT | AUTH, AUTH | BAD_REQUEST, BAD_REQUEST
  | SAFETY, SAFETY | RECITATION, RECITATION | TIMEOUT, TIMEOUT | UNKNOWN, UNKNOWN => true
  | _, _ => false
  end.

Record ErrorClassification := mkClassification {
  type : ErrorType;
  retryable : bool;
  cooldownMs : Z;
  markKeyFailed : bool;
  markKeyDead : bool
}.

Record KeyState := mkKeyState {
  key : string;
  failCount : Z;
  failedAt : option Z;
  isQuotaError : bool;
  circuitState : CircuitState;
  lastUsed : Z;
  successCount : Z;
  totalRequests : Z;
  halfOpenTestTime : option Z;
  customCooldown : option Z;
  weight : Q;
  averageLatency : Q;
  totalLatency : Q;
  latencySamples : Z;
  provider : string
}.

(** [KeyState(key=k, weight=w, provider=p)]: every other field at its default. *)
Definition new_KeyState (k : string) (w : Q) (p : string) : KeyState :=
  {| key := k; failCount := 0; failedAt := None; isQuotaError := false;
     circuitState := CLOSED; lastUsed := 0; successCount := 0;
     totalRequests := 0; halfOpenTestTime := None; customCooldown := None;
     weight := w; averageLatency := 0%Q; totalLatency := 0%Q;
     latencySamples := 0; provider := p |}.

Record ExecuteOptions := mkOptions {
  timeoutMs : option Z;
  maxRetries : Z;
  finishReason : option string;
  opt_provider : option string
}.

Definition default_options : ExecuteOptions :=
  {| timeoutMs := None; maxRetries := 0; finishReason := None; opt_provider := None |}.

(** Truthiness of [Optional[int]] and of [Optional[str]]. *)
Definition truthy (o : option Z) : bool :=
  match o with
  | Some v => negb (v =? 0)
  | None => false
  end.

Definition truthy_str (o : option string) : bool :=
  match o with
  | Some s => negb (String.eqb s "")
  | None => false
  end.

(** [x or d] on an optional integer. *)
Definition or_default (o : option Z) (d : Z) : Z :=
  match o with
  | Some v => if v =? 0 then d else v
  | None => d
  end.

(** ** manager.py: constants *)

Module CONFIG.
Definition MAX_CONSECUTIVE_FAILURES : Z := 5.
Definition COOLDOWN_TRANSIENT : Z := 60 * 1000.
Definition COOLDOWN_QUOTA : Z := 5 * 60 * 1000.
Definition COOLDOWN_QUOTA_DAILY : Z := 60 * 60 * 1000.
Definition HALF_OPEN_TEST_DELAY : Z := 60 * 1000.
Definition MAX_BACKOFF : Z := 64 * 1000.
Definition BASE_BACKOFF : Z := 1000.
End CONFIG.

(** ** The regular expressions of [ERROR_PATTERNS]

    Every pattern is an alternation of words in which the only operator is
    [.?]: at most one character other than a newline. *)

Inductive Atom :=
  | Lit (c : ascii)
  | OptAny.

Definition Regex := list (list Atom).

Fixpoint lits (s : string) : list Atom :=
  match s with
  | EmptyString => []
  | String c s' => Lit c :: lits s'
  end.

(** [w1.?w2.?...]: the words joined by [.?]. *)
Fixpoint words (ws : list string) : list Atom :=
  match ws with
  | [] => []
  | [w] => lits w
  | w :: ws' => lits w ++ OptAny :: words ws'
  end.

Definition lower_ascii (c : ascii) : ascii :=
  let n := nat_of_ascii c in
  if ((65 <=? n) && (n <=? 90))%nat then ascii_of_nat (n + 32) else c.

Fixpoint lower (s : string) : string :=
  match s with
  | EmptyString => EmptyString
  | String c s' => String (lower_ascii c) (lower s')
  end.

Definition is_newline (c : ascii) : bool := Ascii.eqb c "010"%char.

(** Does the alternative [p] match a prefix of [s]?  The patterns are written
    in lower case and compiled with [re.IGNORECASE]. *)
Fixpoint match_here (p : list Atom) (s : string) : bool :=
  match p with
  | [] => true
  | Lit c :: p' =>
      match s with
      | String a s' => Ascii.eqb (lower_ascii a) c && match_here p' s'
      | EmptyString => false
      end
  | OptAny :: p' =>
      match s with
      | String a s' => (negb (is_newline a) && match_here p' s') || match_here p' s
      | EmptyString => match_here p' s
      end
  end.

(** [pattern.search(s)] is truthy. *)
Fixpoint search (r : Regex) (s : string) : bool :=
  existsb (fun p => match_here p s) r ||
  match s with
  | EmptyString => false
  | String _ s' => search r s'
  end.

(** [needle in s]. *)
Fixpoint contains (needle s : string) : bool :=
  String.prefix needle s ||
  match s with
  | EmptyString => false
  | String _ s' => contains needle s'
  end.

Module ERROR_PATTERNS.
Definition isQuotaError : Regex :=
  [ lits "429"; lits "quota"; lits "exhausted"; words ["resource"; "exhausted"];
    words ["too"; "many"; "requests"]; words ["rate"; "limit"] ]%string.
Definition isAuthError : Regex :=
  [ lits "403"; words ["permission"; "denied"]; words ["invalid"; "api"; "key"];
    lits "unauthorized"; lits "unauthenticated" ]%string.
Definition isSafetyBlock : Regex :=
  [ lits "safety"; lits "blocked"; lits "recitation"; lits "harmful" ]%string.
Definition isTransient : Regex :=
  [ lits "500"; lits "502"; lits "503"; lits "504"; lits "internal";
    lits "unavailable"; lits "deadline"; lits "timeout"; lits "overloaded" ]%string.
Definition isBadRequest : Regex :=
  [ lits "400"; words ["invalid"; "argument"]; words ["failed"; "precondition"];
    lits "malformed"; words ["not"; "found"]; lits "404" ]%string.
End ERROR_PATTERNS.

(** ** Exceptions

    What the manager looks at in an exception: its class, [str(error)], the
    attributes [status_code] and [status] (absent, or present with a value
    that is [None] or an integer) and a truthy [response] with its
    [status_code]. *)

Inductive ExcClass :=
  | ClsTimeoutError          (* manager.TimeoutError *)
  | ClsAsyncioTimeoutError   (* asyncio.TimeoutError *)
  | ClsBulkheadRejectionError
  | ClsAllKeysExhaustedError
  | ClsTypeError
  | ClsException.            (* any other subclass of Exception *)

Record PyError := mkError {
  exc_class : ExcClass;
  exc_str : string;
  attr_status_code : option (option Z);
  attr_status : option (option Z);
  attr_response : option (option Z)
}.

Definition show_int (z : Z) : string := NilZero.string_of_int (Z.to_int z).

Definition show_opt_int (o : option Z) : string :=
  match o with
  | Some z => show_int z
  | None => "None"
  end.

Definition plain_error (c : ExcClass) (msg : string) : PyError :=
  {| exc_class := c; exc_str := msg; attr_status_code := None;
     attr_status := None; attr_response := None |}.

Definition TimeoutError (ms : option Z) : PyError :=
  plain_error ClsTimeoutError ("Request timed out after " ++ show_opt_int ms ++ "ms").

Definition BulkheadRejectionError : PyError :=
  plain_error ClsBulkheadRejectionError
    "Bulkhead capacity exceeded — too many concurrent requests".

Definition AllKeysExhaustedError : PyError :=
  plain_error ClsAllKeysExhaustedError
    "All API keys exhausted — no healthy keys available".

(** [raise None]. *)
Definition RaiseNoneTypeError : PyError :=
  plain_error ClsTypeError "exceptions must derive from BaseException".

(** [MockError(status)] of the tests: only a [status_code], an empty message. *)
Definition MockError (status : Z) : PyError :=
  {| exc_class := ClsException; exc_str := ""; attr_status_code := Some (Some status);
     attr_status := None; attr_response := None |}.

(** ** [ApiKeyManager.classify_error] *)

Definition getattr_status (e : PyError) : option Z :=
  let status :=
    match attr_status_code e with
    | Some v => v
    | None => match attr_status e with
              | Some v => v
              | None => None
              end
    end in
  match attr_response e with
  | Some sc => sc
  | None => status
  end.

Definition status_is (st : option Z) (n : Z) : bool :=
  match st with
  | Some v => v =? n
  | None => false
  end.

Definition finish_reason_is (fr : option string) (s : string) : bool :=
  match fr with
  | Some r => String.eqb r s
  | None => false
  end.

Definition classify_error (error : PyError) (finish_reason : option string)
  : ErrorClassification :=
  let error_str := exc_str error in
  let status := getattr_status error in
  if finish_reason_is finish_reason "SAFETY" then
    mkClassification SAFETY false 0 false false
  else if finish_reason_is finish_reason "RECITATION" then
    mkClassification RECITATION false 0 false false
  else if match exc_class error with ClsTimeoutError => true | _ => false end
          || contains "timeout" (lower error_str) then
    mkClassification TIMEOUT true CONFIG.COOLDOWN_TRANSIENT true false
  else if status_is status 403 || search ERROR_PATTERNS.isAuthError error_str then
    mkClassification AUTH false 999999999 true true
  else if status_is status 429 || search ERROR_PATTERNS.isQuotaError error_str then
    mkClassification QUOTA true CONFIG.COOLDOWN_QUOTA true false
  else if status_is status 400 || search ERROR_PATTERNS.isBadRequest error_str then
    mkClassification BAD_REQUEST false 0 false false
  else if existsb (status_is status) [500; 502; 503; 504]
          || search ERROR_PATTERNS.isTransient error_str then
    mkClassification TRANSIENT true CONFIG.COOLDOWN_TRANSIENT true false
  else
    mkClassification UNKNOWN true CONFIG.COOLDOWN_TRANSIENT true false.

(** ** The manager and its environment *)

Inductive Strategy := StandardStrategy | WeightedStrategy | LatencyStrategy.

Inductive Event :=
  | circuitOpen (k : string)
  | circuitHalfOpen (k : string)
  | keyDead (k : string)
  | keyRecovered (k : string)
  | allKeysExhausted
  | bulkheadRejected
  | retry (k : string) (attempt : Z) (delay : Q)
  | fallback (reason : string)
  | executeSuccess (k : string) (duration : Z)
  | executeFailed (k : string) (e : PyError).

(** The attributes of [self] followed by the environment: the clock and the
    random generator with the number of values consumed so far, and the
    events emitted (latest first).  [fallback_fn] says whether a fallback is
    configured; calling it is a request to the environment.
    [max_concurrency = None] is [float('inf')].  [storage] is [None] without
    an adapter, otherwise the last snapshot written under [storage_key] by a
    synchronous adapter that does not raise. *)
Record State := mkState {
  keys : list KeyState;
  strategy : Strategy;
  fallback_fn : bool;
  max_concurrency : option Z;
  active_calls : Z;
  storage : option (option (list KeyState));
  clock : nat -> Z;
  reads : nat;
  rng : nat -> Q;
  draws : nat;
  events : list Event
}.

Definition set_keys (ks : list KeyState) (s : State) : State :=
  mkState ks (strategy s) (fallback_fn s) (max_concurrency s) (active_calls s)
          (storage s) (clock s) (reads s) (rng s) (draws s) (events s).

Definition set_active_calls (n : Z) (s : State) : State :=
  mkState (keys s) (strategy s) (fallback_fn s) (max_concurrency s) n
          (storage s) (clock s) (reads s) (rng s) (draws s) (events s).

Definition set_storage (st : option (option (list KeyState))) (s : State) : State :=
  mkState (keys s) (strategy s) (fallback_fn s) (max_concurrency s) (active_calls s)
          st (clock s) (reads s) (rng s) (draws s) (events s).

Definition set_reads (n : nat) (s : State) : State :=
  mkState (keys s) (strategy s) (fallback_fn s) (max_concurrency s) (active_calls s)
          (storage s) (clock s) n (rng s) (draws s) (events s).

Definition set_draws (n : nat) (s : State) : State :=
  mkState (keys s) (strategy s) (fallback_fn s) (max_concurrency s) (active_calls s)
          (storage s) (clock s) (reads s) (rng s) n (events s).

Definition set_events (evs : list Event) (s : State) : State :=
  mkState (keys s) (strategy s) (fallback_fn s) (max_concurrency s) (active_calls s)
          (storage s) (clock s) (reads s) (rng s) (draws s) evs.

(** A state monad over [State]. *)
Definition M (A : Type) : Type := State -> A * State.

Definition ret {A} (a : A) : M A := fun s => (a, s).

Definition bind {A B} (c : M A) (f : A -> M B) : M B :=
  fun s => let (a, s') := c s in f a s'.

Notation "x <- c ;; k" := (bind c (fun x => k))
  (at level 100, c at next level, right associativity).
Notation "c ;;; k" := (bind c (fun _ => k))
  (at level 100, right associativity).

Definition gets {A} (f : State -> A) : M A := fun s => (f s, s).
Definition modify (f : State -> State) : M unit := fun s => (tt, f s).

(** [int(time.time() * 1000)] *)
Definition time_ms : M Z :=
  fun s => (clock s (reads s), set_reads (S (reads s)) s).

(** [random.uniform(a, b)], that is [a + (b - a) * random()] *)
Definition random_uniform (a b : Q) : M Q :=
  fun s => ((a + (b - a) * rng s (draws s))%Q, set_draws (S (draws s)) s).

(** [self._emit(event, ...)]: listeners cannot raise into the caller. *)
Definition _emit (ev : Event) : M unit :=
  modify (fun s => set_events (ev :: events s) s).

(** Reading and mutating the object behind a reference. *)
Definition deref (r : nat) : M (option KeyState) := gets (fun s => keys s !! r).

Definition mutate (r : nat) (f : KeyState -> KeyState) : M unit :=
  modify (fun s => set_keys (alter f r (keys s)) s).

Definition with_circuitState (c : CircuitState) (k : KeyState) : KeyState :=
  mkKeyState (key k) (failCount k) (failedAt k) (isQuotaError k) c (lastUsed k)
             (successCount k) (totalRequests k) (halfOpenTestTime k)
             (customCooldown k) (weight k) (averageLatency k) (totalLatency k)
             (latencySamples k) (provider k).

Definition with_lastUsed (t : Z) (k : KeyState) : KeyState :=
  mkKeyState (key k) (failCount k) (failedAt k) (isQuotaError k) (circuitState k) t
             (successCount k) (totalRequests k) (halfOpenTestTime k)
             (customCooldown k) (weight k) (averageLatency k) (totalLatency k)
             (latencySamples k) (provider k).

Definition with_halfOpenTestTime (t : Z) (k : KeyState) : KeyState :=
  mkKeyState (key k) (failCount k) (failedAt k) (isQuotaError k) (circuitState k)
             (lastUsed k) (successCount k) (totalRequests k) (Some t)
             (customCooldown k) (weight k) (averageLatency k) (totalLatency k)
             (latencySamples k) (provider k).

(** [save_state]: with a synchronous adapter, [set_item(storage_key, state)]. *)
Definition save_state : M unit :=
  modify (fun s => match storage s with
                   | None => s
                   | Some _ => set_storage (Some (Some (keys s))) s
                   end).

(** ** [_is_on_cooldown(k)], [k] given by reference *)

Definition _is_on_cooldown (r : nat) : M bool :=
  o <- deref r ;;
  match o with
  | None => ret false
  | Some k =>
      if CircuitState_eqb (circuitState k) DEAD then ret true
      else
        now <- time_ms ;;
        if CircuitState_eqb (circuitState k) OPEN then
          if truthy (halfOpenTestTime k) && (or_default (halfOpenTestTime k) 0 <=? now) then
            mutate r (with_circuitState HALF_OPEN) ;;;
            _emit (circuitHalfOpen (key k)) ;;;
            ret false
          else ret true
        else
          if truthy (failedAt k) then
            let elapsed := now - or_default (failedAt k) 0 in
            if truthy (customCooldown k) && (elapsed <? or_default (customCooldown k) 0)
            then ret true
            else
              let cooldown := if isQuotaError k then CONFIG.COOLDOWN_QUOTA
                              else CONFIG.COOLDOWN_TRANSIENT in
              if elapsed <? cooldown then ret true else ret false
          else ret false
  end.

(** ** strategies.py *)

(** [list.sort(key=...)] is stable; [le] compares two sort keys. *)
Fixpoint insert_by {A} (le : A -> A -> bool) (x : A) (l : list A) : list A :=
  match l with
  | [] => [x]
  | y :: l' => if le x y then x :: l else y :: insert_by le x l'
  end.

Fixpoint sort_by {A} (le : A -> A -> bool) (l : list A) : list A :=
  match l with
  | [] => []
  | x :: l' => insert_by le x (sort_by le l')
  end.

(** Tuple comparison [(a1, b1) <= (a2, b2)]. *)
Definition le_ZZ (x y : Z * Z) : bool :=
  (fst x <? fst y) || ((fst x =? fst y) && (snd x <=? snd y)).

Definition le_QZ (x y : Q * Z) : bool :=
  match (fst x ?= fst y)%Q with
  | Lt => true
  | Eq => snd x <=? snd y
  | Gt => false
  end.

(** A candidate list: the references together with the objects behind them. *)
Definition Candidates := list (nat * KeyState).

Definition resolve (rs : list nat) : M Candidates :=
  gets (fun s => omap (fun r => match keys s !! r with
                                | Some k => Some (r, k)
                                | None => None
                                end) rs).

Definition first_ref (cs : Candidates) : option nat :=
  match cs with
  | [] => None
  | (r, _) :: _ => Some r
  end.

Definition standard_next (cs : Candidates) : option nat :=
  first_ref (sort_by (fun a b => le_ZZ (failCount (snd a), lastUsed (snd a))
                                       (failCount (snd b), lastUsed (snd b))) cs).

Definition latency_next (cs : Candidates) : option nat :=
  first_ref (sort_by (fun a b => le_QZ (averageLatency (snd a), lastUsed (snd a))
                                       (averageLatency (snd b), lastUsed (snd b))) cs).

(** The loop of [WeightedStrategy.next]. *)
Fixpoint weighted_loop (cs : Candidates) (rand : Q) : option nat :=
  match cs with
  | [] => None
  | (r, k) :: cs' =>
      let rand' := (rand - weight k)%Q in
      if Qle_bool rand' 0 then Some r else weighted_loop cs' rand'
  end.

Definition sumQ (l : list Q) : Q := fold_left Qplus l 0%Q.

Definition weighted_next (cs : Candidates) : M (option nat) :=
  match cs with
  | [] => ret None
  | _ =>
      let total_weight := sumQ (map (fun c => weight (snd c)) cs) in
      rand <- random_uniform 0 total_weight ;;
      match weighted_loop cs rand with
      | Some r => ret (Some r)
      | None => ret (first_ref cs)
      end
  end.

(** [self.strategy.next(candidates)] *)
Definition strategy_next (candidates : list nat) : M (option nat) :=
  cs <- resolve candidates ;;
  st <- gets strategy ;;
  match st with
  | StandardStrategy => ret (standard_next cs)
  | WeightedStrategy => weighted_next cs
  | LatencyStrategy => ret (latency_next cs)
  end.

(** ** Selection: [get_key] and [get_key_by_provider] *)

(** [[k for k in self.keys if cond(k)]]: the condition is evaluated on the
    objects in registry order and may mutate them. *)
Fixpoint comprehension (cond : nat -> M bool) (rs : list nat) : M (list nat) :=
  match rs with
  | [] => ret []
  | r :: rs' =>
      b <- cond r ;;
      rest <- comprehension cond rs' ;;
      ret (if b then r :: rest else rest)
  end.

Definition all_refs : M (list nat) :=
  gets (fun s => seq 0 (length (keys s))).

(** [k.circuitState != CircuitState.DEAD] *)
Definition not_dead (r : nat) : M bool :=
  o <- deref r ;;
  ret (match o with
       | Some k => negb (CircuitState_eqb (circuitState k) DEAD)
       | None => false
       end).

(** [k.circuitState != CircuitState.DEAD and not self._is_on_cooldown(k)] *)
Definition eligible (r : nat) : M bool :=
  nd <- not_dead r ;;
  if nd then (c <- _is_on_cooldown r ;; ret (negb c)) else ret false.

Definition has_provider (p : string) (r : nat) : M bool :=
  o <- deref r ;;
  ret (match o with
       | Some k => String.eqb (provider k) p
       | None => false
       end).

Definition key_of (r : nat) : M (option string) :=
  o <- deref r ;;
  ret (match o with
       | Some k => Some (key k)
       | None => None
       end).

(** The common tail of both selectors. *)
Definition use_selected (selected : option nat) : M (option string) :=
  match selected with
  | Some r =>
      now <- time_ms ;;
      mutate r (with_lastUsed now) ;;;
      save_state ;;;
      key_of r
  | None => ret None
  end.

Definition get_key : M (option string) :=
  rs <- all_refs ;;
  candidates <- comprehension eligible rs ;;
  match candidates with
  | [] =>
      non_dead <- comprehension not_dead rs ;;
      match non_dead with
      | [] => _emit allKeysExhausted ;;; ret None
      | _ =>
          cs <- resolve non_dead ;;
          match first_ref (sort_by (fun a b => or_default (failedAt (snd a)) 0
                                                <=? or_default (failedAt (snd b)) 0) cs) with
          | Some r => key_of r
          | None => ret None
          end
      end
  | _ =>
      selected <- strategy_next candidates ;;
      use_selected selected
  end.

Definition get_key_by_provider (p : string) : M (option string) :=
  rs <- all_refs ;;
  candidates <- comprehension (fun r => hp <- has_provider p r ;;
                                        if hp then eligible r else ret false) rs ;;
  match candidates with
  | [] => ret None
  | _ =>
      selected <- strategy_next candidates ;;
      use_selected selected
  end.

(** ** [mark_success] and [mark_failed] *)

(** [next((x for x in self.keys if x.key == key), None)] *)
Fixpoint find_from (name : string) (ks : list KeyState) (i : nat) : option nat :=
  match ks with
  | [] => None
  | k :: ks' => if String.eqb (key k) name then Some i else find_from name ks' (S i)
  end.

Definition find_key (name : string) : M (option nat) :=
  gets (fun s => find_from name (keys s) 0).

(** The assignments of [mark_success]. *)
Definition record_success (duration_ms : option Z) (k : KeyState) : KeyState :=
  let k1 :=
    mkKeyState (key k) 0 None false CLOSED (lastUsed k)
               (successCount k + 1) (totalRequests k + 1) (halfOpenTestTime k)
               None (weight k) (averageLatency k) (totalLatency k)
               (latencySamples k) (provider k) in
  match duration_ms with
  | None => k1
  | Some d =>
      let total := (totalLatency k1 + inject_Z d)%Q in
      let samples := latencySamples k1 + 1 in
      mkKeyState (key k1) (failCount k1) (failedAt k1) (isQuotaError k1)
                 (circuitState k1) (lastUsed k1) (successCount k1)
                 (totalRequests k1) (halfOpenTestTime k1) (customCooldown k1)
                 (weight k1) (total / inject_Z samples)%Q total samples (provider k1)
  end.

Definition mark_success (name : string) (duration_ms : option Z) : M unit :=
  o <- find_key name ;;
  match o with
  | None => ret tt
  | Some r =>
      ok <- deref r ;;
      match ok with
      | None => ret tt
      | Some k =>
          let was_recovering :=
            negb (CircuitState_eqb (circuitState k) CLOSED
                  || CircuitState_eqb (circuitState k) DEAD) in
          (if was_recovering then _emit (keyRecovered name) else ret tt) ;;;
          mutate r (record_success duration_ms) ;;;
          save_state
      end
  end.

(** The first five assignments of [mark_failed]. *)
Definition record_failure (now : Z) (c : ErrorClassification) (k : KeyState) : KeyState :=
  mkKeyState (key k) (failCount k + 1) (Some now) (ErrorType_eqb (type c) QUOTA)
             (circuitState k) (lastUsed k) (successCount k) (totalRequests k + 1)
             (halfOpenTestTime k)
             (if cooldownMs c =? 0 then None else Some (cooldownMs c))
             (weight k) (averageLatency k) (totalLatency k) (latencySamples k)
             (provider k).

Definition open_circuit (r : nat) (name : string) (delay : Z) : M unit :=
  mutate r (with_circuitState OPEN) ;;;
  now <- time_ms ;;
  mutate r (with_halfOpenTestTime (now + delay)) ;;;
  _emit (circuitOpen name).

Definition mark_failed (name : string) (classification : ErrorClassification) : M unit :=
  o <- find_key name ;;
  match o with
  | None => ret tt
  | Some r =>
      ok <- deref r ;;
      match ok with
      | None => ret tt
      | Some k =>
          if CircuitState_eqb (circuitState k) DEAD then ret tt
          else if negb (markKeyFailed classification) then ret tt
          else
            now <- time_ms ;;
            mutate r (record_failure now classification) ;;;
            (if markKeyDead classification then
               mutate r (with_circuitState DEAD) ;;;
               _emit (keyDead name)
             else if CircuitState_eqb (circuitState k) HALF_OPEN then
               open_circuit r name CONFIG.HALF_OPEN_TEST_DELAY
             else if (CONFIG.MAX_CONSECUTIVE_FAILURES <=? failCount k + 1)
                     || ErrorType_eqb (type classification) QUOTA then
               open_circuit r name
                 (if cooldownMs classification =? 0 then CONFIG.HALF_OPEN_TEST_DELAY
                  else cooldownMs classification)
             else ret tt) ;;;
            save_state
      end
  end.

(** ** [calculate_backoff] *)

Definition capped_backoff (attempt : nat) : Z :=
  Z.min (CONFIG.BASE_BACKOFF * 2 ^ Z.of_nat attempt) CONFIG.MAX_BACKOFF.

Definition calculate_backoff (attempt : nat) : M Q :=
  let exponential := CONFIG.BASE_BACKOFF * 2 ^ Z.of_nat attempt in
  let capped := Z.min exponential CONFIG.MAX_BACKOFF in
  jitter <- random_uniform 0 1000 ;;
  ret (inject_Z capped + jitter)%Q.

(** ** Coroutines

    [execute] suspends at [await fn(key)], at an awaited fallback and at
    [await asyncio.sleep(...)].  A task is either finished or waiting on a
    request; the event loop resumes it with the outcome of the awaited
    operation, on whatever state the manager has at that moment.  Outcomes
    are return values and exceptions deriving from [Exception]. *)

Inductive PyValue :=
  | PyNone
  | PyStr (s : string)
  | PyInt (z : Z).

Inductive Outcome :=
  | Return (v : PyValue)
  | Raise (e : PyError).

Inductive Request :=
  | CallFn (k : string) (timeout_ms : option Z)  (* fn(key), under wait_for with a timeout *)
  | CallFallback                                  (* self.fallback_fn() *)
  | Sleep (seconds : Q).                          (* asyncio.sleep *)

#[local] Unset Elimination Schemes.
Inductive Task :=
  | Done (o : Outcome)
  | Await (req : Request) (resume : Outcome -> State -> Task * State).
#[local] Set Elimination Schemes.

(** [try: <t> finally: <cleanup>] around a task. *)
Fixpoint try_finally (t : Task) (cleanup : M unit) : M Task :=
  match t with
  | Done o => cleanup ;;; ret (Done o)
  | Await req resume =>
      ret (Await req (fun o s => let (t', s') := resume o s in try_finally t' cleanup s'))
  end.

(** [return await self.fallback_fn()] / [return self.fallback_fn()] *)
Definition call_fallback : M Task :=
  ret (Await CallFallback (fun o => ret (Done o))).

(** ** [_execute_with_retry]: the loop over [range(options.maxRetries + 1)] *)

(** [self.get_key_by_provider(options.provider) if options.provider else self.get_key()] *)
Definition select_key (options : ExecuteOptions) : M (option string) :=
  if truthy_str (opt_provider options)
  then get_key_by_provider (default ""%string (opt_provider options))
  else get_key.

(** The branch [if not key:]. *)
Definition no_key : M Task :=
  fb <- gets fallback_fn ;;
  if fb then
    _emit (fallback "all keys exhausted"%string) ;;;
    call_fallback
  else ret (Done (Raise AllKeysExhaustedError)).

(** After [await fn(key)] has returned [result]. *)
Definition attempt_succeeded (name : string) (start : Z) (result : PyValue) : M Task :=
  now <- time_ms ;;
  let duration := now - start in
  mark_success name (Some duration) ;;;
  _emit (executeSuccess name duration) ;;;
  ret (Done (Return result)).

(** [if isinstance(e, asyncio.TimeoutError): e = TimeoutError(options.timeoutMs)] *)
Definition as_timeout (options : ExecuteOptions) (e : PyError) : PyError :=
  match exc_class e with
  | ClsAsyncioTimeoutError => TimeoutError (timeoutMs options)
  | _ => e
  end.

(** The handler [except Exception as e:]; [continue] is the rest of the loop,
    entered after the back-off sleep. *)
Definition attempt_failed (options : ExecuteOptions) (attempt : nat) (name : string)
    (e0 : PyError) (continue : M Task) : M Task :=
  let e := as_timeout options e0 in
  let classification := classify_error e (finishReason options) in
  mark_failed name classification ;;;
  _emit (executeFailed name e) ;;;
  if negb (retryable classification) || (maxRetries options <=? Z.of_nat attempt) then
    fb <- gets fallback_fn ;;
    if fb && (maxRetries options <=? Z.of_nat attempt) then
      _emit (fallback "max retries exceeded"%string) ;;;
      call_fallback
    else ret (Done (Raise e))
  else
    delay <- calculate_backoff attempt ;;
    _emit (retry name (Z.of_nat attempt + 1) delay) ;;;
    ret (Await (Sleep (delay / 1000))
           (fun o => match o with
                     | Return _ => continue
                     | Raise e' => ret (Done (Raise e'))
                     end)).

(** The timeout handed to [asyncio.wait_for], if [options.timeoutMs] is truthy. *)
Definition wait_for_timeout (options : ExecuteOptions) : option Z :=
  if truthy (timeoutMs options) then timeoutMs options else None.

Fixpoint retry_loop (options : ExecuteOptions) (attempts : list nat)
    (last_error : option PyError) : M Task :=
  match attempts with
  | [] =>
      ret (Done (Raise (match last_error with
                        | Some e => e
                        | None => RaiseNoneTypeError
                        end)))
  | attempt :: rest =>
      k <- select_key options ;;
      if negb (truthy_str k) then no_key
      else
        let name := default ""%string k in
        start <- time_ms ;;
        ret (Await (CallFn name (wait_for_timeout options))
               (fun o => match o with
                         | Return result => attempt_succeeded name start result
                         | Raise e0 =>
                             attempt_failed options attempt name e0
                               (retry_loop options rest (Some e0))
                         end))
  end.

Definition _execute_with_retry (options : ExecuteOptions) : M Task :=
  retry_loop options (seq 0 (Z.to_nat (maxRetries options + 1))) None.

(** ** [execute] *)

(** [self.active_calls >= self.max_concurrency] *)
Definition at_capacity (s : State) : bool :=
  match max_concurrency s with
  | Some m => m <=? active_calls s
  | None => false
  end.

Definition release : M unit :=
  modify (fun s => set_active_calls (active_calls s - 1) s).

Definition execute (options : ExecuteOptions) : M Task :=
  full <- gets at_capacity ;;
  if full then
    _emit bulkheadRejected ;;;
    ret (Done (Raise BulkheadRejectionError))
  else
    modify (fun s => set_active_calls (active_calls s + 1) s) ;;;
    t <- _execute_with_retry options ;;
    try_finally t release.

(** ** Construction

    [ApiKeyManager(initial_keys, storage, strategy, fallback_fn, concurrency)]
    with [initial_keys] in its structured form, a list of
    [{'key': ..., 'weight': ..., 'provider': ...}]; the clock and the random
    generator of the process come with it.  [unique_map] is a [dict]: a later
    record with a key already seen replaces the value and keeps the position. *)

Record KeySpec := mkKeySpec {
  spec_key : string;
  spec_weight : Q;
  spec_provider : string
}.

Fixpoint dict_set (k : string) (v : Q * string) (d : list (string * (Q * string)))
  : list (string * (Q * string)) :=
  match d with
  | [] => [(k, v)]
  | (k', v') :: d' => if String.eqb k' k then (k', v) :: d' else (k', v') :: dict_set k v d'
  end.

Definition unique_map (input_keys : list KeySpec) : list (string * (Q * string)) :=
  fold_left (fun d ks => if String.eqb (spec_key ks) "" then d
                         else dict_set (spec_key ks) (spec_weight ks, spec_provider ks) d)
            input_keys [].

Definition ApiKeyManager (initial_keys : list KeySpec) (with_storage : bool)
    (strat : Strategy) (with_fallback : bool) (concurrency : option Z)
    (clk : nat -> Z) (rnd : nat -> Q) : State :=
  {| keys := map (fun kv => new_KeyState (fst kv) (fst (snd kv)) (snd (snd kv)))
                 (unique_map initial_keys);
     strategy := strat;
     fallback_fn := with_fallback;
     max_concurrency := concurrency;
     active_calls := 0;
     storage := if with_storage then Some None else None;
     clock := clk; reads := 0; rng := rnd; draws := 0; events := [] |}.

(** ** The event loop

    The manager is used from one event loop: tasks started by [execute] are
    interleaved at their suspension points, and the synchronous methods may be
    called between any two of them. *)

Inductive Call :=
  | call_get_key
  | call_get_key_by_provider (p : string)
  | call_mark_success (name : string) (duration_ms : option Z)
  | call_mark_failed (name : string) (classification : ErrorClassification).

Definition do_call (c : Call) : M unit :=
  match c with
  | call_get_key => get_key ;;; ret tt
  | call_get_key_by_provider p => get_key_by_provider p ;;; ret tt
  | call_mark_success name d => mark_success name d
  | call_mark_failed name c => mark_failed name c
  end.

Record Loop := mkLoop {
  manager : State;
  tasks : list Task
}.

Inductive loop_step : Loop -> Loop -> Prop :=
  | step_call c s ts :
      loop_step (mkLoop s ts) (mkLoop (snd (do_call c s)) ts)
  | step_execute options s ts :
      loop_step (mkLoop s ts)
                (mkLoop (snd (execute options s)) (ts ++ [fst (execute options s)]))
  | step_resume i req resume o s ts :
      ts !! i = Some (Await req resume) ->
      loop_step (mkLoop s ts)
                (mkLoop (snd (resume o s)) (<[i := fst (resume o s)]> ts)).

Inductive reachable (init : State) : Loop -> Prop :=
  | reach_init : reachable init (mkLoop init [])
  | reach_step l l' : reachable init l -> loop_step l l' -> reachable init l'.

(** A complete run of one task: the requests it makes, in order, and its
    outcome, whatever the answers and the states it is resumed on. *)
Inductive runs : Task -> list Request -> Outcome -> Prop :=
  | runs_done o : runs (Done o) [] o
  | runs_await req resume o s tr o' :
      runs (fst (resume o s)) tr o' ->
      runs (Await req resume) (req :: tr) o'.

Definition is_fn_call (r : Request) : bool :=
  match r with
  | CallFn _ _ => true
  | _ => false
  end.

(** Number of invocations of [fn] in a run. *)
Definition fn_calls (tr : list Request) : nat :=
  length (List.filter is_fn_call tr).

(** Between two invocations of [fn] there is the back-off sleep that ends an
    attempt, and nothing follows a fallback. *)
Fixpoint one_call_per_attempt (tr : list Request) : bool :=
  match tr with
  | [] => true
  | CallFn _ _ :: tr' =>
      match tr' with
      | [] => true
      | [CallFallback] => true
      | Sleep _ :: tr'' => one_call_per_attempt tr''
      | _ => false
      end
  | [CallFallback] => true
  | _ => false
  end.

Definition is_done (t : Task) : bool :=
  match t with
  | Done _ => true
  | Await _ _ => false
  end.

(** Tasks of the loop that have not finished. *)
Definition in_flight (ts : list Task) : Z :=
  Z.of_nat (length (List.filter (fun t => negb (is_done t)) ts)).

(** Running one task to the end against a list of answers, with no other task
    in between: the sequential use of the tests. *)
Fixpoint drive (t : Task) (answers : list Outcome) (s : State) : Task * State :=
  match t, answers with
  | Await _ resume, o :: rest => let (t', s') := resume o s in drive t' rest s'
  | _, _ => (t, s)
  end.

Definition run_execute (options : ExecuteOptions) (answers : list Outcome) (s : State)
  : Task * State :=
  let (t, s') := execute options s in drive t answers s'.

(** ** The fixtures of [tests/test_manager.py] *)

Module Tests.
Open Scope string_scope.

Definition test_clock (n : nat) : Z := 1700000000000 + Z.of_nat n.
Definition test_rng (n : nat) : Q := (1 # 2)%Q.

Definition fixture : State :=
  ApiKeyManager [mkKeySpec "key-1" 1 "default"; mkKeySpec "key-2" 1 "default";
                 mkKeySpec "key-3" 1 "default"]
                true StandardStrategy false (Some 5) test_clock test_rng.

Definition single : State :=
  ApiKeyManager [mkKeySpec "key-1" 1 "default"] true StandardStrategy false None
                test_clock test_rng.

Definition retries (n : Z) : ExecuteOptions :=
  {| timeoutMs := None; maxRetries := n; finishReason := None; opt_provider := None |}.

Definition summary (s : State) : list (string * CircuitState * Z * Z * Z) :=
  map (fun k => (key k, circuitState k, failCount k, successCount k, totalRequests k))
      (keys s).
End Tests.

(** * Properties *)

(** ** The scenarios of [tests/test_manager.py] *)

Example test_successful_execution :
  fst (run_execute default_options [Return (PyStr "Success")] Tests.fixture)
    = Done (Return (PyStr "Success")) /\
  Tests.summary (snd (run_execute default_options [Return (PyStr "Success")] Tests.fixture))
    = [("key-1"%string, CLOSED, 0, 1, 1); ("key-2"%string, CLOSED, 0, 0, 0);
       ("key-3"%string, CLOSED, 0, 0, 0)] /\
  active_calls (snd (run_execute default_options [Return (PyStr "Success")] Tests.fixture))
    = 0.
Proof. vm_compute. repeat split; reflexivity. Qed.

Definition answers_429 : list Outcome :=
  [Raise (MockError 429); Return PyNone; Return (PyStr "Success")].

Example test_rotation_on_429 :
  fst (run_execute (Tests.retries 3) answers_429 Tests.fixture)
    = Done (Return (PyStr "Success")) /\
  Tests.summary (snd (run_execute (Tests.retries 3) answers_429 Tests.fixture))
    = [("key-1"%string, OPEN, 1, 0, 1); ("key-2"%string, CLOSED, 0, 1, 1);
       ("key-3"%string, CLOSED, 0, 0, 0)].
Proof. vm_compute. split; reflexivity. Qed.

Example test_circuit_breaker_on_403 :
  fst (run_execute (Tests.retries 0) [Raise (MockError 403)] Tests.fixture)
    = Done (Raise (MockError 403)) /\
  Tests.summary (snd (run_execute (Tests.retries 0) [Raise (MockError 403)] Tests.fixture))
    = [("key-1"%string, DEAD, 1, 0, 1); ("key-2"%string, CLOSED, 0, 0, 0);
       ("key-3"%string, CLOSED, 0, 0, 0)].
Proof. vm_compute. split; reflexivity. Qed.

Example test_all_keys_exhausted :
  fst (run_execute (Tests.retries 0) [Raise (MockError 403)] Tests.single)
    = Done (Raise (MockError 403)) /\
  fst (run_execute (Tests.retries 0) [Raise (MockError 403)]
         (snd (run_execute (Tests.retries 0) [Raise (MockError 403)] Tests.single)))
    = Done (Raise AllKeysExhaustedError).
Proof. vm_compute. split; reflexivity. Qed.

Definition timeout_100 : ExecuteOptions :=
  {| timeoutMs := Some 100; maxRetries := 0; finishReason := None; opt_provider := None |}.

Example test_timeout :
  fst (run_execute timeout_100 [Raise (plain_error ClsAsyncioTimeoutError "")] Tests.single)
    = Done (Raise (TimeoutError (Some 100))) /\
  exc_str (TimeoutError (Some 100)) = "Request timed out after 100ms"%string /\
  Tests.summary
    (snd (run_execute timeout_100 [Raise (plain_error ClsAsyncioTimeoutError "")] Tests.single))
    = [("key-1"%string, CLOSED, 1, 0, 1)].
Proof. vm_compute. repeat split; reflexivity. Qed.

(** ** The classifier *)

Example classify_403 :
  classify_error (MockError 403) None = mkClassification AUTH false 999999999 true true.
Proof. reflexivity. Qed.

Example classify_rate_limit :
  type (classify_error (plain_error ClsException "Rate-Limit hit") None) = QUOTA.
Proof. reflexivity. Qed.

Example classify_timeout_word :
  type (classify_error (plain_error ClsException "Gateway TimeOut (504)") None) = TIMEOUT.
Proof. reflexivity. Qed.

Example classify_404 :
  type (classify_error (plain_error ClsException "model not found") None) = BAD_REQUEST.
Proof. reflexivity. Qed.







(** The patterns behave as regular expressions on sample messages. *)
Example auth_pattern_samples :
  search ERROR_PATTERNS.isAuthError "Permission-Denied for project" = true /\
  search ERROR_PATTERNS.isAuthError "Invalid API key" = true /\
  search ERROR_PATTERNS.isAuthError "invalid  api key" = false /\
  search ERROR_PATTERNS.isAuthError "all good" = false.
Proof. vm_compute. repeat split; reflexivity. Qed.

(** The order matters: a message that mentions a timeout and a 403 is a
    TIMEOUT, and a 429 with an auth word is AUTH. *)
Example first_rule_wins :
  type (classify_error (plain_error ClsException "403 after timeout") None) = TIMEOUT /\
  type (classify_error (plain_error ClsException "429 unauthorized") None) = AUTH /\
  type (classify_error (MockError 403) (Some "SAFETY"%string)) = SAFETY.
Proof. vm_compute. repeat split; reflexivity. Qed.

(** ** Back-off *)

(** C9. On attempt [a] with jitter draw [j] in [0, 1000], the delay is
    [min(1000 * 2^a, 64000) + j], hence within
    [min(1000 * 2^a, 64000)] and [min(1000 * 2^a, 64000) + 1000]. *)
Theorem calculate_backoff_interval (a : nat) (s s' : State) (j : Q) :
  random_uniform 0 1000 s = (j, s') ->
  (0 <= j <= 1000)%Q ->
  calculate_backoff a s = ((inject_Z (Z.min (1000 * 2 ^ Z.of_nat a) 64000) + j)%Q, s') /\
  (inject_Z (Z.min (1000 * 2 ^ Z.of_nat a) 64000) <= fst (calculate_backoff a s))%Q /\
  (fst (calculate_backoff a s) <= inject_Z (Z.min (1000 * 2 ^ Z.of_nat a) 64000) + 1000)%Q.
Proof.
  intros Hdraw [Hlo Hhi].
  assert (Heq : calculate_backoff a s =
                ((inject_Z (Z.min (1000 * 2 ^ Z.of_nat a) 64000) + j)%Q, s')).
  { unfold calculate_backoff, bind, ret. rewrite Hdraw. reflexivity. }
  rewrite Heq. cbn [fst]. split; [reflexivity|]. split.
  - rewrite <- (Qplus_0_r (inject_Z _)) at 1.
    apply Qplus_le_r. exact Hlo.
  - apply Qplus_le_r. exact Hhi.
Qed.

Lemma calculate_backoff_interval_witness :
  calculate_backoff 2 Tests.single =
    ((inject_Z (Z.min (1000 * 2 ^ Z.of_nat 2) 64000) + (0 + (1000 - 0) * (1 # 2)))%Q,
     set_draws 1 Tests.single) /\
  (inject_Z (Z.min (1000 * 2 ^ Z.of_nat 2) 64000)
     <= fst (calculate_backoff 2 Tests.single))%Q /\
  (fst (calculate_backoff 2 Tests.single)
     <= inject_Z (Z.min (1000 * 2 ^ Z.of_nat 2) 64000) + 1000)%Q.
Proof.
  apply (calculate_backoff_interval 2 Tests.single (set_draws 1 Tests.single)
           (0 + (1000 - 0) * (1 # 2))%Q).
  - reflexivity.
  - split; unfold Qle; simpl; lia.
Defined.

(** The cap is reached from the seventh attempt on. *)
Lemma capped_backoff_values :
  map capped_backoff [0; 1; 2; 5; 6; 7; 20]%nat =
  [1000; 2000; 4000; 32000; 64000; 64000; 64000].
Proof. reflexivity. Qed.

(** ** The cooldown check *)

Definition default_cooldown (k : KeyState) : Z :=
  if isQuotaError k then CONFIG.COOLDOWN_QUOTA else CONFIG.COOLDOWN_TRANSIENT.

(** An OPEN circuit whose probing time has come. *)
Definition half_open_due (now : Z) (k : KeyState) : bool :=
  truthy (halfOpenTestTime k) && (or_default (halfOpenTestTime k) 0 <=? now).

(** The verdict in words: DEAD; or OPEN and not yet due for a probe; or, in
    the other two states, failed less than the longer of the custom and the
    default cooldown ago. *)
Definition on_cooldown_spec (now : Z) (k : KeyState) : bool :=
  match circuitState k with
  | DEAD => true
  | OPEN => negb (half_open_due now k)
  | CLOSED | HALF_OPEN =>
      truthy (failedAt k) &&
      (now - or_default (failedAt k) 0
         <? Z.max (or_default (customCooldown k) 0) (default_cooldown k))
  end.

Definition a_key (st : CircuitState) (failed_at custom : option Z) : KeyState :=
  mkKeyState "A" 1 failed_at false st 0 0 1 None custom 1 0 0 0 "default".

Definition one_key (k : KeyState) (now : Z) : State :=
  mkState [k] StandardStrategy false None 0 None (fun _ => now) 0 (fun _ => 0%Q) 0 [].

Lemma is_on_cooldown_run (r : nat) (s : State) (k : KeyState) :
  keys s !! r = Some k ->
  _is_on_cooldown r s =
    match circuitState k with
    | DEAD => (true, s)
    | OPEN =>
        if half_open_due (clock s (reads s)) k
        then (false, set_events (circuitHalfOpen (key k) :: events s)
                       (set_keys (alter (with_circuitState HALF_OPEN) r (keys s))
                          (set_reads (S (reads s)) s)))
        else (true, set_reads (S (reads s)) s)
    | _ => (on_cooldown_spec (clock s (reads s)) k, set_reads (S (reads s)) s)
    end.
Proof.
  intros Hk.
  unfold _is_on_cooldown, bind, deref, gets, on_cooldown_spec, half_open_due,
    default_cooldown.
  rewrite Hk.
  destruct (circuitState k) eqn:Hc; cbn [CircuitState_eqb time_ms ret];
    try reflexivity.
  2: { destruct (truthy (halfOpenTestTime k) && _); reflexivity. }
  all: assert (Hz : truthy (customCooldown k) = false -> or_default (customCooldown k) 0 = 0)
         by (unfold truthy, or_default; destruct (customCooldown k) as [v|];
             [destruct (v =? 0); [reflexivity | discriminate] | reflexivity]).
  all: destruct (truthy (failedAt k)); cbn [andb]; [|reflexivity].
  all: unfold ret, CONFIG.COOLDOWN_QUOTA, CONFIG.COOLDOWN_TRANSIENT.
  all: destruct (truthy (customCooldown k)); cbn [andb];
         [| rewrite (Hz eq_refl) ]; destruct (isQuotaError k).
  all: repeat match goal with
              | |- context [?a <? ?b] => destruct (Z.ltb_spec a b)
              end; try reflexivity; exfalso; lia.
Qed.

(** C4 (amended). For the object [k] behind [r] and the clock reading [now],
    [_is_on_cooldown] answers true exactly when [k] is DEAD, or OPEN and not
    yet due for its probe, or (CLOSED or HALF_OPEN) with a truthy [failedAt]
    and [now - failedAt] below the larger of the custom cooldown and the
    default one; an OPEN key that is due becomes HALF_OPEN and no other
    object changes. *)
Theorem is_on_cooldown_verdict (r : nat) (s : State) (k : KeyState) :
  keys s !! r = Some k ->
  fst (_is_on_cooldown r s) = on_cooldown_spec (clock s (reads s)) k /\
  keys (snd (_is_on_cooldown r s)) =
    (if CircuitState_eqb (circuitState k) OPEN && half_open_due (clock s (reads s)) k
     then alter (with_circuitState HALF_OPEN) r (keys s)
     else keys s).
Proof.
  intros Hk. rewrite (is_on_cooldown_run r s k Hk).
  unfold on_cooldown_spec.
  destruct (circuitState k); cbn [CircuitState_eqb andb fst snd];
    try (split; reflexivity).
  destruct (half_open_due (clock s (reads s)) k); split; reflexivity.
Qed.

Lemma is_on_cooldown_verdict_witness :
  fst (_is_on_cooldown 0 (one_key (a_key OPEN (Some 1000) None) 5000)) =
    on_cooldown_spec 5000 (a_key OPEN (Some 1000) None) /\
  keys (snd (_is_on_cooldown 0 (one_key (a_key OPEN (Some 1000) None) 5000))) =
    [a_key OPEN (Some 1000) None].
Proof.
  apply (is_on_cooldown_verdict 0 (one_key (a_key OPEN (Some 1000) None) 5000)
           (a_key OPEN (Some 1000) None)).
  reflexivity.
Defined.

Definition custom_key : KeyState := a_key CLOSED (Some 1000) (Some 500).
Definition custom_state : State := one_key custom_key 2000.

(** C4, as stated, fails: with a custom cooldown of 500 ms that elapsed
    (the failure is 1000 ms old), the key is still reported on cooldown,
    because the default cooldown of 60 s is checked as well. *)
Lemma custom_cooldown_elapsed_still_cooling :
  keys custom_state !! 0%nat = Some custom_key /\
  customCooldown custom_key = Some 500 /\
  failedAt custom_key = Some 1000 /\
  500 <= clock custom_state (reads custom_state) - 1000 /\
  fst (_is_on_cooldown 0 custom_state) = true.
Proof. vm_compute. repeat split; try reflexivity; discriminate. Qed.

(** ** Frame conditions

    A relation between the state before and after a computation, closed
    under sequencing. *)

Section Respects.
Variable R : State -> State -> Prop.
Hypothesis R_refl : forall s, R s s.
Hypothesis R_trans : forall a b c, R a b -> R b c -> R a c.

Definition respects {A} (c : M A) : Prop := forall s, R s (snd (c s)).

Lemma respects_ret {A} (a : A) : respects (ret a).
Proof. intros s. apply R_refl. Qed.

Lemma respects_gets {A} (f : State -> A) : respects (gets f).
Proof. intros s. apply R_refl. Qed.

Lemma respects_bind {A B} (c : M A) (f : A -> M B) :
  respects c -> (forall a, respects (f a)) -> respects (bind c f).
Proof.
  intros Hc Hf s. unfold bind.
  specialize (Hc s). destruct (c s) as [a s1]. cbn [snd] in Hc.
  eapply R_trans; [exact Hc | apply Hf].
Qed.

Lemma respects_comprehension (cond : nat -> M bool) (rs : list nat) :
  (forall r, respects (cond r)) -> respects (comprehension cond rs).
Proof.
  intros Hc. induction rs as [|r rs IH]; cbn [comprehension].
  - apply respects_ret.
  - apply respects_bind; [apply Hc|]. intros b.
    apply respects_bind; [exact IH|]. intros rest. apply respects_ret.
Qed.

(** Every resumption of the task respects [R]. *)
Inductive task_respects : Task -> Prop :=
  | respects_done o : task_respects (Done o)
  | respects_await req resume :
      (forall o s, R s (snd (resume o s))) ->
      (forall o s, task_respects (fst (resume o s))) ->
      task_respects (Await req resume).

Definition respectsT (c : M Task) : Prop :=
  forall s, R s (snd (c s)) /\ task_respects (fst (c s)).

Lemma respectsT_ret (t : Task) : task_respects t -> respectsT (ret t).
Proof. intros Ht s. split; [apply R_refl | exact Ht]. Qed.

Lemma respectsT_bind {A} (c : M A) (f : A -> M Task) :
  respects c -> (forall a, respectsT (f a)) -> respectsT (bind c f).
Proof.
  intros Hc Hf s. unfold bind.
  specialize (Hc s). destruct (c s) as [a s1]. cbn [snd] in Hc.
  destruct (Hf a s1) as [H1 H2]. split; [eapply R_trans; eauto | exact H2].
Qed.

Lemma respectsT_call_fallback : respectsT call_fallback.
Proof.
  apply respectsT_ret. constructor; intros o s; cbn.
  - apply R_refl.
  - constructor.
Qed.

Lemma respectsT_try_finally (t : Task) (cleanup : M unit) :
  task_respects t -> respects cleanup -> respectsT (try_finally t cleanup).
Proof.
  intros Ht Hc. induction Ht as [o | req resume H1 H2 IH]; cbn [try_finally].
  - apply respectsT_bind; [exact Hc|]. intros _. apply respectsT_ret. constructor.
  - apply respectsT_ret. constructor; intros o s;
      specialize (H1 o s); specialize (IH o s);
      destruct (resume o s) as [t' s']; cbn [fst snd] in *;
      destruct (IH s') as [H3 H4].
    + eapply R_trans; eauto.
    + exact H4.
Qed.

(** The methods of the manager, assumed to respect [R]. *)
Hypothesis R_get_key : respects get_key.
Hypothesis R_get_key_by_provider : forall p, respects (get_key_by_provider p).
Hypothesis R_mark_success : forall name d, respects (mark_success name d).
Hypothesis R_mark_failed : forall name c, respects (mark_failed name c).
Hypothesis R_time_ms : respects time_ms.
Hypothesis R_emit : forall ev, respects (_emit ev).
Hypothesis R_backoff : forall a, respects (calculate_backoff a).
Hypothesis R_active_calls : forall n s, R s (set_active_calls n s).

Lemma respects_select_key (options : ExecuteOptions) : respects (select_key options).
Proof. unfold select_key. destruct (truthy_str _); auto. Qed.

Lemma respectsT_no_key : respectsT no_key.
Proof.
  unfold no_key. apply respectsT_bind; [apply respects_gets|]. intros [].
  - apply respectsT_bind; [apply R_emit|]. intros _. apply respectsT_call_fallback.
  - apply respectsT_ret. constructor.
Qed.

Lemma respectsT_attempt_succeeded (name : string) (start : Z) (result : PyValue) :
  respectsT (attempt_succeeded name start result).
Proof.
  unfold attempt_succeeded.
  apply respectsT_bind; [apply R_time_ms|]. intros now.
  apply respectsT_bind; [apply R_mark_success|]. intros _.
  apply respectsT_bind; [apply R_emit|]. intros _.
  apply respectsT_ret. constructor.
Qed.

Lemma respectsT_attempt_failed (options : ExecuteOptions) (attempt : nat)
    (name : string) (e0 : PyError) (continue : M Task) :
  respectsT continue -> respectsT (attempt_failed options attempt name e0 continue).
Proof.
  intros Hk. unfold attempt_failed.
  apply respectsT_bind; [apply R_mark_failed|]. intros _.
  apply respectsT_bind; [apply R_emit|]. intros _.
  destruct (negb _ || _).
  - apply respectsT_bind; [apply respects_gets|]. intros fb.
    destruct (fb && _).
    + apply respectsT_bind; [apply R_emit|]. intros _. apply respectsT_call_fallback.
    + apply respectsT_ret. constructor.
  - apply respectsT_bind; [apply R_backoff|]. intros delay.
    apply respectsT_bind; [apply R_emit|]. intros _.
    apply respectsT_ret. constructor; intros [v|e'] s; cbn [ret fst snd];
      try apply R_refl; try apply Hk; constructor.
Qed.

Lemma respectsT_retry_loop (options : ExecuteOptions) (attempts : list nat)
    (last_error : option PyError) :
  respectsT (retry_loop options attempts last_error).
Proof.
  revert last_error. induction attempts as [|attempt rest IH]; intros last_error;
    cbn [retry_loop].
  - apply respectsT_ret. constructor.
  - apply respectsT_bind; [apply respects_select_key|]. intros k.
    destruct (negb (truthy_str k)); [apply respectsT_no_key|].
    apply respectsT_bind; [apply R_time_ms|]. intros start.
    apply respectsT_ret. constructor; intros [v|e0] s.
    + apply respectsT_attempt_succeeded.
    + apply respectsT_attempt_failed, IH.
    + apply respectsT_attempt_succeeded.
    + apply respectsT_attempt_failed, IH.
Qed.

Lemma respects_release : respects release.
Proof. intros s. apply R_active_calls. Qed.

Lemma respectsT_execute (options : ExecuteOptions) : respectsT (execute options).
Proof.
  unfold execute. apply respectsT_bind; [apply respects_gets|]. intros [].
  - apply respectsT_bind; [apply R_emit|]. intros _. apply respectsT_ret. constructor.
  - apply respectsT_bind; [intros s; apply R_active_calls|]. intros _.
    intros s. unfold bind, _execute_with_retry.
    destruct (respectsT_retry_loop options (seq 0 (Z.to_nat (maxRetries options + 1)))
                None s) as [H1 H2].
    destruct (retry_loop _ _ _ s) as [t s1]. cbn [fst snd] in *.
    destruct (respectsT_try_finally t release H2 respects_release s1) as [H3 H4].
    split; [eapply R_trans; eauto | exact H4].
Qed.

Lemma respects_do_call (c : Call) : respects (do_call c).
Proof.
  destruct c; cbn [do_call]; auto;
    (apply respects_bind; [auto | intros; apply respects_ret]).
Qed.

(** Whatever the event loop does, the state stays related to the initial
    one and every task keeps respecting [R]. *)
Lemma reachable_respects (init : State) (l : Loop) :
  reachable init l ->
  R init (manager l) /\ Forall task_respects (tasks l).
Proof.
  induction 1 as [|l l' Hreach [IH1 IH2] Hstep].
  - split; [apply R_refl | constructor].
  - destruct Hstep as [c s ts | options s ts | i req resume o s ts Hi];
      cbn [manager tasks] in *.
    + split; [|exact IH2]. eapply R_trans; [exact IH1 | apply respects_do_call].
    + destruct (respectsT_execute options s) as [H1 H2]. split.
      * eapply R_trans; eauto.
      * apply Forall_app. split; [exact IH2 | constructor; [exact H2 | constructor]].
    + assert (Ht : task_respects (Await req resume)).
      { eapply Forall_lookup_1; eauto. }
      inversion Ht as [|? ? H1 H2]; subst. split.
      * eapply R_trans; [exact IH1 | apply H1].
      * apply Forall_insert; [exact IH2 | apply H2].
Qed.
End Respects.

Arguments respects R {A} c.

(** Unfolds a method into its primitive steps. *)
Ltac respects_steps Hrefl Htrans :=
  repeat first
    [ solve [auto with respects_db]
    | apply (respects_ret _ Hrefl)
    | apply (respects_gets _ Hrefl)
    | apply (respects_comprehension _ Hrefl Htrans); intros
    | apply (respects_bind _ Htrans); [|intros]
    | match goal with
      | |- respects _ (match ?x with _ => _ end) => destruct x
      | |- respects _ (let _ := _ in _) => cbv zeta
      end ].

(** *** What no method changes: the configuration and the bulkhead counter *)

Definition same_self (s s' : State) : Prop :=
  strategy s' = strategy s /\ fallback_fn s' = fallback_fn s /\
  max_concurrency s' = max_concurrency s /\ active_calls s' = active_calls s.

Lemma same_self_refl s : same_self s s.
Proof. repeat split. Qed.

Lemma same_self_trans a b c : same_self a b -> same_self b c -> same_self a c.
Proof. unfold same_self. intuition congruence. Qed.

Lemma same_self_time_ms : respects same_self time_ms.
Proof. intros s. repeat split. Qed.

Lemma same_self_random_uniform a b : respects same_self (random_uniform a b).
Proof. intros s. repeat split. Qed.

Lemma same_self_emit ev : respects same_self (_emit ev).
Proof. intros s. repeat split. Qed.

Lemma same_self_mutate r f : respects same_self (mutate r f).
Proof. intros s. repeat split. Qed.

Lemma same_self_save_state : respects same_self save_state.
Proof. intros s. unfold save_state, modify. cbn. destruct (storage s); repeat split. Qed.

Lemma same_self_deref r : respects same_self (deref r).
Proof. intros s. repeat split. Qed.

Lemma same_self_find_key name : respects same_self (find_key name).
Proof. intros s. repeat split. Qed.

Lemma same_self_resolve rs : respects same_self (resolve rs).
Proof. intros s. repeat split. Qed.

Lemma same_self_all_refs : respects same_self all_refs.
Proof. intros s. repeat split. Qed.

Create HintDb respects_db.
#[local] Hint Resolve same_self_time_ms same_self_random_uniform same_self_emit
  same_self_mutate same_self_save_state same_self_deref same_self_find_key
  same_self_resolve same_self_all_refs : respects_db.

Ltac same_self_steps := respects_steps same_self_refl same_self_trans.

Lemma same_self_is_on_cooldown r : respects same_self (_is_on_cooldown r).
Proof. unfold _is_on_cooldown. same_self_steps. Qed.

Lemma same_self_not_dead r : respects same_self (not_dead r).
Proof. unfold not_dead. same_self_steps. Qed.

#[local] Hint Resolve same_self_is_on_cooldown same_self_not_dead : respects_db.

Lemma same_self_eligible r : respects same_self (eligible r).
Proof. unfold eligible. same_self_steps. Qed.

Lemma same_self_has_provider p r : respects same_self (has_provider p r).
Proof. unfold has_provider. same_self_steps. Qed.

Lemma same_self_key_of r : respects same_self (key_of r).
Proof. unfold key_of. same_self_steps. Qed.

Lemma same_self_strategy_next cs : respects same_self (strategy_next cs).
Proof. unfold strategy_next, weighted_next. same_self_steps. Qed.

#[local] Hint Resolve same_self_eligible same_self_has_provider same_self_key_of
  same_self_strategy_next : respects_db.

Lemma same_self_use_selected sel : respects same_self (use_selected sel).
Proof. unfold use_selected. same_self_steps. Qed.

#[local] Hint Resolve same_self_use_selected : respects_db.

Lemma same_self_get_key : respects same_self get_key.
Proof. unfold get_key. same_self_steps. Qed.

Lemma same_self_get_key_by_provider p : respects same_self (get_key_by_provider p).
Proof. unfold get_key_by_provider. same_self_steps. Qed.

Lemma same_self_mark_success name d : respects same_self (mark_success name d).
Proof. unfold mark_success. same_self_steps. Qed.

Lemma same_self_mark_failed name c : respects same_self (mark_failed name c).
Proof. unfold mark_failed, open_circuit. same_self_steps. Qed.

Lemma same_self_calculate_backoff a : respects same_self (calculate_backoff a).
Proof. unfold calculate_backoff. same_self_steps. Qed.

Lemma same_self_select_key options : respects same_self (select_key options).
Proof.
  unfold select_key. destruct (truthy_str _);
    [apply same_self_get_key_by_provider | apply same_self_get_key].
Qed.

Lemma same_self_retry_loop options attempts last_error :
  respectsT same_self (retry_loop options attempts last_error).
Proof.
  exact (respectsT_retry_loop same_self same_self_refl same_self_trans
           same_self_get_key same_self_get_key_by_provider same_self_mark_success
           same_self_mark_failed same_self_time_ms same_self_emit
           same_self_calculate_backoff options attempts last_error).
Qed.

(** ** The bulkhead *)

(** A task that occupies a slot: each of its resumptions leaves the limit
    alone and the counter too, except the one that finishes the task, which
    takes one off. *)
Inductive holds_slot : Task -> Prop :=
  | slot_await req resume :
      (forall o s, max_concurrency (snd (resume o s)) = max_concurrency s) ->
      (forall o s, active_calls (snd (resume o s)) =
                   active_calls s - (if is_done (fst (resume o s)) then 1 else 0)) ->
      (forall o s, is_done (fst (resume o s)) = false -> holds_slot (fst (resume o s))) ->
      holds_slot (Await req resume).

(** [n] does not exceed the limit. *)
Definition within (limit : option Z) (n : Z) : Prop :=
  match limit with
  | Some m => n <= m
  | None => True
  end.

Lemma try_finally_release (t : Task) :
  task_respects same_self t ->
  forall s,
    max_concurrency (snd (try_finally t release s)) = max_concurrency s /\
    active_calls (snd (try_finally t release s)) =
      active_calls s - (if is_done (fst (try_finally t release s)) then 1 else 0) /\
    (is_done (fst (try_finally t release s)) = false ->
     holds_slot (fst (try_finally t release s))).
Proof.
  induction 1 as [o | req resume H1 H2 IH]; intros s; cbn [try_finally].
  - cbn. split; [reflexivity | split; [lia | discriminate]].
  - cbn. split; [reflexivity | split; [lia|]]. intros _. constructor; intros o s0;
      specialize (H1 o s0); specialize (IH o s0);
      destruct (resume o s0) as [t' s']; cbn [fst snd] in *;
      destruct (IH s') as (I1 & I2 & I3); destruct H1 as (_ & _ & E1 & E2).
    + congruence.
    + rewrite I2, E2. reflexivity.
    + exact I3.
Qed.

(** What one call of [execute] does to the counter. *)
Lemma execute_slot (options : ExecuteOptions) (s : State) :
  if at_capacity s
  then execute options s =
         (Done (Raise BulkheadRejectionError),
          set_events (bulkheadRejected :: events s) s)
  else max_concurrency (snd (execute options s)) = max_concurrency s /\
       active_calls (snd (execute options s)) =
         active_calls s + (if is_done (fst (execute options s)) then 0 else 1) /\
       (is_done (fst (execute options s)) = false ->
        holds_slot (fst (execute options s))).
Proof.
  unfold execute, bind, gets, _execute_with_retry.
  destruct (at_capacity s) eqn:Hcap; [reflexivity|].
  unfold modify.
  set (s1 := set_active_calls (active_calls s + 1) s).
  destruct (same_self_retry_loop options (seq 0 (Z.to_nat (maxRetries options + 1)))
              None s1) as [(_ & _ & E1 & E2) Ht].
  destruct (retry_loop _ _ _ s1) as [t s2]. cbn [fst snd] in *.
  destruct (try_finally_release t Ht s2) as (I1 & I2 & I3).
  destruct (try_finally t release s2) as [t3 s3]. cbn [fst snd] in *.
  subst s1. cbn in E1, E2.
  split; [congruence | split; [|exact I3]].
  rewrite I2, E2. destruct (is_done t3); lia.
Qed.

Lemma in_flight_app (ts : list Task) (t : Task) :
  in_flight (ts ++ [t]) = in_flight ts + (if is_done t then 0 else 1).
Proof.
  unfold in_flight. rewrite List.filter_app, length_app. cbn [List.filter].
  destruct (is_done t); cbn [negb length]; lia.
Qed.

Lemma in_flight_cons (t : Task) (ts : list Task) :
  in_flight (t :: ts) = (if is_done t then 0 else 1) + in_flight ts.
Proof.
  unfold in_flight. cbn [List.filter]. destruct (is_done t); cbn [negb length]; lia.
Qed.

Lemma in_flight_insert (ts : list Task) (i : nat) (req : Request) resume (t' : Task) :
  ts !! i = Some (Await req resume) ->
  in_flight (<[i := t']> ts) = in_flight ts - (if is_done t' then 1 else 0).
Proof.
  revert i. induction ts as [|t ts IH]; intros i Hi; [discriminate|].
  destruct i as [|i].
  - cbn in Hi. injection Hi as ->.
    change (<[0%nat := t']> (Await req resume :: ts)) with (t' :: ts).
    rewrite !in_flight_cons. cbn [is_done]. destruct (is_done t'); lia.
  - cbn in Hi. specialize (IH i Hi).
    change (<[S i := t']> (t :: ts)) with (t :: <[i := t']> ts).
    rewrite !in_flight_cons, IH. lia.
Qed.

Lemma in_flight_nonneg (ts : list Task) : 0 <= in_flight ts.
Proof. unfold in_flight. lia. Qed.

(** The invariant of the event loop. *)
Definition bulkhead_inv (init : State) (l : Loop) : Prop :=
  max_concurrency (manager l) = max_concurrency init /\
  active_calls (manager l) = in_flight (tasks l) /\
  within (max_concurrency init) (active_calls (manager l)) /\
  Forall (fun t => is_done t = false -> holds_slot t) (tasks l).

Lemma bulkhead_invariant (init : State) (l : Loop) :
  active_calls init = 0 ->
  within (max_concurrency init) 0 ->
  reachable init l ->
  bulkhead_inv init l.
Proof.
  intros H0 Hw. induction 1 as [|l l' Hreach (I1 & I2 & I3 & I4) Hstep].
  - unfold bulkhead_inv. cbn. rewrite H0. repeat split; [exact Hw | constructor].
  - destruct Hstep as [c s ts | options s ts | i req resume o s ts Hi];
      unfold bulkhead_inv; cbn [manager tasks] in *.
    + assert (Hc : same_self s (snd (do_call c s))).
      { exact (respects_do_call same_self same_self_refl same_self_trans
                 same_self_get_key same_self_get_key_by_provider
                 same_self_mark_success same_self_mark_failed c s). }
      destruct Hc as (_ & _ & E1 & E2). rewrite E1, E2. auto.
    + pose proof (execute_slot options s) as Hx.
      destruct (at_capacity s) eqn:Hcap.
      * rewrite Hx. cbn [fst snd]. rewrite in_flight_app. cbn.
        split; [exact I1|]. split; [lia|]. split; [exact I3|].
        apply Forall_app. split; [exact I4 | constructor; [discriminate | constructor]].
      * destruct Hx as (E1 & E2 & E3). rewrite in_flight_app, E1, E2.
        split; [exact I1|]. split; [rewrite I2; reflexivity|]. split.
        -- unfold at_capacity in Hcap. rewrite I1 in Hcap. unfold within in *.
           destruct (max_concurrency init) as [m|]; [|exact I].
           apply Z.leb_gt in Hcap.
           destruct (is_done (fst (execute options s))); lia.
        -- apply Forall_app. split; [exact I4 | constructor; [exact E3 | constructor]].
    + assert (Ht : holds_slot (Await req resume)).
      { eapply (Forall_lookup_1 _ _ _ _ I4 Hi). reflexivity. }
      inversion Ht as [? ? E1 E2 E3]; subst.
      rewrite (in_flight_insert ts i req resume _ Hi), E1, E2.
      split; [exact I1|]. split; [rewrite I2; reflexivity|]. split.
      * unfold within in *. destruct (max_concurrency init); [|exact I].
        destruct (is_done (fst (resume o s))); lia.
      * apply Forall_insert; [exact I4 | apply E3].
Qed.

(** C7. In every state the event loop can reach from a manager built with a
    non-negative limit, the counter [active_calls] is the number of [execute]
    calls in flight and does not exceed [max_concurrency]; a call that would
    exceed it is rejected with [BulkheadRejectionError] at once, with no
    request and no change to the state other than the [bulkheadRejected]
    event (no key selected, [fn] not invoked); an admitted call adds one to
    the counter while it is in flight and every exit of it takes the one off
    again; with a limit of 0 every call is rejected. *)
Theorem bulkhead_never_exceeded (init : State) (l : Loop) :
  active_calls init = 0 ->
  within (max_concurrency init) 0 ->
  reachable init l ->
  active_calls (manager l) = in_flight (tasks l) /\
  within (max_concurrency (manager l)) (active_calls (manager l)) /\
  (forall options,
     ~ within (max_concurrency (manager l)) (active_calls (manager l) + 1) ->
     execute options (manager l) =
       (Done (Raise BulkheadRejectionError),
        set_events (bulkheadRejected :: events (manager l)) (manager l))) /\
  (forall options,
     within (max_concurrency (manager l)) (active_calls (manager l) + 1) ->
     active_calls (snd (execute options (manager l))) =
       active_calls (manager l) +
       (if is_done (fst (execute options (manager l))) then 0 else 1) /\
     (is_done (fst (execute options (manager l))) = false ->
      holds_slot (fst (execute options (manager l))))) /\
  Forall (fun t => is_done t = false -> holds_slot t) (tasks l) /\
  (max_concurrency (manager l) = Some 0 ->
   forall options,
     fst (execute options (manager l)) = Done (Raise BulkheadRejectionError)).
Proof.
  intros H0 Hw Hreach.
  destruct (bulkhead_invariant init l H0 Hw Hreach) as (I1 & I2 & I3 & I4).
  pose proof (in_flight_nonneg (tasks l)) as Hnn.
  rewrite I1. split; [exact I2|]. split; [exact I3|]. split; [|split; [|split]].
  - intros options Hfull. pose proof (execute_slot options (manager l)) as Hx.
    destruct (at_capacity (manager l)) eqn:Hcap; [exact Hx|].
    exfalso. apply Hfull. unfold at_capacity in Hcap. rewrite I1 in Hcap.
    unfold within. destruct (max_concurrency init); [|exact I].
    apply Z.leb_gt in Hcap. lia.
  - intros options Hroom. pose proof (execute_slot options (manager l)) as Hx.
    destruct (at_capacity (manager l)) eqn:Hcap; [|tauto].
    exfalso. unfold at_capacity in Hcap. rewrite I1 in Hcap.
    unfold within in Hroom. destruct (max_concurrency init); [|discriminate].
    apply Z.leb_le in Hcap. lia.
  - exact I4.
  - intros Hzero options. pose proof (execute_slot options (manager l)) as Hx.
    assert (Hcap : at_capacity (manager l) = true).
    { unfold at_capacity. rewrite I1, Hzero. apply Z.leb_le. lia. }
    rewrite Hcap in Hx. rewrite Hx. reflexivity.
Qed.

(** The loop with one call of [execute] in flight on the fixture. *)
Definition one_in_flight : Loop :=
  mkLoop (snd (execute default_options Tests.fixture))
         ([] ++ [fst (execute default_options Tests.fixture)]).

Lemma bulkhead_never_exceeded_witness :
  active_calls (manager one_in_flight) = in_flight (tasks one_in_flight) /\
  within (max_concurrency (manager one_in_flight)) (active_calls (manager one_in_flight)).
Proof.
  assert (Hw : within (max_concurrency Tests.fixture) 0) by (cbn; lia).
  assert (Hr : reachable Tests.fixture one_in_flight).
  { eapply reach_step; [apply reach_init | apply step_execute]. }
  pose proof (bulkhead_never_exceeded Tests.fixture one_in_flight eq_refl Hw Hr) as H.
  split; apply H.
Defined.

(** One call in flight on the fixture occupies one of the five slots, and a
    manager with a limit of 0 rejects. *)
Example bulkhead_samples :
  active_calls (snd (execute default_options Tests.fixture)) = 1 /\
  fst (execute default_options
         (ApiKeyManager [mkKeySpec "key-1" 1 "default"] false StandardStrategy false
            (Some 0) Tests.test_clock Tests.test_rng))
    = Done (Raise BulkheadRejectionError).
Proof. vm_compute. split; reflexivity. Qed.

(** ** The retry loop *)

Lemma no_key_task (s : State) :
  fst (no_key s) =
    if fallback_fn s then Await CallFallback (fun o => ret (Done o))
    else Done (Raise AllKeysExhaustedError).
Proof. unfold no_key, bind, gets. destruct (fallback_fn s); reflexivity. Qed.

Lemma attempt_succeeded_task (name : string) (start : Z) (result : PyValue) (s : State) :
  fst (attempt_succeeded name start result s) = Done (Return result).
Proof.
  unfold attempt_succeeded, bind, time_ms.
  destruct (mark_success _ _ _) as [[] s1]. reflexivity.
Qed.

(** The task an [except] handler leaves behind: it stops at once (raising or
    handing over to the fallback) on a non-retryable classification or on the
    last attempt, and otherwise sleeps before the next attempt. *)
Lemma attempt_failed_task (options : ExecuteOptions) (attempt : nat) (name : string)
    (e0 : PyError) (continue : M Task) (s : State) :
  let e := as_timeout options e0 in
  let classification := classify_error e (finishReason options) in
  if negb (retryable classification) || (maxRetries options <=? Z.of_nat attempt)
  then fst (attempt_failed options attempt name e0 continue s) =
         if fallback_fn s && (maxRetries options <=? Z.of_nat attempt)
         then Await CallFallback (fun o => ret (Done o))
         else Done (Raise e)
  else exists delay,
         fst (attempt_failed options attempt name e0 continue s) =
           Await (Sleep delay)
             (fun o => match o with
                       | Return _ => continue
                       | Raise e' => ret (Done (Raise e'))
                       end).
Proof.
  intros e classification. unfold attempt_failed. fold e. fold classification.
  unfold bind.
  pose proof (same_self_mark_failed name classification s) as (_ & Hfb & _).
  destruct (mark_failed name classification s) as [[] s1]. cbn [snd] in Hfb.
  cbn [_emit modify].
  destruct (negb (retryable classification) || (maxRetries options <=? Z.of_nat attempt)).
  - unfold gets. cbn [fallback_fn set_events]. rewrite Hfb.
    destruct (fallback_fn s && (maxRetries options <=? Z.of_nat attempt)); reflexivity.
  - unfold calculate_backoff, bind, random_uniform, ret. cbn. eexists. reflexivity.
Qed.

Lemma runs_done_inv (o o' : Outcome) (tr : list Request) :
  runs (Done o) tr o' -> tr = [] /\ o' = o.
Proof. inversion 1; subst. split; reflexivity. Qed.

Lemma runs_fallback_inv (tr : list Request) (o : Outcome) :
  runs (Await CallFallback (fun o => ret (Done o))) tr o -> tr = [CallFallback].
Proof.
  inversion 1 as [|? ? o1 s1 tr' ? Hr]; subst. cbn in Hr.
  apply runs_done_inv in Hr as [-> _]. reflexivity.
Qed.

(** The requests of one attempt after [fn] has answered. *)
Lemma attempt_failed_runs (options : ExecuteOptions) (attempt : nat) (name : string)
    (e0 : PyError) (continue : M Task) (s : State) (tr : list Request) (o : Outcome) :
  runs (fst (attempt_failed options attempt name e0 continue s)) tr o ->
  tr = [] \/ tr = [CallFallback] \/
  (maxRetries options <=? Z.of_nat attempt) = false /\
  exists delay tr', tr = Sleep delay :: tr' /\
    (tr' = [] \/ exists s', runs (fst (continue s')) tr' o).
Proof.
  intros Hr. pose proof (attempt_failed_task options attempt name e0 continue s) as Ht.
  cbv zeta in Ht.
  destruct (negb _ || (maxRetries options <=? Z.of_nat attempt)) eqn:Hstop.
  - rewrite Ht in Hr. destruct (fallback_fn s && _).
    + right; left. eapply runs_fallback_inv; eauto.
    + left. apply runs_done_inv in Hr as [-> _]. reflexivity.
  - destruct Ht as [delay Ht]. rewrite Ht in Hr.
    apply orb_false_elim in Hstop as [_ Hlast].
    right; right. split; [exact Hlast|].
    inversion Hr as [|? ? o1 s1 tr' ? Hr']; subst.
    exists delay, tr'. split; [reflexivity|].
    destruct o1 as [v|e'].
    + right. exists s1. exact Hr'.
    + left. cbn in Hr'. apply runs_done_inv in Hr' as [-> _]. reflexivity.
Qed.

Lemma retry_loop_runs (options : ExecuteOptions) (attempts : list nat) :
  forall (last_error : option PyError) (s : State) (tr : list Request) (o : Outcome),
    runs (fst (retry_loop options attempts last_error s)) tr o ->
    (fn_calls tr <= length attempts)%nat /\ one_call_per_attempt tr = true.
Proof.
  induction attempts as [|attempt rest IH]; intros last_error s tr o Hr.
  - cbn in Hr. apply runs_done_inv in Hr as [-> _]. split; [cbn; lia | reflexivity].
  - cbn [retry_loop] in Hr. unfold bind in Hr.
    destruct (select_key options s) as [k s1]. destruct (negb (truthy_str k)).
    + rewrite no_key_task in Hr. destruct (fallback_fn s1).
      * apply runs_fallback_inv in Hr as ->. split; [cbn; lia | reflexivity].
      * apply runs_done_inv in Hr as [-> _]. split; [cbn; lia | reflexivity].
    + cbn [time_ms ret fst] in Hr.
      inversion Hr as [|? ? o1 s2 tr' ? Hr']; subst. destruct o1 as [v|e0].
      * rewrite attempt_succeeded_task in Hr'. apply runs_done_inv in Hr' as [-> _].
        split; [cbn; lia | reflexivity].
      * apply attempt_failed_runs in Hr'
          as [-> | [-> | (_ & delay & tr'' & -> & [-> | [s' Hk]])]];
          try (split; [cbn; lia | reflexivity]).
        destruct (IH _ _ _ _ Hk) as [H1 H2]. split; [|exact H2].
        unfold fn_calls in *. cbn [List.filter is_fn_call length] in *. lia.
Qed.

(** With no retry allowed, an attempt that reached [fn] is the only one. *)
Lemma single_attempt_runs (options : ExecuteOptions) (last_error : option PyError)
    (s : State) (tr : list Request) (o : Outcome) :
  maxRetries options = 0 ->
  runs (fst (retry_loop options [0%nat] last_error s)) tr o ->
  fn_calls tr = if truthy_str (fst (select_key options s)) then 1%nat else 0%nat.
Proof.
  intros Hmax Hr. cbn [retry_loop] in Hr. unfold bind in Hr.
  destruct (select_key options s) as [k s1]. cbn [fst].
  destruct (truthy_str k); cbn [negb] in Hr.
  - cbn [time_ms ret fst] in Hr.
    inversion Hr as [|? ? o1 s2 tr' ? Hr']; subst. destruct o1 as [v|e0].
    + rewrite attempt_succeeded_task in Hr'. apply runs_done_inv in Hr' as [-> _].
      reflexivity.
    + apply attempt_failed_runs in Hr' as [-> | [-> | (Hlast & _)]];
        try reflexivity.
      rewrite Hmax in Hlast. discriminate.
  - rewrite no_key_task in Hr. destruct (fallback_fn s1).
    + apply runs_fallback_inv in Hr as ->. reflexivity.
    + apply runs_done_inv in Hr as [-> _]. reflexivity.
Qed.

(** [try: ... finally: ...] adds no request of its own. *)
Lemma try_finally_runs (cleanup : M unit) (tr : list Request) :
  forall (t : Task) (s : State) (o : Outcome),
    runs (fst (try_finally t cleanup s)) tr o -> runs t tr o.
Proof.
  induction tr as [|req tr IH]; intros t s o Hr.
  - destruct t as [o1|req resume]; cbn in Hr.
    + unfold bind in Hr. destruct (cleanup s). cbn in Hr.
      apply runs_done_inv in Hr as [_ ->]. constructor.
    + inversion Hr.
  - destruct t as [o1|req' resume]; cbn in Hr.
    + unfold bind in Hr. destruct (cleanup s). cbn in Hr. inversion Hr.
    + inversion Hr as [|? ? o1 s1 ? ? Hr']; subst.
      apply (runs_await _ _ o1 s1). destruct (resume o1 s1) as [t' s']. cbn [fst].
      eapply IH. exact Hr'.
Qed.

Lemma execute_runs (options : ExecuteOptions) (s : State) (tr : list Request)
    (o : Outcome) :
  runs (fst (execute options s)) tr o ->
  if at_capacity s then tr = []
  else runs (fst (_execute_with_retry options
                    (set_active_calls (active_calls s + 1) s))) tr o.
Proof.
  unfold execute, bind, gets. destruct (at_capacity s).
  - cbn. intros Hr. apply runs_done_inv in Hr as [-> _]. reflexivity.
  - unfold modify. destruct (_execute_with_retry options _) as [t s1]. cbn [fst].
    intros Hr. eapply try_finally_runs. exact Hr.
Qed.

(** C1 (amended). In every run of [execute], [fn] is invoked at most
    [max(0, maxRetries + 1)] times and at most once per attempt (two
    invocations are separated by the back-off sleep); with [maxRetries = 0]
    it is invoked exactly once when the bulkhead admits the call and the
    selection returns a key, and not at all otherwise. *)
Theorem execute_invokes_fn (options : ExecuteOptions) (s : State)
    (tr : list Request) (o : Outcome) :
  runs (fst (execute options s)) tr o ->
  Z.of_nat (fn_calls tr) <= Z.max 0 (maxRetries options + 1) /\
  one_call_per_attempt tr = true /\
  (maxRetries options = 0 ->
   fn_calls tr =
     if at_capacity s then 0%nat
     else if truthy_str (fst (select_key options
                                (set_active_calls (active_calls s + 1) s)))
          then 1%nat else 0%nat).
Proof.
  intros Hr. apply execute_runs in Hr. destruct (at_capacity s).
  - subst tr. cbn. repeat split; lia.
  - unfold _execute_with_retry in Hr.
    destruct (retry_loop_runs _ _ _ _ _ _ Hr) as [H1 H2].
    rewrite length_seq in H1. repeat split; [lia | exact H2 |].
    intros Hmax. rewrite Hmax in Hr. cbn [Z.add Z.to_nat Pos.to_nat Pos.iter_op seq] in Hr.
    eapply single_attempt_runs; eauto.
Qed.

Lemma execute_invokes_fn_witness :
  Z.of_nat (fn_calls [CallFn "key-1" None]) <= Z.max 0 (maxRetries default_options + 1) /\
  one_call_per_attempt [CallFn "key-1" None] = true.
Proof.
  assert (Hr : runs (fst (execute default_options Tests.single))
                    [CallFn "key-1" None] (Return PyNone)).
  { apply (runs_await _ _ (Return PyNone) Tests.single). apply runs_done. }
  pose proof (execute_invokes_fn default_options Tests.single _ _ Hr) as H.
  split; apply H.
Defined.

Definition no_keys : State :=
  ApiKeyManager [] false StandardStrategy false None Tests.test_clock Tests.test_rng.

(** C1, as stated, fails: with [maxRetries = 0] and an empty registry the
    call is admitted, runs the loop and ends in [AllKeysExhaustedError]
    without having invoked [fn]. *)
Lemma zero_retries_without_key_never_invokes_fn :
  maxRetries default_options = 0 /\
  at_capacity no_keys = false /\
  runs (fst (execute default_options no_keys)) [] (Raise AllKeysExhaustedError) /\
  ~ (forall tr o, runs (fst (execute default_options no_keys)) tr o -> fn_calls tr = 1%nat).
Proof.
  assert (Hr : runs (fst (execute default_options no_keys)) []
                    (Raise AllKeysExhaustedError))
    by apply runs_done.
  repeat split; try reflexivity; try exact Hr.
  intros H. specialize (H _ _ Hr). discriminate.
Qed.

(** ** Non-retryable failures and the fallback *)

Definition non_retryable_type (t : ErrorType) : bool :=
  match t with
  | AUTH | BAD_REQUEST | SAFETY | RECITATION => true
  | _ => false
  end.

(** The classifier marks exactly AUTH, BAD_REQUEST, SAFETY and RECITATION as
    not retryable. *)
Lemma retryable_by_type (e : PyError) (fr : option string) :
  retryable (classify_error e fr) = negb (non_retryable_type (type (classify_error e fr))).
Proof.
  unfold classify_error.
  repeat match goal with
         | |- context [if ?b then _ else _] => destruct b; [reflexivity|]
         end.
  reflexivity.
Qed.

(** The continuation of a suspended task. *)
Definition resume_of (t : Task) : Outcome -> State -> Task * State :=
  match t with
  | Await _ resume => resume
  | Done o => fun _ s => (Done o, s)
  end.

(** C2 (amended). When the attempt that awaited [fn] fails with a
    non-retryable classification (AUTH, BAD_REQUEST, SAFETY, RECITATION), the
    loop ends there: no sleep and no further attempt.  The error is re-raised,
    unless a fallback is configured and the attempt was the last one allowed
    ([attempt >= maxRetries]), in which case the fallback is invoked and its
    outcome is the outcome of the call. *)
Theorem non_retryable_failure_ends_loop (options : ExecuteOptions) (attempt : nat)
    (rest : list nat) (last_error : option PyError) (s s1 : State) (name : string)
    (timeout : option Z) (resume : Outcome -> State -> Task * State)
    (e0 : PyError) (s2 : State) :
  retry_loop options (attempt :: rest) last_error s =
    (Await (CallFn name timeout) resume, s1) ->
  non_retryable_type
    (type (classify_error (as_timeout options e0) (finishReason options))) = true ->
  fst (resume (Raise e0) s2) =
    if fallback_fn s2 && (maxRetries options <=? Z.of_nat attempt)
    then Await CallFallback (fun o => ret (Done o))
    else Done (Raise (as_timeout options e0)).
Proof.
  intros Hloop Htype. cbn [retry_loop] in Hloop. unfold bind in Hloop.
  destruct (select_key options s) as [k s0]. destruct (negb (truthy_str k)).
  - exfalso. unfold no_key, bind, gets in Hloop. destruct (fallback_fn s0);
      cbn in Hloop; discriminate.
  - cbn [time_ms ret] in Hloop. injection Hloop as _ _ <- _.
    pose proof (attempt_failed_task options attempt (default ""%string k) e0
                  (retry_loop options rest (Some e0)) s2) as Ht.
    cbv zeta in Ht. rewrite retryable_by_type, Htype in Ht. exact Ht.
Qed.

Lemma non_retryable_failure_ends_loop_witness :
  fst (resume_of (fst (retry_loop (Tests.retries 1) [0; 1]%nat None Tests.single))
         (Raise (MockError 403)) Tests.single)
  = Done (Raise (MockError 403)).
Proof.
  apply (non_retryable_failure_ends_loop (Tests.retries 1) 0 [1%nat] None Tests.single
           (snd (retry_loop (Tests.retries 1) [0; 1]%nat None Tests.single))
           "key-1" None
           (resume_of (fst (retry_loop (Tests.retries 1) [0; 1]%nat None Tests.single)))
           (MockError 403) Tests.single).
  - reflexivity.
  - reflexivity.
Defined.

Definition single_with_fallback : State :=
  ApiKeyManager [mkKeySpec "key-1" 1 "default"] false StandardStrategy true None
                Tests.test_clock Tests.test_rng.

(** C2, as stated, fails: on the last attempt (here the only one, with the
    default [maxRetries = 0]) a 403, classified AUTH and not retryable, hands
    over to the configured fallback, and the call returns the fallback's
    value instead of raising. *)
Lemma fallback_engaged_on_non_retryable_last_attempt :
  maxRetries default_options = 0 /\
  type (classify_error (MockError 403) None) = AUTH /\
  retryable (classify_error (MockError 403) None) = false /\
  fst (run_execute default_options
         [Raise (MockError 403); Return (PyStr "fallback value")] single_with_fallback)
    = Done (Return (PyStr "fallback value")) /\
  runs (fst (execute default_options single_with_fallback))
       [CallFn "key-1" None; CallFallback] (Return (PyStr "fallback value")).
Proof.
  split; [reflexivity|]. split; [reflexivity|]. split; [reflexivity|].
  split; [reflexivity|].
  apply (runs_await _ _ (Raise (MockError 403)) single_with_fallback).
  apply (runs_await _ _ (Return (PyStr "fallback value")) single_with_fallback).
  apply runs_done.
Qed.

(** ** Selection when every key is cooling *)


Lemma is_on_cooldown_fst (r : nat) (s : State) (k : KeyState) :
  keys s !! r = Some k ->
  fst (_is_on_cooldown r s) = on_cooldown_spec (clock s (reads s)) k.
Proof.
  intros Hk. rewrite (is_on_cooldown_run r s k Hk). unfold on_cooldown_spec.
  destruct (circuitState k); try reflexivity.
  destruct (half_open_due _ _); reflexivity.
Qed.


Lemma eligible_absent (r : nat) (s : State) :
  keys s !! r = None -> eligible r s = (false, s).
Proof.
  intros Hk. cbv [eligible not_dead deref gets ret bind]. rewrite Hk. reflexivity.
Qed.



Lemma bind_run {A B} (c : M A) (f : A -> M B) (s s' : State) (a : A) :
  c s = (a, s') -> bind c f s = f a s'.
Proof. intros H. unfold bind. rewrite H. reflexivity. Qed.


Lemma retry_loop_no_key (options : ExecuteOptions) (attempt : nat) (rest : list nat)
    (last_error : option PyError) (s s1 : State) (k : option string) :
  select_key options s = (k, s1) ->
  truthy_str k = false ->
  retry_loop options (attempt :: rest) last_error s = no_key s1.
Proof.
  intros Hsel Hk. cbn [retry_loop]. rewrite (bind_run _ _ _ _ _ Hsel), Hk. reflexivity.
Qed.

Lemma execute_admitted (options : ExecuteOptions) (s : State) :
  at_capacity s = false ->
  execute options s =
    let (t, s1) := _execute_with_retry options (set_active_calls (active_calls s + 1) s) in
    try_finally t release s1.
Proof.
  intros Hcap. unfold execute.
  rewrite (bind_run (gets at_capacity) _ s s false) by (unfold gets; rewrite Hcap; reflexivity).
  reflexivity.
Qed.


(** ** The last resort of [get_key] *)

Lemma insert_by_In {A} (le : A -> A -> bool) (x y : A) (l : list A) :
  In y (insert_by le x l) <-> y = x \/ In y l.
Proof.
  induction l as [|z l IH]; cbn [insert_by].
  - cbn. intuition.
  - destruct (le x z); cbn [In]; [intuition|]. rewrite IH. intuition.
Qed.

Lemma sort_by_In {A} (le : A -> A -> bool) (y : A) (l : list A) :
  In y (sort_by le l) <-> In y l.
Proof.
  induction l as [|x l IH]; cbn [sort_by]; [reflexivity|].
  rewrite insert_by_In, IH. cbn [In]. intuition.
Qed.

Lemma first_ref_In (cs : Candidates) :
  cs <> [] -> exists r k, first_ref cs = Some r /\ In (r, k) cs.
Proof.
  destruct cs as [|[r k] cs]; [contradiction|]. intros _.
  exists r, k. split; [reflexivity | left; reflexivity].
Qed.

(** The registry read at [r] is not DEAD. *)
Definition alive (s : State) (r : nat) : bool :=
  match keys s !! r with
  | Some k => negb (CircuitState_eqb (circuitState k) DEAD)
  | None => false
  end.

Lemma comprehension_not_dead (rs : list nat) (s : State) :
  comprehension not_dead rs s = (List.filter (alive s) rs, s).
Proof.
  induction rs as [|r rs IH]; cbn [comprehension List.filter]; [reflexivity|].
  rewrite (bind_run (not_dead r) _ s s (alive s r) eq_refl).
  rewrite (bind_run _ _ _ _ _ IH). unfold ret. destruct (alive s r); reflexivity.
Qed.

Lemma resolve_In (rs : list nat) (s : State) (r : nat) (k : KeyState) :
  In (r, k) (fst (resolve rs s)) <-> In r rs /\ keys s !! r = Some k.
Proof.
  unfold resolve, gets. cbn [fst]. induction rs as [|r0 rs IH]; simpl.
  - intuition.
  - destruct (keys s !! r0) as [k0|] eqn:H0; simpl; rewrite IH.
    + split.
      * intros [Heq | [H1 H2]]; [injection Heq as -> ->; auto | auto].
      * intros [[-> | H1] H2]; [left; congruence | auto].
    + split.
      * intros [H1 H2]. auto.
      * intros [[-> | H1] H2]; [congruence | auto].
Qed.





(** The same key is what the unfiltered [get_key] hands out as a last resort,
    and an [execute] restricted to the provider fails. *)
Example provider_vs_unfiltered :
  let s := one_key (a_key CLOSED (Some 1000) None) 2000 in
  fst (get_key s) = Some "A"%string /\
  fst (get_key_by_provider "default" s) = None /\
  fst (execute {| timeoutMs := None; maxRetries := 2; finishReason := None;
                  opt_provider := Some "default"%string |} s)
    = Done (Raise AllKeysExhaustedError).
Proof. vm_compute. repeat split; reflexivity. Qed.

(** ** Health records *)

(** What holds of every key at all times: the failure count is not negative,
    it is zero exactly when no failure time is recorded, and a CLOSED circuit
    has seen fewer consecutive failures than the threshold. *)
Definition key_ok (k : KeyState) : Prop :=
  0 <= failCount k /\
  (failCount k = 0 <-> failedAt k = None) /\
  (circuitState k = CLOSED -> failCount k < CONFIG.MAX_CONSECUTIVE_FAILURES).

Definition keys_ok (s s' : State) : Prop :=
  Forall key_ok (keys s) -> Forall key_ok (keys s').

Lemma keys_ok_refl s : keys_ok s s.
Proof. intros H. exact H. Qed.

Lemma keys_ok_trans a b c : keys_ok a b -> keys_ok b c -> keys_ok a c.
Proof. unfold keys_ok. auto. Qed.

Lemma keys_ok_time_ms : respects keys_ok time_ms.
Proof. intros s H. exact H. Qed.

Lemma keys_ok_random_uniform a b : respects keys_ok (random_uniform a b).
Proof. intros s H. exact H. Qed.

Lemma keys_ok_emit ev : respects keys_ok (_emit ev).
Proof. intros s H. exact H. Qed.

Lemma keys_ok_save_state : respects keys_ok save_state.
Proof. intros s H. unfold save_state, modify. cbn. destruct (storage s); exact H. Qed.

Lemma keys_ok_deref r : respects keys_ok (deref r).
Proof. intros s H. exact H. Qed.

Lemma keys_ok_find_key name : respects keys_ok (find_key name).
Proof. intros s H. exact H. Qed.

Lemma keys_ok_resolve rs : respects keys_ok (resolve rs).
Proof. intros s H. exact H. Qed.

Lemma keys_ok_all_refs : respects keys_ok all_refs.
Proof. intros s H. exact H. Qed.

Lemma keys_ok_mutate (r : nat) (f : KeyState -> KeyState) :
  (forall k, key_ok k -> key_ok (f k)) -> respects keys_ok (mutate r f).
Proof.
  intros Hf s H. cbn. apply Forall_alter; [exact H|]. intros k _. apply Hf.
Qed.

Lemma key_ok_half_open k : key_ok k -> key_ok (with_circuitState HALF_OPEN k).
Proof. intros (H1 & H2 & H3). repeat split; try apply H2; try exact H1; discriminate. Qed.

Lemma key_ok_lastUsed t k : key_ok k -> key_ok (with_lastUsed t k).
Proof. intros H. exact H. Qed.

Lemma key_ok_success d k : key_ok (record_success d k).
Proof.
  unfold key_ok, record_success, CONFIG.MAX_CONSECUTIVE_FAILURES.
  destruct d; cbn; intuition lia.
Qed.

Lemma key_ok_new k w p : key_ok (new_KeyState k w p).
Proof. unfold key_ok, CONFIG.MAX_CONSECUTIVE_FAILURES. cbn. intuition lia. Qed.

Create HintDb keys_ok_db.
#[local] Hint Resolve keys_ok_time_ms keys_ok_random_uniform keys_ok_emit
  keys_ok_save_state keys_ok_deref keys_ok_find_key keys_ok_resolve keys_ok_all_refs
  : keys_ok_db.

Ltac keys_ok_steps :=
  repeat first
    [ solve [auto with keys_ok_db]
    | apply (respects_ret _ keys_ok_refl)
    | apply (respects_gets _ keys_ok_refl)
    | apply (respects_comprehension _ keys_ok_refl keys_ok_trans); intros
    | apply keys_ok_mutate; intros;
        solve [auto using key_ok_half_open, key_ok_lastUsed, key_ok_success]
    | apply (respects_bind _ keys_ok_trans); [|intros]
    | match goal with
      | |- respects _ (match ?x with _ => _ end) => destruct x
      | |- respects _ (let _ := _ in _) => cbv zeta
      end ].

Lemma keys_ok_is_on_cooldown r : respects keys_ok (_is_on_cooldown r).
Proof. unfold _is_on_cooldown. keys_ok_steps. Qed.

Lemma keys_ok_not_dead r : respects keys_ok (not_dead r).
Proof. unfold not_dead. keys_ok_steps. Qed.

#[local] Hint Resolve keys_ok_is_on_cooldown keys_ok_not_dead : keys_ok_db.

Lemma keys_ok_eligible r : respects keys_ok (eligible r).
Proof. unfold eligible. keys_ok_steps. Qed.

Lemma keys_ok_has_provider p r : respects keys_ok (has_provider p r).
Proof. unfold has_provider. keys_ok_steps. Qed.

Lemma keys_ok_key_of r : respects keys_ok (key_of r).
Proof. unfold key_of. keys_ok_steps. Qed.

Lemma keys_ok_strategy_next cs : respects keys_ok (strategy_next cs).
Proof. unfold strategy_next, weighted_next. keys_ok_steps. Qed.

#[local] Hint Resolve keys_ok_eligible keys_ok_has_provider keys_ok_key_of
  keys_ok_strategy_next : keys_ok_db.

Lemma keys_ok_use_selected sel : respects keys_ok (use_selected sel).
Proof. unfold use_selected. keys_ok_steps. Qed.

#[local] Hint Resolve keys_ok_use_selected : keys_ok_db.

Lemma keys_ok_get_key : respects keys_ok get_key.
Proof. unfold get_key. keys_ok_steps. Qed.

Lemma keys_ok_get_key_by_provider p : respects keys_ok (get_key_by_provider p).
Proof. unfold get_key_by_provider. keys_ok_steps. Qed.

Lemma keys_ok_mark_success name d : respects keys_ok (mark_success name d).
Proof. unfold mark_success. keys_ok_steps. Qed.

Lemma keys_ok_calculate_backoff a : respects keys_ok (calculate_backoff a).
Proof. unfold calculate_backoff. keys_ok_steps. Qed.

(** [mark_failed] passes through states in which the record of the key is
    half written; the invariant is re-established when it returns. *)
Lemma keys_ok_mark_failed name c : respects keys_ok (mark_failed name c).
Proof.
  intros s Hok. unfold mark_failed.
  rewrite (bind_run (find_key name) _ s s (find_from name (keys s) 0) eq_refl).
  destruct (find_from name (keys s) 0) as [r|]; [|exact Hok].
  rewrite (bind_run (deref r) _ s s (keys s !! r) eq_refl).
  destruct (keys s !! r) as [k|] eqn:Hk; [|exact Hok].
  destruct (CircuitState_eqb (circuitState k) DEAD) eqn:Hdead; [exact Hok|].
  destruct (negb (markKeyFailed c)); [exact Hok|].
  assert (Hkok : key_ok k) by (eapply Forall_lookup_1; eauto).
  destruct Hkok as (K1 & K2 & K3).
  cbv [bind time_ms mutate modify open_circuit _emit save_state ret].
  destruct (markKeyDead c);
    [| destruct (CircuitState_eqb (circuitState k) HALF_OPEN);
       [| destruct ((CONFIG.MAX_CONSECUTIVE_FAILURES <=? failCount k + 1)
                    || ErrorType_eqb (type c) QUOTA) eqn:Hopen ] ];
    cbn [fst snd keys storage set_keys set_reads set_events set_storage reads clock events];
    match goal with
    | |- Forall key_ok (keys (match ?st with _ => _ end)) => destruct st
    end;
    cbn [fst snd keys storage set_keys set_reads set_events set_storage reads clock events];
    rewrite ?list_alter_alter_eq;
    (apply Forall_alter; [exact Hok|]);
    intros x Hx _; rewrite Hk in Hx; injection Hx as <-;
    unfold key_ok, compose, CONFIG.MAX_CONSECUTIVE_FAILURES in *; cbn;
    (split; [lia|]); (split; [split; [lia | discriminate]|]);
    try discriminate.
  all: intros Hc; apply orb_false_elim in Hopen as [Hlt _]; apply Z.leb_gt in Hlt; lia.
Qed.

Lemma find_from_lookup (name : string) (ks : list KeyState) :
  forall i r, find_from name ks i = Some r ->
    (i <= r)%nat /\ exists k, ks !! (r - i)%nat = Some k /\ key k = name.
Proof.
  induction ks as [|k ks IH]; intros i r H; cbn [find_from] in H; [discriminate|].
  destruct (String.eqb_spec (key k) name) as [Heq|Hne].
  - injection H as <-. split; [lia|]. exists k. rewrite Nat.sub_diag. auto.
  - destruct (IH _ _ H) as (Hle & k' & Hk' & Hn). split; [lia|].
    exists k'. split; [|exact Hn].
    replace (r - i)%nat with (S (r - S i)) by lia. exact Hk'.
Qed.

Lemma mark_success_keys (name : string) (d : option Z) (s : State) (r : nat) :
  find_from name (keys s) 0 = Some r ->
  keys (snd (mark_success name d s)) = alter (record_success d) r (keys s).
Proof.
  intros Hf. destruct (find_from_lookup _ _ _ _ Hf) as (_ & k & Hk & _).
  rewrite Nat.sub_0_r in Hk. unfold mark_success.
  rewrite (bind_run (find_key name) _ s s (Some r))
    by (unfold find_key, gets; rewrite Hf; reflexivity).
  rewrite (bind_run (deref r) _ s s (Some k))
    by (unfold deref, gets; rewrite Hk; reflexivity).
  cbv [bind mutate modify save_state _emit ret].
  destruct (negb _); cbn [fst snd keys storage set_keys set_events set_storage events];
    destruct (storage s); reflexivity.
Qed.

Lemma reachable_keys_ok (init : State) (l : Loop) :
  Forall key_ok (keys init) -> reachable init l -> Forall key_ok (keys (manager l)).
Proof.
  intros Hinit Hreach.
  destruct (reachable_respects keys_ok keys_ok_refl keys_ok_trans keys_ok_get_key
              keys_ok_get_key_by_provider keys_ok_mark_success keys_ok_mark_failed
              keys_ok_time_ms keys_ok_emit keys_ok_calculate_backoff
              (fun n s H => H) init l Hreach) as [H _].
  exact (H Hinit).
Qed.

Lemma constructed_keys_ok initial_keys with_storage strat with_fallback concurrency clk rnd :
  Forall key_ok (keys (ApiKeyManager initial_keys with_storage strat with_fallback
                         concurrency clk rnd)).
Proof.
  cbn [ApiKeyManager keys]. apply Forall_forall. intros k Hin.
  apply list_elem_of_In, in_map_iff in Hin as (kv & <- & _). apply key_ok_new.
Qed.

(** C5 (amended). In every state the event loop can reach from a newly
    constructed manager, every key has a failure count that is not negative
    and is zero exactly when [failedAt] is absent, and a CLOSED key has fewer
    than [MAX_CONSECUTIVE_FAILURES] failures; right after [mark_success] the
    key is CLOSED with [failCount = 0] and [failedAt] absent. *)
Theorem closed_circuit_invariant
    (initial_keys : list KeySpec) (with_storage : bool) (strat : Strategy)
    (with_fallback : bool) (concurrency : option Z) (clk : nat -> Z) (rnd : nat -> Q)
    (l : Loop) :
  reachable (ApiKeyManager initial_keys with_storage strat with_fallback concurrency
               clk rnd) l ->
  (forall r k, keys (manager l) !! r = Some k ->
     0 <= failCount k /\
     (failCount k = 0 <-> failedAt k = None) /\
     (circuitState k = CLOSED -> failCount k < CONFIG.MAX_CONSECUTIVE_FAILURES)) /\
  (forall name d r,
     find_from name (keys (manager l)) 0 = Some r ->
     exists k, keys (snd (mark_success name d (manager l))) !! r = Some k /\
               key k = name /\
               circuitState k = CLOSED /\ failCount k = 0 /\ failedAt k = None).
Proof.
  intros Hreach. split.
  - intros r k Hk.
    pose proof (reachable_keys_ok _ l (constructed_keys_ok _ _ _ _ _ _ _) Hreach) as Hok.
    exact (Forall_lookup_1 _ _ _ _ Hok Hk).
  - intros name d r Hf. rewrite (mark_success_keys name d (manager l) r Hf).
    destruct (find_from_lookup _ _ _ _ Hf) as (_ & k & Hk & Hn).
    rewrite Nat.sub_0_r in Hk. exists (record_success d k).
    rewrite list_lookup_alter_eq, Hk. split; [reflexivity|].
    unfold record_success. destruct d; cbn; auto.
Qed.

(** The loop after one [execute] on a single key whose [fn] raised [e]. *)
Definition after_one_failure (e : PyError) : Loop :=
  let t := fst (execute default_options Tests.single) in
  let s := snd (execute default_options Tests.single) in
  mkLoop (snd (resume_of t (Raise e) s)) (<[0%nat := fst (resume_of t (Raise e) s)]> [t]).

Lemma after_one_failure_reachable (e : PyError) :
  reachable Tests.single (after_one_failure e).
Proof.
  eapply reach_step.
  - eapply reach_step; [apply reach_init | apply (step_execute default_options)].
  - unfold after_one_failure.
    apply (step_resume 0 (CallFn "key-1" None)
             (resume_of (fst (execute default_options Tests.single))) (Raise e)).
    reflexivity.
Qed.

(** The record of the key after that failure. *)
Definition failed_once : KeyState :=
  mkKeyState "key-1" 1 (Some 1700000000003) false CLOSED 1700000000001 0 1 None
             (Some 60000) 1 0 0 0 "default".

Lemma closed_circuit_invariant_witness :
  0 <= failCount failed_once /\
  (failCount failed_once = 0 <-> failedAt failed_once = None) /\
  (circuitState failed_once = CLOSED ->
   failCount failed_once < CONFIG.MAX_CONSECUTIVE_FAILURES).
Proof.
  apply (proj1 (closed_circuit_invariant [mkKeySpec "key-1" 1 "default"] true
                  StandardStrategy false None Tests.test_clock Tests.test_rng
                  (after_one_failure (MockError 500))
                  (after_one_failure_reachable (MockError 500)))
               0%nat failed_once).
  vm_compute. reflexivity.
Defined.

(** C5, as stated, fails: one transient failure (a 500) leaves the key CLOSED
    with [failCount = 1] and [failedAt] set; the circuit opens only at the
    fifth consecutive failure or on a quota error. *)
Lemma closed_key_keeps_failure_count :
  reachable Tests.single (after_one_failure (MockError 500)) /\
  exists k, keys (manager (after_one_failure (MockError 500))) = [k] /\
            circuitState k = CLOSED /\ failCount k = 1 /\
            failedAt k = Some 1700000000003.
Proof.
  split; [apply after_one_failure_reachable|].
  eexists. split; [vm_compute; reflexivity|]. repeat split.
Qed.

(** ** DEAD keys *)

(** Every DEAD key of [s] is still DEAD in [s']. *)
Definition stays_dead (s s' : State) : Prop :=
  forall r k, keys s !! r = Some k -> circuitState k = DEAD ->
    exists k', keys s' !! r = Some k' /\ circuitState k' = DEAD.

Lemma stays_dead_refl s : stays_dead s s.
Proof. intros r k Hk Hd. eauto. Qed.

Lemma stays_dead_trans a b c : stays_dead a b -> stays_dead b c -> stays_dead a c.
Proof.
  intros Hab Hbc r k Hk Hd. destruct (Hab r k Hk Hd) as (k' & Hk' & Hd'). eauto.
Qed.

Lemma stays_dead_same_keys (s s' : State) : keys s' = keys s -> stays_dead s s'.
Proof. intros E r k Hk Hd. rewrite E. eauto. Qed.

(** Altering the object at [i] with a function that keeps the DEAD state,
    or whose target is not DEAD. *)
Lemma stays_dead_alter (s s' : State) (i : nat) (f : KeyState -> KeyState) :
  keys s' = alter f i (keys s) ->
  (forall k, keys s !! i = Some k -> circuitState k = DEAD -> circuitState (f k) = DEAD) ->
  stays_dead s s'.
Proof.
  intros E Hf r k Hk Hd. rewrite E.
  destruct (decide (i = r)) as [->|Hne].
  - exists (f k). rewrite list_lookup_alter_eq, Hk. split; [reflexivity | auto].
  - exists k. rewrite list_lookup_alter_ne by exact Hne. auto.
Qed.

Lemma stays_dead_time_ms : respects stays_dead time_ms.
Proof. intros s. apply stays_dead_same_keys. reflexivity. Qed.

Lemma stays_dead_random_uniform a b : respects stays_dead (random_uniform a b).
Proof. intros s. apply stays_dead_same_keys. reflexivity. Qed.

Lemma stays_dead_emit ev : respects stays_dead (_emit ev).
Proof. intros s. apply stays_dead_same_keys. reflexivity. Qed.

Lemma stays_dead_save_state : respects stays_dead save_state.
Proof.
  intros s. apply stays_dead_same_keys. unfold save_state, modify. cbn.
  destruct (storage s); reflexivity.
Qed.

Lemma stays_dead_deref r : respects stays_dead (deref r).
Proof. intros s. apply stays_dead_refl. Qed.

Lemma stays_dead_resolve rs : respects stays_dead (resolve rs).
Proof. intros s. apply stays_dead_refl. Qed.

Lemma stays_dead_all_refs : respects stays_dead all_refs.
Proof. intros s. apply stays_dead_refl. Qed.

Lemma stays_dead_lastUsed r t : respects stays_dead (mutate r (with_lastUsed t)).
Proof. intros s. apply (stays_dead_alter s _ r (with_lastUsed t)); [reflexivity | auto]. Qed.

Lemma stays_dead_is_on_cooldown r : respects stays_dead (_is_on_cooldown r).
Proof.
  intros s. destruct (keys s !! r) as [k|] eqn:Hk.
  - rewrite (is_on_cooldown_run r s k Hk).
    destruct (circuitState k) eqn:Hc; try (apply stays_dead_same_keys; reflexivity).
    destruct (half_open_due _ _); [|apply stays_dead_same_keys; reflexivity].
    apply (stays_dead_alter s _ r (with_circuitState HALF_OPEN)); [reflexivity|].
    intros k' Hk' Hd. congruence.
  - cbv [_is_on_cooldown deref gets bind ret]. rewrite Hk. apply stays_dead_refl.
Qed.

Create HintDb stays_dead_db.
#[local] Hint Resolve stays_dead_time_ms stays_dead_random_uniform stays_dead_emit
  stays_dead_save_state stays_dead_deref stays_dead_resolve stays_dead_all_refs
  stays_dead_lastUsed stays_dead_is_on_cooldown : stays_dead_db.

Ltac stays_dead_steps :=
  repeat first
    [ solve [auto with stays_dead_db]
    | apply (respects_ret _ stays_dead_refl)
    | apply (respects_gets _ stays_dead_refl)
    | apply (respects_comprehension _ stays_dead_refl stays_dead_trans); intros
    | apply (respects_bind _ stays_dead_trans); [|intros]
    | match goal with
      | |- respects _ (match ?x with _ => _ end) => destruct x
      | |- respects _ (let _ := _ in _) => cbv zeta
      end ].

Lemma stays_dead_get_key : respects stays_dead get_key.
Proof.
  unfold get_key, eligible, not_dead, key_of, strategy_next, weighted_next, use_selected.
  stays_dead_steps.
Qed.

Lemma stays_dead_get_key_by_provider p : respects stays_dead (get_key_by_provider p).
Proof.
  unfold get_key_by_provider, has_provider, eligible, not_dead, key_of, strategy_next,
    weighted_next, use_selected.
  stays_dead_steps.
Qed.

Lemma stays_dead_mark_failed name c : respects stays_dead (mark_failed name c).
Proof.
  intros s. unfold mark_failed.
  rewrite (bind_run (find_key name) _ s s (find_from name (keys s) 0) eq_refl).
  destruct (find_from name (keys s) 0) as [r|]; [|apply stays_dead_refl].
  rewrite (bind_run (deref r) _ s s (keys s !! r) eq_refl).
  destruct (keys s !! r) as [k|] eqn:Hk; [|apply stays_dead_refl].
  destruct (CircuitState_eqb (circuitState k) DEAD) eqn:Hdead; [apply stays_dead_refl|].
  destruct (negb (markKeyFailed c)); [apply stays_dead_refl|].
  assert (Hnd : circuitState k <> DEAD) by (intros E; rewrite E in Hdead; discriminate).
  cbv [bind time_ms mutate modify open_circuit _emit save_state ret].
  destruct (markKeyDead c);
    [| destruct (CircuitState_eqb (circuitState k) HALF_OPEN);
       [| destruct ((CONFIG.MAX_CONSECUTIVE_FAILURES <=? failCount k + 1)
                    || ErrorType_eqb (type c) QUOTA) ] ];
    cbn [fst snd keys storage set_keys set_reads set_events set_storage reads clock events];
    match goal with
    | |- stays_dead _ (match ?st with _ => _ end) => destruct st
    end;
    (eapply stays_dead_alter;
     [ cbn [keys storage set_keys set_reads set_events set_storage reads clock events];
       rewrite ?list_alter_alter_eq; reflexivity
     | intros k' Hk' Hd; rewrite Hk in Hk'; injection Hk' as <-; contradiction ]).
Qed.

(** Selection and [mark_failed] never take a key out of DEAD. *)
Lemma dead_kept_by_selection_and_failure (c : Call) (s : State) :
  match c with
  | call_mark_success _ _ => True
  | _ => stays_dead s (snd (do_call c s))
  end.
Proof.
  destruct c as [|p|name d|name cl]; cbn [do_call]; [| |exact I|].
  - apply (respects_bind _ stays_dead_trans); [apply stays_dead_get_key|].
    intros. apply (respects_ret _ stays_dead_refl).
  - apply (respects_bind _ stays_dead_trans); [apply stays_dead_get_key_by_provider|].
    intros. apply (respects_ret _ stays_dead_refl).
  - apply stays_dead_mark_failed.
Qed.

(** Two calls of [execute] in flight on the single key of the fixture. *)
Definition two_in_flight : Loop :=
  let e1 := execute default_options Tests.single in
  let e2 := execute default_options (snd e1) in
  mkLoop (snd e2) (([] ++ [fst e1]) ++ [fst e2]).

Definition resume_task (i : nat) (o : Outcome) (l : Loop) : Loop :=
  match tasks l !! i with
  | Some t => mkLoop (snd (resume_of t o (manager l)))
                     (<[i := fst (resume_of t o (manager l))]> (tasks l))
  | None => l
  end.

(** The first answers with a 403, then the second returns. *)
Definition first_denied : Loop := resume_task 0 (Raise (MockError 403)) two_in_flight.
Definition then_second_succeeds : Loop :=
  resume_task 1 (Return (PyStr "ok")) first_denied.

Lemma resume_task_step (i : nat) (o : Outcome) (l : Loop) (t : Task) :
  tasks l !! i = Some t -> is_done t = false -> loop_step l (resume_task i o l).
Proof.
  intros Hi Hd. destruct l as [s ts]. unfold resume_task. cbn [tasks manager] in *.
  rewrite Hi. destruct t as [o'|req resume]; [discriminate|].
  cbn [resume_of]. apply (step_resume i req resume o s ts Hi).
Qed.

Lemma first_denied_step : loop_step two_in_flight first_denied.
Proof.
  unfold first_denied.
  apply (resume_task_step 0 (Raise (MockError 403)) two_in_flight
           (fst (execute default_options Tests.single))).
  - reflexivity.
  - vm_compute. reflexivity.
Qed.

Lemma then_second_succeeds_step : loop_step first_denied then_second_succeeds.
Proof.
  unfold then_second_succeeds.
  apply (resume_task_step 1 (Return (PyStr "ok")) first_denied
           (fst (execute default_options (snd (execute default_options Tests.single))))).
  - reflexivity.
  - vm_compute. reflexivity.
Qed.

Lemma then_second_succeeds_reachable :
  reachable Tests.single first_denied /\ reachable Tests.single then_second_succeeds.
Proof.
  assert (H2 : reachable Tests.single two_in_flight).
  { eapply reach_step; [eapply reach_step; [apply reach_init|]|];
      apply (step_execute default_options). }
  assert (H3 : reachable Tests.single first_denied).
  { eapply reach_step; [exact H2 | exact first_denied_step]. }
  split; [exact H3|].
  eapply reach_step; [exact H3 | exact then_second_succeeds_step].
Qed.

(** The single key of the fixture after a 403 was reported on it. *)
Definition killed : State :=
  snd (mark_failed "key-1" (classify_error (MockError 403) None) Tests.single).

(** C3 (the code departs from it). A DEAD key is brought back to CLOSED by
    [mark_success], called directly or by an [execute] whose [fn] returns
    after another call has killed the key. *)
Theorem mark_success_revives_dead_key :
  map circuitState (keys killed) = [DEAD] /\
  map circuitState (keys (snd (mark_success "key-1" (Some 10) killed))) = [CLOSED] /\
  map circuitState (keys (manager first_denied)) = [DEAD] /\
  map circuitState (keys (manager then_second_succeeds)) = [CLOSED].
Proof. vm_compute. repeat split; reflexivity. Qed.

(** ** [lastUsed] *)

(** A key picked by the strategy is stamped with the clock reading of the
    moment, in the registry, before its name is returned. *)
Lemma use_selected_sets_lastUsed (r : nat) (s : State) (k : KeyState) :
  keys s !! r = Some k ->
  fst (use_selected (Some r) s) = Some (key k) /\
  keys (snd (use_selected (Some r) s)) !! r =
    Some (with_lastUsed (clock s (reads s)) k).
Proof.
  intros Hk. cbv [use_selected bind time_ms mutate modify save_state key_of deref gets ret].
  cbn [fst snd keys storage set_keys set_reads set_storage reads clock].
  destruct (storage s);
    cbn [fst snd keys storage set_keys set_reads set_storage reads clock];
    rewrite list_lookup_alter_eq, Hk; split; reflexivity.
Qed.

(** The manager after one call that failed with a 500. *)
Definition cooling : State := manager (after_one_failure (MockError 500)).

(** C8 (the code departs from it). The key is on cooldown after a failed
    call, so [get_key] returns it as the last resort: its [lastUsed] still
    holds the time of the earlier selection, not the time of this call, and
    nothing is written to the storage. *)
Theorem last_resort_key_keeps_lastUsed :
  fst (get_key cooling) = Some "key-1"%string /\
  clock cooling (reads cooling) = 1700000000004 /\
  map lastUsed (keys cooling) = [1700000000001] /\
  map lastUsed (keys (snd (get_key cooling))) = [1700000000001] /\
  storage (snd (get_key cooling)) = storage cooling.
Proof. vm_compute. repeat split; reflexivity. Qed.

(** * Further properties *)

(** ** What one call of [mark_failed] writes *)

(** The record [mark_failed] leaves for a key that was not DEAD, when the
    classification counts against the key; [t1] is the clock reading stored in
    [failedAt] and [t2] the one used for the probe time. *)
Definition failure_record (t1 t2 : Z) (c : ErrorClassification) (k : KeyState) : KeyState :=
  let k1 := record_failure t1 c k in
  if markKeyDead c then with_circuitState DEAD k1
  else if CircuitState_eqb (circuitState k) HALF_OPEN then
    with_halfOpenTestTime (t2 + CONFIG.HALF_OPEN_TEST_DELAY) (with_circuitState OPEN k1)
  else if (CONFIG.MAX_CONSECUTIVE_FAILURES <=? failCount k + 1)
          || ErrorType_eqb (type c) QUOTA then
    with_halfOpenTestTime (t2 + or_default (Some (cooldownMs c)) CONFIG.HALF_OPEN_TEST_DELAY)
                          (with_circuitState OPEN k1)
  else k1.

Lemma alter_as_insert {A} (f : A -> A) (l : list A) (r : nat) (x : A) :
  l !! r = Some x -> alter f r l = <[r := f x]> l.
Proof.
  revert r. induction l as [|y l IH]; intros [|r] H; try discriminate.
  - cbn in H. injection H as ->. reflexivity.
  - cbn in H. cbn. f_equal. apply IH. exact H.
Qed.

Lemma mark_failed_keys (name : string) (c : ErrorClassification) (s : State)
    (r : nat) (k : KeyState) :
  find_from name (keys s) 0 = Some r ->
  keys s !! r = Some k ->
  circuitState k <> DEAD ->
  markKeyFailed c = true ->
  keys (snd (mark_failed name c s)) =
    <[r := failure_record (clock s (reads s)) (clock s (S (reads s))) c k]> (keys s).
Proof.
  intros Hf Hk Hnd Hm. unfold mark_failed.
  rewrite (bind_run (find_key name) _ s s (Some r))
    by (unfold find_key, gets; rewrite Hf; reflexivity).
  rewrite (bind_run (deref r) _ s s (Some k))
    by (unfold deref, gets; rewrite Hk; reflexivity).
  assert (Hd : CircuitState_eqb (circuitState k) DEAD = false)
    by (destruct (circuitState k); try reflexivity; contradiction).
  rewrite Hd, Hm. cbn [negb]. unfold failure_record.
  cbv [bind time_ms mutate modify open_circuit _emit save_state ret].
  destruct (markKeyDead c);
    [| destruct (CircuitState_eqb (circuitState k) HALF_OPEN);
       [| destruct ((CONFIG.MAX_CONSECUTIVE_FAILURES <=? failCount k + 1)
                    || ErrorType_eqb (type c) QUOTA) ] ];
    cbn [fst snd keys storage set_keys set_reads set_events set_storage reads clock events];
    match goal with
    | |- keys (match ?st with _ => _ end) = _ => destruct st
    end;
    cbn [fst snd keys storage set_keys set_reads set_events set_storage reads clock events];
    rewrite ?list_alter_alter_eq; rewrite (alter_as_insert _ _ _ _ Hk);
    unfold compose, or_default; try reflexivity;
    destruct (cooldownMs c =? 0); reflexivity.
Qed.

Lemma mark_failed_ignored (name : string) (c : ErrorClassification) (s : State) :
  (match find_from name (keys s) 0 with
   | Some r => match keys s !! r with
               | Some k => circuitState k = DEAD \/ markKeyFailed c = false
               | None => True
               end
   | None => True
   end) ->
  mark_failed name c s = (tt, s).
Proof.
  intros H. unfold mark_failed.
  rewrite (bind_run (find_key name) _ s s (find_from name (keys s) 0) eq_refl).
  destruct (find_from name (keys s) 0) as [r|]; [|reflexivity].
  rewrite (bind_run (deref r) _ s s (keys s !! r) eq_refl).
  destruct (keys s !! r) as [k|]; [|reflexivity].
  destruct H as [Hd | Hm].
  - rewrite Hd. reflexivity.
  - rewrite Hm. destruct (CircuitState_eqb _ _); reflexivity.
Qed.

(** ** How a key record changes

    The four ways in which the manager rewrites the record of one key. *)
Inductive key_step : KeyState -> KeyState -> Prop :=
  | step_used t k :
      key_step k (with_lastUsed t k)
  | step_half_open k :
      circuitState k = OPEN -> key_step k (with_circuitState HALF_OPEN k)
  | step_success d k :
      key_step k (record_success d k)
  | step_failure t1 t2 c k :
      circuitState k <> DEAD -> markKeyFailed c = true ->
      key_step k (failure_record t1 t2 c k).

(** The registry [l'] comes from [l] by rewriting one record at a time. *)
Inductive evolves : list KeyState -> list KeyState -> Prop :=
  | evolves_refl l : evolves l l
  | evolves_step l r k k' l' :
      l !! r = Some k -> key_step k k' -> evolves (<[r := k']> l) l' -> evolves l l'.

Lemma evolves_trans (a b c : list KeyState) : evolves a b -> evolves b c -> evolves a c.
Proof.
  induction 1 as [|l r k k' l' Hk Hs _ IH]; [auto|].
  intros Hc. eapply evolves_step; eauto.
Qed.

Lemma evolves_one (l : list KeyState) (r : nat) (k k' : KeyState) :
  l !! r = Some k -> key_step k k' -> evolves l (<[r := k']> l).
Proof. intros Hk Hs. eapply evolves_step; eauto. apply evolves_refl. Qed.

Lemma evolves_alter (l : list KeyState) (r : nat) (f : KeyState -> KeyState) :
  (forall k, l !! r = Some k -> key_step k (f k)) -> evolves l (alter f r l).
Proof.
  intros Hf. destruct (l !! r) as [k|] eqn:Hk.
  - rewrite (alter_as_insert f l r k Hk). apply (evolves_one l r k (f k) Hk). auto.
  - rewrite (list_alter_ext f id l l r); [|intros x Hx; congruence | reflexivity].
    rewrite list_alter_id; [apply evolves_refl | reflexivity].
Qed.

Lemma evolves_Forall (P : KeyState -> Prop) (l l' : list KeyState) :
  (forall k k', key_step k k' -> P k -> P k') ->
  evolves l l' -> Forall P l -> Forall P l'.
Proof.
  intros HP. induction 1 as [|l r k k' l' Hk Hs _ IH]; [auto|].
  intros Hl. apply IH. apply Forall_insert; [exact Hl|].
  apply (HP k k' Hs). exact (Forall_lookup_1 _ _ _ _ Hl Hk).
Qed.

Lemma evolves_map {B} (g : KeyState -> B) (l l' : list KeyState) :
  (forall k k', key_step k k' -> g k' = g k) ->
  evolves l l' -> map g l' = map g l.
Proof.
  intros Hg. induction 1 as [|l r k k' l' Hk Hs _ IH]; [reflexivity|].
  rewrite IH. change (map g) with (fmap (M:=list) g).
  rewrite list_fmap_insert. rewrite (Hg k k' Hs).
  apply list_insert_id. rewrite list_lookup_fmap, Hk. reflexivity.
Qed.

Definition registry_evolves (s s' : State) : Prop := evolves (keys s) (keys s').

Lemma registry_evolves_refl s : registry_evolves s s.
Proof. apply evolves_refl. Qed.

Lemma registry_evolves_trans a b c :
  registry_evolves a b -> registry_evolves b c -> registry_evolves a c.
Proof. apply evolves_trans. Qed.

Lemma registry_evolves_same (s s' : State) : keys s' = keys s -> registry_evolves s s'.
Proof. unfold registry_evolves. intros ->. apply evolves_refl. Qed.

Lemma registry_time_ms : respects registry_evolves time_ms.
Proof. intros s. apply registry_evolves_same. reflexivity. Qed.

Lemma registry_random_uniform a b : respects registry_evolves (random_uniform a b).
Proof. intros s. apply registry_evolves_same. reflexivity. Qed.

Lemma registry_emit ev : respects registry_evolves (_emit ev).
Proof. intros s. apply registry_evolves_same. reflexivity. Qed.

Lemma registry_save_state : respects registry_evolves save_state.
Proof.
  intros s. apply registry_evolves_same. unfold save_state, modify. cbn.
  destruct (storage s); reflexivity.
Qed.

Lemma registry_deref r : respects registry_evolves (deref r).
Proof. intros s. apply registry_evolves_refl. Qed.

Lemma registry_resolve rs : respects registry_evolves (resolve rs).
Proof. intros s. apply registry_evolves_refl. Qed.

Lemma registry_all_refs : respects registry_evolves all_refs.
Proof. intros s. apply registry_evolves_refl. Qed.

Lemma registry_find_key name : respects registry_evolves (find_key name).
Proof. intros s. apply registry_evolves_refl. Qed.

Lemma registry_lastUsed r t : respects registry_evolves (mutate r (with_lastUsed t)).
Proof. intros s. apply evolves_alter. intros k _. constructor. Qed.

Lemma registry_record_success r d : respects registry_evolves (mutate r (record_success d)).
Proof. intros s. apply evolves_alter. intros k _. constructor. Qed.

Lemma registry_is_on_cooldown r : respects registry_evolves (_is_on_cooldown r).
Proof.
  intros s. destruct (keys s !! r) as [k|] eqn:Hk.
  - rewrite (is_on_cooldown_run r s k Hk).
    destruct (circuitState k) eqn:Hc; try (apply registry_evolves_same; reflexivity).
    destruct (half_open_due _ _); [|apply registry_evolves_same; reflexivity].
    apply evolves_alter. intros k' Hk'. constructor. congruence.
  - cbv [_is_on_cooldown deref gets bind ret]. rewrite Hk. apply registry_evolves_refl.
Qed.

Lemma registry_mark_failed name c : respects registry_evolves (mark_failed name c).
Proof.
  intros s. destruct (find_from name (keys s) 0) as [r|] eqn:Hf.
  2: { rewrite mark_failed_ignored; [apply registry_evolves_refl | rewrite Hf; exact I]. }
  destruct (find_from_lookup _ _ _ _ Hf) as (_ & k & Hk & _).
  rewrite Nat.sub_0_r in Hk.
  destruct (CircuitState_eqb (circuitState k) DEAD) eqn:Hd.
  { rewrite mark_failed_ignored; [apply registry_evolves_refl|].
    rewrite Hf, Hk. left. destruct (circuitState k); try discriminate. reflexivity. }
  destruct (markKeyFailed c) eqn:Hm.
  2: { rewrite mark_failed_ignored; [apply registry_evolves_refl|].
       rewrite Hf, Hk. right. exact Hm. }
  assert (Hnd : circuitState k <> DEAD) by (intros E; rewrite E in Hd; discriminate).
  unfold registry_evolves. rewrite (mark_failed_keys name c s r k Hf Hk Hnd Hm).
  apply (evolves_one _ r k _ Hk). constructor; assumption.
Qed.

Create HintDb registry_db.
#[local] Hint Resolve registry_time_ms registry_random_uniform registry_emit
  registry_save_state registry_deref registry_resolve registry_all_refs
  registry_find_key registry_lastUsed registry_record_success registry_is_on_cooldown
  registry_mark_failed : registry_db.

Ltac registry_steps :=
  repeat first
    [ solve [auto with registry_db]
    | apply (respects_ret _ registry_evolves_refl)
    | apply (respects_gets _ registry_evolves_refl)
    | apply (respects_comprehension _ registry_evolves_refl registry_evolves_trans); intros
    | apply (respects_bind _ registry_evolves_trans); [|intros]
    | match goal with
      | |- respects _ (match ?x with _ => _ end) => destruct x
      | |- respects _ (let _ := _ in _) => cbv zeta
      end ].

Lemma registry_get_key : respects registry_evolves get_key.
Proof.
  unfold get_key, eligible, not_dead, key_of, strategy_next, weighted_next, use_selected.
  registry_steps.
Qed.

Lemma registry_get_key_by_provider p : respects registry_evolves (get_key_by_provider p).
Proof.
  unfold get_key_by_provider, has_provider, eligible, not_dead, key_of, strategy_next,
    weighted_next, use_selected.
  registry_steps.
Qed.

Lemma registry_mark_success name d : respects registry_evolves (mark_success name d).
Proof. unfold mark_success. registry_steps. Qed.

Lemma registry_calculate_backoff a : respects registry_evolves (calculate_backoff a).
Proof. unfold calculate_backoff. registry_steps. Qed.

(** Whatever the event loop does, the registry changes by these rewritings
    only. *)
Lemma reachable_evolves (init : State) (l : Loop) :
  reachable init l -> evolves (keys init) (keys (manager l)).
Proof.
  intros Hreach.
  exact (proj1 (reachable_respects registry_evolves registry_evolves_refl
                  registry_evolves_trans registry_get_key registry_get_key_by_provider
                  registry_mark_success registry_mark_failed registry_time_ms
                  registry_emit registry_calculate_backoff
                  (fun n s => registry_evolves_refl s) init l Hreach)).
Qed.

(** ** The registry is fixed *)

(** What identifies a key: its name, weight and provider tag. *)
Definition identity (k : KeyState) : string * Q * string := (key k, weight k, provider k).

Lemma key_step_identity (a b : KeyState) : key_step a b -> identity b = identity a.
Proof.
  destruct 1 as [t k | k _ | d k | t1 t2 c k _ _]; try reflexivity.
  all: unfold failure_record, record_success;
    repeat match goal with
           | |- context [if ?b then _ else _] => destruct b
           | |- context [match ?d with Some _ => _ | None => _ end] => destruct d
           end; reflexivity.
Qed.

(** X1. Keys are created at construction and never added, removed, renamed,
    re-weighted or moved to another provider: in every state the event loop
    can reach, the registry lists the same names, weights and providers, in
    the same order, as the initial one. *)
Theorem registry_is_fixed (init : State) (l : Loop) :
  reachable init l ->
  map identity (keys (manager l)) = map identity (keys init).
Proof.
  intros Hreach. apply evolves_map.
  - apply key_step_identity.
  - apply reachable_evolves. exact Hreach.
Qed.

Lemma registry_is_fixed_witness :
  map identity (keys (manager then_second_succeeds)) = map identity (keys Tests.single).
Proof.
  apply (registry_is_fixed Tests.single then_second_succeeds).
  apply then_second_succeeds_reachable.
Defined.

(** ** Counters *)

Definition counters_ok (k : KeyState) : Prop :=
  0 <= failCount k /\ 0 <= successCount k /\
  0 <= latencySamples k <= successCount k /\
  successCount k + failCount k <= totalRequests k /\
  (0 < latencySamples k ->
   averageLatency k = (totalLatency k / inject_Z (latencySamples k))%Q).

Lemma key_step_counters (a b : KeyState) : key_step a b -> counters_ok a -> counters_ok b.
Proof.
  unfold counters_ok.
  destruct 1 as [t k | k _ | d k | t1 t2 c k _ _]; intros (H1 & H2 & H3 & H4 & H5);
    try (repeat split; solve [assumption | lia | apply H5; assumption]).
  all: unfold failure_record, record_success;
    repeat match goal with
           | |- context [if ?b then _ else _] => destruct b
           | |- context [match ?d with Some _ => _ | None => _ end] => destruct d
           end; cbn; repeat split; try lia; try exact H5.
Qed.

(** X2. On a newly constructed manager and whatever is done with it, for
    every key: the counters are not negative, successes plus the current run
    of failures never exceed [totalRequests], there are at most as many
    latency samples as successes, and [averageLatency] is
    [totalLatency / latencySamples] as soon as there is a sample. *)
Theorem counters_invariant
    (initial_keys : list KeySpec) (with_storage : bool) (strat : Strategy)
    (with_fallback : bool) (concurrency : option Z) (clk : nat -> Z) (rnd : nat -> Q)
    (l : Loop) (r : nat) (k : KeyState) :
  reachable (ApiKeyManager initial_keys with_storage strat with_fallback concurrency
               clk rnd) l ->
  keys (manager l) !! r = Some k ->
  0 <= failCount k /\ 0 <= successCount k /\
  0 <= latencySamples k <= successCount k /\
  successCount k + failCount k <= totalRequests k /\
  (0 < latencySamples k ->
   averageLatency k = (totalLatency k / inject_Z (latencySamples k))%Q).
Proof.
  intros Hreach Hk.
  assert (Hall : Forall counters_ok (keys (manager l))).
  { apply (evolves_Forall counters_ok _ _ key_step_counters (reachable_evolves _ _ Hreach)).
    cbn [ApiKeyManager keys]. apply Forall_forall. intros k0 Hin.
    apply list_elem_of_In, in_map_iff in Hin as (kv & <- & _).
    unfold counters_ok. cbn. repeat split; lia. }
  exact (Forall_lookup_1 _ _ _ _ Hall Hk).
Qed.


(** The record of the single key after a call that failed with a 403 and a
    concurrent one that succeeded. *)
Definition revived : KeyState :=
  mkKeyState "key-1" 0 None false CLOSED 1700000000004 1 2 None None 1 2 2 1 "default".

Lemma counters_invariant_witness :
  0 <= failCount revived /\ 0 <= successCount revived /\
  0 <= latencySamples revived <= successCount revived /\
  successCount revived + failCount revived <= totalRequests revived /\
  (0 < latencySamples revived ->
   averageLatency revived = (totalLatency revived / inject_Z (latencySamples revived))%Q).
Proof.
  apply (counters_invariant [mkKeySpec "key-1" 1 "default"] true StandardStrategy false
           None Tests.test_clock Tests.test_rng then_second_succeeds 0 revived).
  - apply then_second_succeeds_reachable.
  - vm_compute. reflexivity.
Defined.

(** ** Circuit records *)

Definition circuit_ok (k : KeyState) : Prop :=
  0 <= failCount k /\
  (circuitState k <> CLOSED -> failedAt k <> None /\ 1 <= failCount k) /\
  (circuitState k = OPEN \/ circuitState k = HALF_OPEN -> halfOpenTestTime k <> None).

Lemma key_step_circuit (a b : KeyState) : key_step a b -> circuit_ok a -> circuit_ok b.
Proof.
  unfold circuit_ok.
  destruct 1 as [t k | k Ho | d k | t1 t2 c k Hnd _]; intros (H1 & H2 & H3).
  - repeat split; try assumption; try apply H2; auto.
  - cbn. repeat split; try assumption; try (apply H2; congruence). intros _. auto.
  - unfold record_success. destruct d; cbn; repeat split; try lia;
      try congruence; intros [?|?]; discriminate.
  - unfold failure_record.
    destruct (markKeyDead c); [|destruct (CircuitState_eqb _ _); [|destruct (_ || _)]];
      cbn; repeat split; try lia; try discriminate;
      try (intros [?|?]; discriminate); auto.
Qed.

(** X3. On a newly constructed manager and whatever is done with it, a key
    whose circuit is not CLOSED has a recorded failure time and at least one
    failure counted, and a key that is OPEN or HALF_OPEN has its probe time
    [halfOpenTestTime] set. *)
Theorem circuit_record_invariant
    (initial_keys : list KeySpec) (with_storage : bool) (strat : Strategy)
    (with_fallback : bool) (concurrency : option Z) (clk : nat -> Z) (rnd : nat -> Q)
    (l : Loop) (r : nat) (k : KeyState) :
  reachable (ApiKeyManager initial_keys with_storage strat with_fallback concurrency
               clk rnd) l ->
  keys (manager l) !! r = Some k ->
  (circuitState k <> CLOSED -> failedAt k <> None /\ 1 <= failCount k) /\
  (circuitState k = OPEN \/ circuitState k = HALF_OPEN -> halfOpenTestTime k <> None).
Proof.
  intros Hreach Hk.
  assert (Hall : Forall circuit_ok (keys (manager l))).
  { apply (evolves_Forall circuit_ok _ _ key_step_circuit (reachable_evolves _ _ Hreach)).
    cbn [ApiKeyManager keys]. apply Forall_forall. intros k0 Hin.
    apply list_elem_of_In, in_map_iff in Hin as (kv & <- & _).
    unfold circuit_ok. cbn. repeat split; try lia; try congruence;
      intros [?|?]; discriminate. }
  destruct (Forall_lookup_1 _ _ _ _ Hall Hk) as (_ & H2 & H3). split; assumption.
Qed.

(** The record of the single key after a call that failed with a 429. *)
Definition quota_hit : KeyState :=
  mkKeyState "key-1" 1 (Some 1700000000003) true OPEN 1700000000001 0 1
             (Some 1700000300004) (Some 300000) 1 0 0 0 "default".

Lemma after_quota_reachable : reachable Tests.single (after_one_failure (MockError 429)).
Proof. apply after_one_failure_reachable. Qed.

Lemma circuit_record_invariant_witness :
  (circuitState quota_hit <> CLOSED -> failedAt quota_hit <> None /\ 1 <= failCount quota_hit) /\
  (circuitState quota_hit = OPEN \/ circuitState quota_hit = HALF_OPEN ->
   halfOpenTestTime quota_hit <> None).
Proof.
  apply (circuit_record_invariant [mkKeySpec "key-1" 1 "default"] true StandardStrategy
           false None Tests.test_clock Tests.test_rng
           (after_one_failure (MockError 429)) 0 quota_hit).
  - apply after_quota_reachable.
  - vm_compute. reflexivity.
Defined.

(** ** Reporting outcomes *)

(** X4. A failure that counts against a key that is not DEAD adds one to
    [failCount] and [totalRequests] and records the time.  The circuit becomes
    DEAD when the classification says so; otherwise it is OPEN, with the probe
    due [HALF_OPEN_TEST_DELAY] after the report if the key was HALF_OPEN and
    [cooldownMs] (or that delay when it is 0) after it if this was the fifth
    failure in a row or a quota error; otherwise it stays as it was.  No other
    key is touched. *)
Theorem mark_failed_transition (name : string) (c : ErrorClassification) (s : State)
    (r : nat) (k : KeyState) :
  find_from name (keys s) 0 = Some r ->
  keys s !! r = Some k ->
  circuitState k <> DEAD ->
  markKeyFailed c = true ->
  exists k',
    keys (snd (mark_failed name c s)) = <[r := k']> (keys s) /\
    failCount k' = failCount k + 1 /\
    totalRequests k' = totalRequests k + 1 /\
    successCount k' = successCount k /\
    failedAt k' = Some (clock s (reads s)) /\
    isQuotaError k' = ErrorType_eqb (type c) QUOTA /\
    circuitState k' =
      (if markKeyDead c then DEAD
       else if CircuitState_eqb (circuitState k) HALF_OPEN
               || (5 <=? failCount k + 1) || ErrorType_eqb (type c) QUOTA
            then OPEN else circuitState k) /\
    halfOpenTestTime k' =
      (if markKeyDead c then halfOpenTestTime k
       else if CircuitState_eqb (circuitState k) HALF_OPEN
            then Some (clock s (S (reads s)) + 60000)
            else if (5 <=? failCount k + 1) || ErrorType_eqb (type c) QUOTA
                 then Some (clock s (S (reads s))
                            + (if cooldownMs c =? 0 then 60000 else cooldownMs c))
                 else halfOpenTestTime k).
Proof.
  intros Hf Hk Hnd Hm.
  exists (failure_record (clock s (reads s)) (clock s (S (reads s))) c k).
  split; [apply mark_failed_keys; assumption|].
  unfold failure_record, record_failure, CONFIG.MAX_CONSECUTIVE_FAILURES,
    CONFIG.HALF_OPEN_TEST_DELAY, or_default.
  destruct (markKeyDead c), (CircuitState_eqb (circuitState k) HALF_OPEN),
    (5 <=? failCount k + 1), (ErrorType_eqb (type c) QUOTA), (cooldownMs c =? 0);
    cbn; repeat split; reflexivity.
Qed.

Lemma mark_failed_transition_witness :
  exists k',
    keys (snd (mark_failed "key-1" (classify_error (MockError 429) None) Tests.single))
      = <[0%nat := k']> (keys Tests.single) /\
    failCount k' = 0 + 1 /\ circuitState k' = OPEN /\
    halfOpenTestTime k' = Some (1700000000001 + 300000).
Proof.
  destruct (mark_failed_transition "key-1" (classify_error (MockError 429) None)
              Tests.single 0 (new_KeyState "key-1" 1 "default"))
    as (k' & H1 & H2 & _ & _ & _ & _ & H7 & H8).
  - reflexivity.
  - reflexivity.
  - discriminate.
  - reflexivity.
  - exists k'. repeat split; assumption.
Defined.

Lemma mark_success_ignored (name : string) (d : option Z) (s : State) :
  find_from name (keys s) 0 = None -> mark_success name d s = (tt, s).
Proof.
  intros Hf. unfold mark_success.
  rewrite (bind_run (find_key name) _ s s None)
    by (unfold find_key, gets; rewrite Hf; reflexivity).
  reflexivity.
Qed.

(** X5. Errors that are the caller's or the content's, not the key's, leave
    the manager exactly as it was: reporting an error classified BAD_REQUEST,
    SAFETY or RECITATION changes no record, emits no event and saves nothing.
    The same holds for any report on a DEAD key, and for reports, of failure
    or of success, on a name that is not registered. *)
Theorem reports_without_effect (name : string) (s : State) :
  (forall e fr,
     (type (classify_error e fr) = BAD_REQUEST \/ type (classify_error e fr) = SAFETY \/
      type (classify_error e fr) = RECITATION) ->
     mark_failed name (classify_error e fr) s = (tt, s)) /\
  (forall c r k,
     find_from name (keys s) 0 = Some r -> keys s !! r = Some k ->
     circuitState k = DEAD ->
     mark_failed name c s = (tt, s)) /\
  (find_from name (keys s) 0 = None ->
   forall c d, mark_failed name c s = (tt, s) /\ mark_success name d s = (tt, s)).
Proof.
  split; [|split].
  - intros e fr Ht. apply mark_failed_ignored.
    assert (Hm : markKeyFailed (classify_error e fr) = false).
    { revert Ht. unfold classify_error.
      repeat match goal with
             | |- context [if ?b then _ else _] => destruct b
             end; cbn; intros [?|[?|?]]; try discriminate; reflexivity. }
    destruct (find_from name (keys s) 0); [|exact I].
    destruct (keys s !! n); [right; exact Hm | exact I].
  - intros c r k Hf Hk Hd. apply mark_failed_ignored. rewrite Hf, Hk. left. exact Hd.
  - intros Hf c d. split.
    + apply mark_failed_ignored. rewrite Hf. exact I.
    + apply mark_success_ignored. exact Hf.
Qed.

(** X6. A success makes the key selectable at once: whatever its state was,
    after [mark_success] the cooldown check of that key answers false at any
    time and does nothing but read the clock. *)
Theorem success_makes_key_eligible (name : string) (d : option Z) (s s' : State) (r : nat) :
  find_from name (keys s) 0 = Some r ->
  keys s' = keys (snd (mark_success name d s)) ->
  _is_on_cooldown r s' = (false, set_reads (S (reads s')) s').
Proof.
  intros Hf Hs'. rewrite (mark_success_keys name d s r Hf) in Hs'.
  destruct (find_from_lookup _ _ _ _ Hf) as (_ & k & Hk & _). rewrite Nat.sub_0_r in Hk.
  assert (Hk' : keys s' !! r = Some (record_success d k)).
  { rewrite Hs', list_lookup_alter_eq, Hk. reflexivity. }
  rewrite (is_on_cooldown_run r s' _ Hk').
  unfold record_success, on_cooldown_spec. destruct d; reflexivity.
Qed.

Lemma success_makes_key_eligible_witness :
  _is_on_cooldown 0 (snd (mark_success "key-1" (Some 10) killed))
  = (false, set_reads (S (reads (snd (mark_success "key-1" (Some 10) killed))))
                      (snd (mark_success "key-1" (Some 10) killed))).
Proof.
  apply (success_makes_key_eligible "key-1" (Some 10) killed).
  - reflexivity.
  - reflexivity.
Defined.

(** The classifications that count against a key. *)
Lemma counted_classifications (e : PyError) (fr : option string) :
  markKeyFailed (classify_error e fr) = true ->
  classify_error e fr = mkClassification TIMEOUT true 60000 true false \/
  classify_error e fr = mkClassification AUTH false 999999999 true true \/
  classify_error e fr = mkClassification QUOTA true 300000 true false \/
  classify_error e fr = mkClassification TRANSIENT true 60000 true false \/
  classify_error e fr = mkClassification UNKNOWN true 60000 true false.
Proof.
  unfold classify_error.
  repeat match goal with
         | |- context [if ?b then _ else _] => destruct b
         end; cbn; intros; try discriminate; tauto.
Qed.

(** X7. A key that was selectable (CLOSED or HALF_OPEN) and on which a
    failure has just been counted is set aside: with a clock that shows
    positive times, every cooldown check made less than 60 seconds after the
    report answers true, whatever the error was. *)
Theorem failed_key_is_set_aside (e : PyError) (fr : option string) (name : string)
    (s s' : State) (r : nat) (k : KeyState) :
  find_from name (keys s) 0 = Some r ->
  keys s !! r = Some k ->
  circuitState k = CLOSED \/ circuitState k = HALF_OPEN ->
  markKeyFailed (classify_error e fr) = true ->
  keys s' = keys (snd (mark_failed name (classify_error e fr) s)) ->
  0 < clock s (reads s) ->
  0 <= clock s (S (reads s)) ->
  clock s' (reads s') - clock s (reads s) < 60000 ->
  clock s' (reads s') < clock s (S (reads s)) + 60000 ->
  fst (_is_on_cooldown r s') = true.
Proof.
  intros Hf Hk Hst Hm Hs' Ht1 Ht2 Hn1 Hn2.
  assert (Hnd : circuitState k <> DEAD) by (destruct Hst as [E|E]; rewrite E; discriminate).
  rewrite (mark_failed_keys name _ s r k Hf Hk Hnd Hm) in Hs'.
  assert (Hk' : keys s' !! r =
                Some (failure_record (clock s (reads s)) (clock s (S (reads s)))
                        (classify_error e fr) k)).
  { rewrite Hs'. apply list_lookup_insert_eq. apply lookup_lt_Some in Hk. exact Hk. }
  rewrite (is_on_cooldown_fst r s' _ Hk').
  set (now := clock s' (reads s')) in *. set (t1 := clock s (reads s)) in *.
  set (t2 := clock s (S (reads s))) in *.
  unfold failure_record, record_failure, on_cooldown_spec, half_open_due, default_cooldown,
    truthy, or_default, CONFIG.MAX_CONSECUTIVE_FAILURES, CONFIG.HALF_OPEN_TEST_DELAY,
    CONFIG.COOLDOWN_QUOTA, CONFIG.COOLDOWN_TRANSIENT.
  destruct (5 <=? failCount k + 1);
    destruct (counted_classifications e fr Hm) as [-> | [-> | [-> | [-> | ->]]]];
    destruct Hst as [-> | ->]; cbn;
    repeat match goal with
           | |- context [?a <=? ?b] => destruct (Z.leb_spec a b)
           | |- context [?a <? ?b] => destruct (Z.ltb_spec a b)
           | |- context [?a =? ?b] => destruct (Z.eqb_spec a b)
           end; cbn; try reflexivity; exfalso; lia.
Qed.

Lemma failed_key_is_set_aside_witness :
  fst (_is_on_cooldown 0
         (snd (mark_failed "key-1" (classify_error (MockError 500) None) Tests.single)))
  = true.
Proof.
  apply (failed_key_is_set_aside (MockError 500) None "key-1" Tests.single
           (snd (mark_failed "key-1" (classify_error (MockError 500) None) Tests.single))
           0 (new_KeyState "key-1" 1 "default")).
  - reflexivity.
  - reflexivity.
  - left. reflexivity.
  - reflexivity.
  - reflexivity.
  - vm_compute. reflexivity.
  - vm_compute. discriminate.
  - vm_compute. reflexivity.
  - vm_compute. reflexivity.
Defined.

(** ** What the selectors return *)

(** What selection relies on and never changes: the name and provider of a
    key and whether it is DEAD. *)
Definition life (k : KeyState) : string * string * bool :=
  (key k, provider k, negb (CircuitState_eqb (circuitState k) DEAD)).

Definition same_life (s s' : State) : Prop := map life (keys s') = map life (keys s).

Lemma same_life_refl s : same_life s s.
Proof. reflexivity. Qed.

Lemma same_life_trans a b c : same_life a b -> same_life b c -> same_life a c.
Proof. unfold same_life. intros H1 H2. rewrite H2. exact H1. Qed.

Lemma same_life_same_keys (s s' : State) : keys s' = keys s -> same_life s s'.
Proof. unfold same_life. intros ->. reflexivity. Qed.

Lemma map_alter_kept {A B} (g : A -> B) (f : A -> A) (l : list A) (i : nat) :
  (forall x, l !! i = Some x -> g (f x) = g x) -> map g (alter f i l) = map g l.
Proof.
  revert i. induction l as [|y l IH]; intros [|i] H; cbn; try reflexivity.
  - rewrite (H y eq_refl). reflexivity.
  - f_equal. apply IH. exact H.
Qed.

Lemma same_life_alter (s s' : State) (i : nat) (f : KeyState -> KeyState) :
  keys s' = alter f i (keys s) ->
  (forall k, keys s !! i = Some k -> life (f k) = life k) ->
  same_life s s'.
Proof. unfold same_life. intros -> H. apply map_alter_kept. exact H. Qed.

Lemma same_life_lookup (s s' : State) (r : nat) (k' : KeyState) :
  same_life s s' -> keys s' !! r = Some k' ->
  exists k, keys s !! r = Some k /\ life k = life k'.
Proof.
  unfold same_life. intros E Hk'.
  assert (H : (life <$> keys s) !! r = Some (life k')).
  { change (fmap (M:=list) life (keys s)) with (map life (keys s)). rewrite <- E.
    change (map life (keys s')) with (life <$> keys s').
    rewrite list_lookup_fmap, Hk'. reflexivity. }
  rewrite list_lookup_fmap in H. destruct (keys s !! r) as [k|]; [|discriminate].
  exists k. split; [reflexivity|]. cbn in H. congruence.
Qed.

Lemma same_life_time_ms : respects same_life time_ms.
Proof. intros s. apply same_life_same_keys. reflexivity. Qed.

Lemma same_life_random_uniform a b : respects same_life (random_uniform a b).
Proof. intros s. apply same_life_same_keys. reflexivity. Qed.

Lemma same_life_emit ev : respects same_life (_emit ev).
Proof. intros s. apply same_life_same_keys. reflexivity. Qed.

Lemma same_life_save_state : respects same_life save_state.
Proof.
  intros s. apply same_life_same_keys. unfold save_state, modify. cbn.
  destruct (storage s); reflexivity.
Qed.

Lemma same_life_deref r : respects same_life (deref r).
Proof. intros s. apply same_life_refl. Qed.

Lemma same_life_resolve rs : respects same_life (resolve rs).
Proof. intros s. apply same_life_refl. Qed.

Lemma same_life_all_refs : respects same_life all_refs.
Proof. intros s. apply same_life_refl. Qed.

Lemma same_life_lastUsed r t : respects same_life (mutate r (with_lastUsed t)).
Proof. intros s. apply (same_life_alter s _ r (with_lastUsed t)); [reflexivity | auto]. Qed.

Lemma same_life_is_on_cooldown r : respects same_life (_is_on_cooldown r).
Proof.
  intros s. destruct (keys s !! r) as [k|] eqn:Hk.
  - rewrite (is_on_cooldown_run r s k Hk).
    destruct (circuitState k) eqn:Hc; try (apply same_life_same_keys; reflexivity).
    destruct (half_open_due _ _); [|apply same_life_same_keys; reflexivity].
    apply (same_life_alter s _ r (with_circuitState HALF_OPEN)); [reflexivity|].
    intros k' Hk'. rewrite Hk in Hk'. injection Hk' as <-.
    unfold life. cbn. rewrite Hc. reflexivity.
  - cbv [_is_on_cooldown deref gets bind ret]. rewrite Hk. apply same_life_refl.
Qed.

Create HintDb same_life_db.
#[local] Hint Resolve same_life_time_ms same_life_random_uniform same_life_emit
  same_life_save_state same_life_deref same_life_resolve same_life_all_refs
  same_life_lastUsed same_life_is_on_cooldown : same_life_db.

Ltac same_life_steps :=
  repeat first
    [ solve [auto with same_life_db]
    | apply (respects_ret _ same_life_refl)
    | apply (respects_gets _ same_life_refl)
    | apply (respects_comprehension _ same_life_refl same_life_trans); intros
    | apply (respects_bind _ same_life_trans); [|intros]
    | match goal with
      | |- respects _ (match ?x with _ => _ end) => destruct x
      | |- respects _ (let _ := _ in _) => cbv zeta
      end ].

Lemma same_life_eligible r : respects same_life (eligible r).
Proof. unfold eligible, not_dead. same_life_steps. Qed.

Lemma same_life_provider_eligible p r :
  respects same_life (hp <- has_provider p r ;; if hp then eligible r else ret false).
Proof. unfold has_provider, eligible, not_dead. same_life_steps. Qed.

Lemma same_life_strategy_next cands : respects same_life (strategy_next cands).
Proof. unfold strategy_next, weighted_next. same_life_steps. Qed.

Lemma same_life_use_selected sel : respects same_life (use_selected sel).
Proof. unfold use_selected, key_of. same_life_steps. Qed.

(** The key at [r] is not DEAD and, when a provider [p] is asked for, is
    tagged with it. *)
Definition live_of (p : option string) (lives : list (string * string * bool)) (r : nat) : Prop :=
  exists name q, lives !! r = Some (name, q, true) /\
                 match p with Some p' => q = p' | None => True end.

(** A scan keeps only references that passed its condition. *)
Lemma comprehension_sound (cond : nat -> M bool) (p : option string) :
  (forall r, respects same_life (cond r)) ->
  (forall r s, fst (cond r s) = true -> live_of p (map life (keys s)) r) ->
  forall rs s r, In r (fst (comprehension cond rs s)) ->
                 In r rs /\ live_of p (map life (keys s)) r.
Proof.
  intros Hres Hcond. induction rs as [|r0 rs IH]; intros s r; cbn [comprehension].
  - cbn. contradiction.
  - unfold bind at 1. destruct (cond r0 s) as [b s1] eqn:Hc.
    unfold bind at 1. destruct (comprehension cond rs s1) as [rest s2] eqn:Hrest.
    cbn [ret fst].
    assert (Hlife : map life (keys s1) = map life (keys s)).
    { specialize (Hres r0 s). rewrite Hc in Hres. exact Hres. }
    assert (Hin : In r rest -> In r (r0 :: rs) /\ live_of p (map life (keys s)) r).
    { intros Hi. specialize (IH s1 r). rewrite Hrest in IH. destruct (IH Hi) as [H1 H2].
      split; [right; exact H1 | rewrite <- Hlife; exact H2]. }
    destruct b; [|exact Hin].
    intros [<- | Hi]; [|exact (Hin Hi)].
    split; [left; reflexivity|]. apply Hcond. rewrite Hc. reflexivity.
Qed.

Lemma eligible_live (r : nat) (s : State) :
  fst (eligible r s) = true -> live_of None (map life (keys s)) r.
Proof.
  cbv [eligible not_dead deref gets bind ret]. cbn [fst snd].
  change (map life (keys s)) with (life <$> keys s). unfold live_of.
  rewrite list_lookup_fmap.
  destruct (keys s !! r) as [k|]; [|discriminate].
  destruct (negb (CircuitState_eqb (circuitState k) DEAD)) eqn:Hd; [|discriminate].
  intros _. exists (key k), (provider k). cbn. unfold life. rewrite Hd. auto.
Qed.

Lemma provider_eligible_live (p : string) (r : nat) (s : State) :
  fst ((hp <- has_provider p r ;; if hp then eligible r else ret false) s) = true ->
  live_of (Some p) (map life (keys s)) r.
Proof.
  cbv [has_provider deref gets bind ret]. cbn [fst snd].
  destruct (keys s !! r) as [k|] eqn:Hk; [|discriminate].
  destruct (String.eqb_spec (provider k) p) as [Hp|Hp]; [|discriminate].
  intros He. destruct (eligible_live r s He) as (name & q & Hl & _).
  exists name, q. split; [exact Hl|].
  change (map life (keys s)) with (life <$> keys s) in Hl.
  rewrite list_lookup_fmap, Hk in Hl. cbn in Hl. unfold life in Hl. congruence.
Qed.

Lemma live_of_lookup (p : option string) (s : State) (r : nat) :
  live_of p (map life (keys s)) r ->
  exists k, keys s !! r = Some k /\ circuitState k <> DEAD /\
            match p with Some p' => provider k = p' | None => True end.
Proof.
  intros (name & q & Hl & Hp).
  change (map life (keys s)) with (life <$> keys s) in Hl.
  rewrite list_lookup_fmap in Hl. destruct (keys s !! r) as [k|]; [|discriminate].
  cbn in Hl. unfold life in Hl. injection Hl as _ Hq Hd.
  exists k. split; [reflexivity|]. split.
  - intros E. rewrite E in Hd. discriminate.
  - destruct p; [congruence | exact I].
Qed.

Lemma weighted_loop_In (cs : Candidates) (rand : Q) (r : nat) :
  weighted_loop cs rand = Some r -> exists k, In (r, k) cs.
Proof.
  revert rand. induction cs as [|[r0 k0] cs IH]; intros rand; cbn [weighted_loop].
  - discriminate.
  - destruct (Qle_bool _ _).
    + intros [= <-]. exists k0. left. reflexivity.
    + intros H. destruct (IH _ H) as [k Hk]. exists k. right. exact Hk.
Qed.

(** Every strategy returns one of the candidates it was given, and only the
    weighted one touches the state (it draws a random number). *)
Lemma strategy_next_member (cands : list nat) (s : State) :
  cands <> [] ->
  (forall r, In r cands -> exists k, keys s !! r = Some k) ->
  exists r k, In r cands /\ keys s !! r = Some k /\
              fst (strategy_next cands s) = Some r /\
              keys (snd (strategy_next cands s)) = keys s /\
              clock (snd (strategy_next cands s)) = clock s /\
              reads (snd (strategy_next cands s)) = reads s.
Proof.
  intros Hne Hvalid.
  set (cs := fst (resolve cands s)).
  assert (Hcs : cs <> []).
  { destruct cands as [|r0 rest]; [contradiction|].
    destruct (Hvalid r0 (or_introl eq_refl)) as [k0 Hk0].
    intros Hnil. assert (Hi : In (r0, k0) cs).
    { apply resolve_In. split; [left; reflexivity | exact Hk0]. }
    rewrite Hnil in Hi. contradiction. }
  assert (Hfirst : forall le, exists r k, first_ref (sort_by le cs) = Some r /\
                                          In r cands /\ keys s !! r = Some k).
  { intros le. assert (Hs : sort_by le cs <> []).
    { destruct cs as [|c cs']; [contradiction|]. intros Hnil.
      assert (Hi : In c (sort_by le (c :: cs'))) by (apply sort_by_In; left; reflexivity).
      rewrite Hnil in Hi. contradiction. }
    destruct (first_ref_In _ Hs) as (r & k & Hf & Hi).
    apply sort_by_In in Hi. apply resolve_In in Hi as [Hi Hk]. eauto. }
  unfold strategy_next.
  rewrite (bind_run (resolve cands) _ s s cs eq_refl).
  rewrite (bind_run (gets strategy) _ s s (strategy s) eq_refl).
  destruct (strategy s).
  - destruct (Hfirst (fun a b => le_ZZ (failCount (snd a), lastUsed (snd a))
                                       (failCount (snd b), lastUsed (snd b))))
      as (r & k & Hf & Hi & Hk).
    exists r, k. unfold standard_next, ret. cbn [fst snd]. auto 6.
  - unfold weighted_next. destruct cs as [|c cs'] eqn:Ecs; [contradiction|].
    rewrite <- Ecs in *. unfold bind, random_uniform. cbn [fst snd].
    destruct (weighted_loop cs _) as [r|] eqn:Hw.
    + destruct (weighted_loop_In _ _ _ Hw) as [k Hi].
      apply resolve_In in Hi as [Hi Hk]. exists r, k. unfold ret. cbn. auto 6.
    + destruct (first_ref_In cs Hcs) as (r & k & Hf & Hi).
      apply resolve_In in Hi as [Hi Hk]. exists r, k. unfold ret. cbn. auto 6.
  - destruct (Hfirst (fun a b => le_QZ (averageLatency (snd a), lastUsed (snd a))
                                       (averageLatency (snd b), lastUsed (snd b))))
      as (r & k & Hf & Hi & Hk).
    exists r, k. unfold latency_next, ret. cbn [fst snd]. auto 6.
Qed.

(** The common tail of the selectors: a candidate is chosen, stamped with
    the time of the choice and its name returned. *)
Lemma select_from_candidates (cands : list nat) (s : State) :
  cands <> [] ->
  (forall r, In r cands -> exists k, keys s !! r = Some k) ->
  exists r k, In r cands /\ keys s !! r = Some k /\
    fst ((selected <- strategy_next cands ;; use_selected selected) s) = Some (key k) /\
    keys (snd ((selected <- strategy_next cands ;; use_selected selected) s)) !! r
    = Some (with_lastUsed (clock s (reads s)) k).
Proof.
  intros Hne Hvalid.
  destruct (strategy_next_member cands s Hne Hvalid) as (r & k & Hi & Hk & Hf & Hkeys & Hc & Hr).
  exists r, k. split; [exact Hi|]. split; [exact Hk|].
  unfold bind. destruct (strategy_next cands s) as [sel s1].
  cbn [fst snd] in *. subst sel.
  rewrite <- Hkeys in Hk. rewrite <- Hc, <- Hr.
  exact (use_selected_sets_lastUsed r s1 k Hk).
Qed.

Lemma alive_life (s : State) (r : nat) :
  alive s r = match map life (keys s) !! r with
              | Some (_, _, b) => b
              | None => false
              end.
Proof.
  unfold alive. change (map life (keys s)) with (life <$> keys s).
  rewrite list_lookup_fmap. destruct (keys s !! r); reflexivity.
Qed.

Lemma live_back (p : option string) (s s1 : State) (r : nat) (k : KeyState) :
  same_life s s1 ->
  keys s1 !! r = Some k ->
  live_of p (map life (keys s)) r ->
  exists k0, In k0 (keys s) /\ key k0 = key k /\ circuitState k0 <> DEAD /\
             match p with Some p' => provider k0 = p' | None => True end.
Proof.
  intros Hlife Hk Hlive.
  destruct (same_life_lookup s s1 r k Hlife Hk) as (k0 & Hk0 & El).
  destruct (live_of_lookup p s r Hlive) as (k0' & Hk0' & Hd & Hp).
  rewrite Hk0 in Hk0'. injection Hk0' as <-.
  exists k0. split; [|split; [|split]].
  - apply list_elem_of_In. exact (list_elem_of_lookup_2 _ _ _ Hk0).
  - unfold life in El. congruence.
  - exact Hd.
  - exact Hp.
Qed.

(** The strategy branch shared by both selectors: after a scan with a
    condition that only lets through keys that are not DEAD (and of the
    provider asked for), a non-empty candidate list yields the name of such a
    key of the registry. *)
Lemma selector_strategy_branch (cond : nat -> M bool) (p : option string)
    (rs : list nat) (s : State) :
  (forall r, respects same_life (cond r)) ->
  (forall r s, fst (cond r s) = true -> live_of p (map life (keys s)) r) ->
  fst (comprehension cond rs s) <> [] ->
  exists k0 k, In k0 (keys s) /\ circuitState k0 <> DEAD /\
    match p with Some p' => provider k0 = p' | None => True end /\
    key k0 = key k /\
    fst ((selected <- strategy_next (fst (comprehension cond rs s)) ;;
          use_selected selected) (snd (comprehension cond rs s))) = Some (key k).
Proof.
  intros Hres Hcond Hne.
  pose proof (respects_comprehension same_life same_life_refl same_life_trans cond rs Hres s)
    as Hlife.
  pose proof (comprehension_sound cond p Hres Hcond rs s) as Hsound.
  destruct (comprehension cond rs s) as [cands s1]. cbn [fst snd] in *.
  assert (Hvalid : forall r, In r cands -> exists k, keys s1 !! r = Some k).
  { intros r Hi. destruct (Hsound r Hi) as [_ Hl].
    unfold same_life in Hlife. rewrite <- Hlife in Hl.
    destruct (live_of_lookup p s1 r Hl) as (k & Hk & _). eauto. }
  destruct (select_from_candidates cands s1 Hne Hvalid) as (r & k & Hi & Hk & Hres' & _).
  destruct (Hsound r Hi) as [_ Hl].
  destruct (live_back p s s1 r k Hlife Hk Hl) as (k0 & H1 & H2 & H3 & H4).
  exists k0, k. auto 6.
Qed.

Lemma all_dead_not_alive (s : State) (rs : list nat) :
  Forall (fun k => circuitState k = DEAD) (keys s) -> List.filter (alive s) rs = [].
Proof.
  intros Hd. induction rs as [|r rs IH]; [reflexivity|]. cbn [List.filter].
  unfold alive at 1. destruct (keys s !! r) as [k|] eqn:Hk; [|exact IH].
  rewrite (Forall_lookup_1 _ _ _ _ Hd Hk). exact IH.
Qed.

Lemma all_dead_scan (s : State) (rs : list nat) :
  Forall (fun k => circuitState k = DEAD) (keys s) -> comprehension eligible rs s = ([], s).
Proof.
  intros Hd. induction rs as [|r rs IH]; cbn [comprehension]; [reflexivity|].
  assert (He : eligible r s = (false, s)).
  { cbv [eligible not_dead deref gets bind ret].
    destruct (keys s !! r) as [k|] eqn:Hk; [|reflexivity].
    rewrite (Forall_lookup_1 _ _ _ _ Hd Hk). reflexivity. }
  rewrite (bind_run _ _ _ _ _ He), (bind_run _ _ _ _ _ IH). reflexivity.
Qed.

(** X8. [get_key] hands out only keys of the registry that are not DEAD, and
    it returns nothing exactly when every key is DEAD (in particular when
    there is no key); in that case it emits [allKeysExhausted] and changes
    nothing else. *)
Theorem get_key_returns_live_key (s : State) :
  (Forall (fun k => circuitState k = DEAD) (keys s) ->
   get_key s = (None, set_events (allKeysExhausted :: events s) s)) /\
  match fst (get_key s) with
  | Some name => exists k, In k (keys s) /\ key k = name /\ circuitState k <> DEAD
  | None => Forall (fun k => circuitState k = DEAD) (keys s)
  end.
Proof.
  set (rs := seq 0 (length (keys s))). split.
  - intros Hd. unfold get_key.
    rewrite (bind_run all_refs _ s s rs eq_refl).
    rewrite (bind_run _ _ _ _ _ (all_dead_scan s rs Hd)).
    rewrite (bind_run _ _ _ _ _ (comprehension_not_dead rs s)).
    rewrite (all_dead_not_alive s rs Hd). reflexivity.
  - unfold get_key. rewrite (bind_run all_refs _ s s rs eq_refl).
    pose proof (selector_strategy_branch eligible None rs s same_life_eligible eligible_live)
      as Hbranch.
    pose proof (respects_comprehension same_life same_life_refl same_life_trans eligible rs
                  same_life_eligible s) as Hlife.
    unfold bind at 1.
    destruct (comprehension eligible rs s) as [cands s1]. cbn [fst snd] in *.
    destruct cands as [|c cands'].
    + rewrite (bind_run _ _ _ _ _ (comprehension_not_dead rs s1)).
      assert (Halive : forall r, alive s1 r = alive s r).
      { intros r. rewrite !alive_life. unfold same_life in Hlife. rewrite Hlife. reflexivity. }
      destruct (List.filter (alive s1) rs) as [|r1 l] eqn:Hf.
      * cbn [fst]. apply Forall_lookup_2. intros i k Hk.
        assert (Hi : In i rs) by (apply in_seq; apply lookup_lt_Some in Hk; lia).
        assert (Ha : alive s1 i = false).
        { destruct (alive s1 i) eqn:Ha; [|reflexivity].
          assert (Hin : In i (List.filter (alive s1) rs)) by (apply List.filter_In; auto).
          rewrite Hf in Hin. contradiction. }
        rewrite Halive in Ha. unfold alive in Ha. rewrite Hk in Ha.
        destruct (circuitState k); try discriminate. reflexivity.
      * set (le := fun a b : nat * KeyState =>
                     or_default (failedAt (snd a)) 0 <=? or_default (failedAt (snd b)) 0).
        rewrite (bind_run (resolve (r1 :: l)) _ s1 s1 (fst (resolve (r1 :: l) s1)) eq_refl).
        destruct (first_ref (sort_by le (fst (resolve (r1 :: l) s1)))) as [r|] eqn:Hfirst.
        -- assert (Hin : exists k, In (r, k) (sort_by le (fst (resolve (r1 :: l) s1)))).
           { destruct (sort_by le (fst (resolve (r1 :: l) s1))) as [|[r' k'] rest];
               [discriminate|]. injection Hfirst as ->. exists k'. left. reflexivity. }
           destruct Hin as [k Hin]. apply sort_by_In in Hin. apply resolve_In in Hin as [Hin Hk].
           rewrite <- Hf in Hin. apply List.filter_In in Hin as [_ Ha].
           cbv [key_of deref gets bind ret]. rewrite Hk. cbn [fst].
           destruct (same_life_lookup s s1 r k Hlife Hk) as (k0 & Hk0 & El).
           exists k0. split; [|split].
           ++ apply list_elem_of_In. exact (list_elem_of_lookup_2 _ _ _ Hk0).
           ++ unfold life in El. congruence.
           ++ rewrite Halive in Ha. unfold alive in Ha. rewrite Hk0 in Ha.
              intros E. rewrite E in Ha. discriminate.
        -- exfalso.
           assert (Hr1 : In r1 (List.filter (alive s1) rs)) by (rewrite Hf; left; reflexivity).
           apply List.filter_In in Hr1 as [_ Ha]. unfold alive in Ha.
           destruct (keys s1 !! r1) as [k1|] eqn:Hk1; [|discriminate].
           assert (Hi : In (r1, k1) (sort_by le (fst (resolve (r1 :: l) s1)))).
           { apply sort_by_In. apply resolve_In. split; [left; reflexivity | exact Hk1]. }
           destruct (sort_by le (fst (resolve (r1 :: l) s1))) as [|[r' k'] rest];
             [contradiction | discriminate].
    + destruct (Hbranch ltac:(discriminate)) as (k0 & k & H1 & H2 & _ & H3 & H4).
      rewrite H4. exists k0. auto.
Qed.

(** X9. [get_key_by_provider(p)] hands out only keys of the registry that
    carry the provider tag [p] and are not DEAD; it returns nothing when no
    key carries the tag or all that do are DEAD, and then changes nothing. *)
Theorem get_key_by_provider_returns_provider_key (p : string) (s : State) :
  (Forall (fun k => provider k = p -> circuitState k = DEAD) (keys s) ->
   get_key_by_provider p s = (None, s)) /\
  match fst (get_key_by_provider p s) with
  | Some name =>
      exists k, In k (keys s) /\ key k = name /\ provider k = p /\ circuitState k <> DEAD
  | None => True
  end.
Proof.
  set (rs := seq 0 (length (keys s))). split.
  - intros Hd. unfold get_key_by_provider.
    rewrite (bind_run all_refs _ s s rs eq_refl).
    assert (Hscan : comprehension (fun r => hp <- has_provider p r ;;
                                            if hp then eligible r else ret false) rs s
                    = ([], s)).
    { clearbody rs. induction rs as [|r rs IH]; cbn [comprehension]; [reflexivity|].
      assert (He : (hp <- has_provider p r ;; if hp then eligible r else ret false) s
                   = (false, s)).
      { rewrite (bind_run (has_provider p r) _ s s
                   (match keys s !! r with
                    | Some k => String.eqb (provider k) p
                    | None => false
                    end) eq_refl).
        destruct (keys s !! r) as [k|] eqn:Hk; [|reflexivity].
        destruct (String.eqb_spec (provider k) p) as [Hp|Hp]; [|reflexivity].
        cbv [eligible not_dead deref gets bind ret].
        rewrite Hk, (Forall_lookup_1 _ _ _ _ Hd Hk Hp). reflexivity. }
      rewrite (bind_run _ _ _ _ _ He), (bind_run _ _ _ _ _ IH). reflexivity. }
    rewrite (bind_run _ _ _ _ _ Hscan). reflexivity.
  - unfold get_key_by_provider. rewrite (bind_run all_refs _ s s rs eq_refl).
    pose proof (selector_strategy_branch _ (Some p) rs s (same_life_provider_eligible p)
                  (provider_eligible_live p)) as Hbranch.
    unfold bind at 1.
    destruct (comprehension _ rs s) as [cands s1]. cbn [fst snd] in *.
    destruct cands as [|c cands']; [exact I|].
    destruct (Hbranch ltac:(discriminate)) as (k0 & k & H1 & H2 & H3 & H4 & H5).
    rewrite H5. exists k0. auto.
Qed.

(** ** The strategies *)

(** [list.sort] followed by [[0]]: the first of the least elements. *)
Lemma sort_by_nil {A} (le : A -> A -> bool) (l : list A) : sort_by le l = [] -> l = [].
Proof.
  destruct l as [|x l]; [reflexivity|]. intros Hnil.
  assert (Hi : In x (sort_by le (x :: l))) by (apply sort_by_In; left; reflexivity).
  rewrite Hnil in Hi. contradiction.
Qed.

Lemma sort_by_head {A} (le : A -> A -> bool) :
  (forall a b, le a b = false -> le b a = true) ->
  (forall a b c, le a b = true -> le b c = true -> le a c = true) ->
  forall l x rest, sort_by le l = x :: rest ->
    exists pre post, l = pre ++ x :: post /\
      (forall y, In y pre -> le y x = false) /\
      (forall y, In y post -> le x y = true).
Proof.
  intros Htot Htrans. induction l as [|a l IH]; intros x rest; cbn [sort_by]; [discriminate|].
  destruct (sort_by le l) as [|z zs] eqn:Hs.
  - apply sort_by_nil in Hs. subst l. cbn. intros [= <- <-].
    exists [], []. split; [reflexivity|]. split; intros y [].
  - destruct (IH z zs eq_refl) as (pre & post & -> & Hpre & Hpost).
    cbn [insert_by]. destruct (le a z) eqn:Haz.
    + intros [= <- <-]. exists [], (pre ++ z :: post). split; [reflexivity|].
      split; [intros y []|]. intros y Hy. apply in_app_or in Hy as [Hy | [<- | Hy]].
      * apply (Htrans a z y Haz). apply Htot. apply Hpre. exact Hy.
      * exact Haz.
      * apply (Htrans a z y Haz). apply Hpost. exact Hy.
    + intros [= <- <-]. exists (a :: pre), post. split; [reflexivity|].
      split; [|exact Hpost]. intros y [<- | Hy]; [exact Haz | apply Hpre; exact Hy].
Qed.

Lemma le_ZZ_total (a b : Z * Z) : le_ZZ a b = false -> le_ZZ b a = true.
Proof.
  unfold le_ZZ. destruct a as [a1 a2], b as [b1 b2]. cbn [fst snd].
  destruct (Z.ltb_spec a1 b1), (Z.eqb_spec a1 b1), (Z.leb_spec a2 b2),
    (Z.ltb_spec b1 a1), (Z.eqb_spec b1 a1), (Z.leb_spec b2 a2); cbn; intros; try reflexivity;
    try discriminate; exfalso; lia.
Qed.

Lemma le_ZZ_trans (a b c : Z * Z) : le_ZZ a b = true -> le_ZZ b c = true -> le_ZZ a c = true.
Proof.
  unfold le_ZZ. destruct a as [a1 a2], b as [b1 b2], c as [c1 c2]. cbn [fst snd].
  destruct (Z.ltb_spec a1 b1), (Z.eqb_spec a1 b1), (Z.leb_spec a2 b2),
    (Z.ltb_spec b1 c1), (Z.eqb_spec b1 c1), (Z.leb_spec b2 c2),
    (Z.ltb_spec a1 c1), (Z.eqb_spec a1 c1), (Z.leb_spec a2 c2); cbn; intros; try reflexivity;
    try discriminate; exfalso; lia.
Qed.

Lemma le_QZ_true (a b : Q * Z) :
  le_QZ a b = true <-> (fst a < fst b)%Q \/ ((fst a == fst b)%Q /\ snd a <= snd b).
Proof.
  unfold le_QZ. destruct (Qcompare_spec (fst a) (fst b)) as [E|L|G].
  - rewrite Z.leb_le. split; [auto|]. intros [L|[_ H]]; [|exact H]. lra.
  - split; [auto | reflexivity].
  - split; [discriminate|]. intros [L|[E _]]; lra.
Qed.

Lemma le_QZ_false (a b : Q * Z) :
  le_QZ a b = false <-> (fst b < fst a)%Q \/ ((fst a == fst b)%Q /\ snd b < snd a).
Proof.
  unfold le_QZ. destruct (Qcompare_spec (fst a) (fst b)) as [E|L|G].
  - rewrite Z.leb_gt. split; [auto|]. intros [L|[_ H]]; [|exact H]. lra.
  - split; [discriminate|]. intros [G|[E _]]; lra.
  - split; [auto | reflexivity].
Qed.

Lemma le_QZ_total (a b : Q * Z) : le_QZ a b = false -> le_QZ b a = true.
Proof.
  rewrite le_QZ_false, le_QZ_true. intros [L|[E H]]; [left; exact L | right].
  split; [lra | lia].
Qed.

Lemma le_QZ_trans (a b c : Q * Z) : le_QZ a b = true -> le_QZ b c = true -> le_QZ a c = true.
Proof.
  rewrite !le_QZ_true. intros [L1|[E1 H1]] [L2|[E2 H2]].
  - left. lra.
  - left. lra.
  - left. lra.
  - right. split; [lra | lia].
Qed.

(** X10. [StandardStrategy.next] returns nothing only for an empty candidate
    list; otherwise it returns the candidate with the fewest failures and,
    among those, the least recently used, the earliest in the list when
    several tie: every candidate before it is strictly worse and none after
    it is better. *)
Theorem standard_next_least_failed (cs : Candidates) :
  match standard_next cs with
  | None => cs = []
  | Some r =>
      exists pre k post, cs = pre ++ (r, k) :: post /\
        (forall c, In c pre ->
           failCount k < failCount (snd c) \/
           (failCount k = failCount (snd c) /\ lastUsed k < lastUsed (snd c))) /\
        (forall c, In c post ->
           failCount k < failCount (snd c) \/
           (failCount k = failCount (snd c) /\ lastUsed k <= lastUsed (snd c)))
  end.
Proof.
  unfold standard_next.
  set (le := fun a b : nat * KeyState =>
               le_ZZ (failCount (snd a), lastUsed (snd a))
                     (failCount (snd b), lastUsed (snd b))).
  destruct (sort_by le cs) as [|[r k] rest] eqn:Hs; cbn [first_ref].
  - exact (sort_by_nil le cs Hs).
  - destruct (sort_by_head le (fun a b => le_ZZ_total _ _)
                (fun a b c => le_ZZ_trans _ _ _) cs (r, k) rest Hs)
      as (pre & post & E & Hpre & Hpost).
    exists pre, k, post. split; [exact E|]. split; intros c Hc.
    + specialize (Hpre c Hc). unfold le, le_ZZ in Hpre. cbn [fst snd] in Hpre.
      destruct (Z.ltb_spec (failCount (snd c)) (failCount k)),
        (Z.eqb_spec (failCount (snd c)) (failCount k)),
        (Z.leb_spec (lastUsed (snd c)) (lastUsed k)); cbn in Hpre; try discriminate; lia.
    + specialize (Hpost c Hc). unfold le, le_ZZ in Hpost. cbn [fst snd] in Hpost.
      destruct (Z.ltb_spec (failCount k) (failCount (snd c))),
        (Z.eqb_spec (failCount k) (failCount (snd c))),
        (Z.leb_spec (lastUsed k) (lastUsed (snd c))); cbn in Hpost; try discriminate; lia.
Qed.

(** X11. [LatencyStrategy.next] returns nothing only for an empty candidate
    list; otherwise it returns the candidate with the lowest average latency
    and, among those, the least recently used, the earliest in the list when
    several tie.  A key without a sample has average latency 0 and so comes
    before every measured key. *)
Theorem latency_next_fastest (cs : Candidates) :
  match latency_next cs with
  | None => cs = []
  | Some r =>
      exists pre k post, cs = pre ++ (r, k) :: post /\
        (forall c, In c pre ->
           (averageLatency k < averageLatency (snd c))%Q \/
           ((averageLatency k == averageLatency (snd c))%Q /\ lastUsed k < lastUsed (snd c))) /\
        (forall c, In c post ->
           (averageLatency k < averageLatency (snd c))%Q \/
           ((averageLatency k == averageLatency (snd c))%Q /\ lastUsed k <= lastUsed (snd c)))
  end.
Proof.
  unfold latency_next.
  set (le := fun a b : nat * KeyState =>
               le_QZ (averageLatency (snd a), lastUsed (snd a))
                     (averageLatency (snd b), lastUsed (snd b))).
  destruct (sort_by le cs) as [|[r k] rest] eqn:Hs; cbn [first_ref].
  - exact (sort_by_nil le cs Hs).
  - destruct (sort_by_head le (fun a b => le_QZ_total _ _)
                (fun a b c => le_QZ_trans _ _ _) cs (r, k) rest Hs)
      as (pre & post & E & Hpre & Hpost).
    exists pre, k, post. split; [exact E|]. split; intros c Hc.
    + specialize (Hpre c Hc). unfold le in Hpre. apply le_QZ_false in Hpre.
      cbn [fst snd] in Hpre. destruct Hpre as [L|[Eq L]]; [left; exact L | right].
      split; [lra | exact L].
    + specialize (Hpost c Hc). unfold le in Hpost. apply le_QZ_true in Hpost.
      exact Hpost.
Qed.

(** [sum(k.weight for k in candidates)], unfolded from the left. *)
Lemma sumQ_cons (x : Q) (l : list Q) : (sumQ (x :: l) == x + sumQ l)%Q.
Proof.
  unfold sumQ. cbn [fold_left].
  assert (H : forall l a, (fold_left Qplus l a == a + fold_left Qplus l 0)%Q).
  { clear. induction l as [|y l IH]; intros a; cbn [fold_left]; [lra|].
    rewrite (IH (a + y)%Q), (IH (0 + y)%Q). lra. }
  rewrite (H l (0 + x)%Q). lra.
Qed.






(** ** The two ways an attempt ends *)

(** Reporting a failure never touches the random generator. *)
Definition same_dice (s s' : State) : Prop := rng s' = rng s /\ draws s' = draws s.

Lemma same_dice_refl s : same_dice s s.
Proof. split; reflexivity. Qed.

Lemma same_dice_trans a b c : same_dice a b -> same_dice b c -> same_dice a c.
Proof. unfold same_dice. intuition congruence. Qed.

Lemma same_dice_time_ms : respects same_dice time_ms.
Proof. intros s. split; reflexivity. Qed.

Lemma same_dice_emit ev : respects same_dice (_emit ev).
Proof. intros s. split; reflexivity. Qed.

Lemma same_dice_mutate r f : respects same_dice (mutate r f).
Proof. intros s. split; reflexivity. Qed.

Lemma same_dice_save_state : respects same_dice save_state.
Proof. intros s. unfold save_state, modify. cbn. destruct (storage s); split; reflexivity. Qed.

Lemma same_dice_deref r : respects same_dice (deref r).
Proof. intros s. apply same_dice_refl. Qed.

Lemma same_dice_find_key name : respects same_dice (find_key name).
Proof. intros s. apply same_dice_refl. Qed.

Create HintDb same_dice_db.
#[local] Hint Resolve same_dice_time_ms same_dice_emit same_dice_mutate same_dice_save_state
  same_dice_deref same_dice_find_key : same_dice_db.

Lemma same_dice_mark_failed name c : respects same_dice (mark_failed name c).
Proof.
  unfold mark_failed, open_circuit.
  repeat first
    [ solve [auto with same_dice_db]
    | apply (respects_ret _ same_dice_refl)
    | apply (respects_bind _ same_dice_trans); [|intros]
    | match goal with
      | |- respects _ (match ?x with _ => _ end) => destruct x
      | |- respects _ (if ?b then _ else _) => destruct b
      end ].
Qed.

Lemma retry_loop_awaits_fn (options : ExecuteOptions) (attempt : nat) (rest : list nat)
    (last_error : option PyError) (s s1 : State) (name : string) (timeout : option Z)
    (resume : Outcome -> State -> Task * State) :
  retry_loop options (attempt :: rest) last_error s = (Await (CallFn name timeout) resume, s1) ->
  timeout = wait_for_timeout options /\
  (0 < reads s1)%nat /\
  resume = (fun o => match o with
                     | Return result =>
                         attempt_succeeded name (clock s1 (pred (reads s1))) result
                     | Raise e0 =>
                         attempt_failed options attempt name e0
                           (retry_loop options rest (Some e0))
                     end).
Proof.
  intros Hloop. cbn [retry_loop] in Hloop. unfold bind in Hloop.
  destruct (select_key options s) as [k s0]. destruct (negb (truthy_str k)).
  - exfalso. unfold no_key, bind, gets in Hloop. destruct (fallback_fn s0);
      cbn in Hloop; discriminate.
  - cbn [time_ms ret] in Hloop. injection Hloop as <- <- <- <-.
    cbn [reads set_reads clock Nat.pred]. split; [reflexivity|]. split; [lia|]. reflexivity.
Qed.

(** X13. When the attempt that awaited [fn] fails with a retryable
    classification and another attempt is allowed ([attempt < maxRetries]),
    the call does not end: it sleeps for the back-off of this attempt (the
    capped exponential plus the next draw of the jitter, in seconds) and then
    goes on with the remaining attempts, the error being remembered as the
    last one; a sleep that is interrupted by an exception ends the call with
    that exception. *)
Theorem retryable_failure_sleeps_and_retries (options : ExecuteOptions) (attempt : nat)
    (rest : list nat) (last_error : option PyError) (s s1 : State) (name : string)
    (timeout : option Z) (resume : Outcome -> State -> Task * State)
    (e0 : PyError) (s2 : State) :
  retry_loop options (attempt :: rest) last_error s =
    (Await (CallFn name timeout) resume, s1) ->
  retryable (classify_error (as_timeout options e0) (finishReason options)) = true ->
  Z.of_nat attempt < maxRetries options ->
  exists after_sleep,
    fst (resume (Raise e0) s2) =
      Await (Sleep (fst (calculate_backoff attempt s2) / 1000)) after_sleep /\
    (forall v, after_sleep (Return v) = retry_loop options rest (Some e0)) /\
    (forall e', after_sleep (Raise e') = ret (Done (Raise e'))).
Proof.
  intros Hloop Hretry Hmore.
  destruct (retry_loop_awaits_fn _ _ _ _ _ _ _ _ _ Hloop) as (_ & _ & ->).
  unfold attempt_failed. rewrite Hretry.
  assert (Hlast : (maxRetries options <=? Z.of_nat attempt) = false) by (apply Z.leb_gt; lia).
  rewrite Hlast. cbn [negb orb]. unfold bind at 1.
  pose proof (same_dice_mark_failed name
                (classify_error (as_timeout options e0) (finishReason options)) s2)
    as [Hrng Hdraws].
  destruct (mark_failed name _ s2) as [[] s3]. cbn [snd] in Hrng, Hdraws.
  cbv [bind _emit modify calculate_backoff random_uniform ret].
  cbn [fst snd rng draws set_events set_draws]. rewrite Hrng, Hdraws.
  eexists. split; [reflexivity|]. split; reflexivity.
Qed.

Lemma retryable_failure_sleeps_and_retries_witness :
  exists after_sleep,
    fst (resume_of (fst (retry_loop (Tests.retries 1) [0; 1]%nat None Tests.single))
           (Raise (MockError 500)) Tests.single)
    = Await (Sleep (fst (calculate_backoff 0 Tests.single) / 1000)) after_sleep /\
    (forall v, after_sleep (Return v) =
               retry_loop (Tests.retries 1) [1%nat] (Some (MockError 500))) /\
    (forall e', after_sleep (Raise e') = ret (Done (Raise e'))).
Proof.
  apply (retryable_failure_sleeps_and_retries (Tests.retries 1) 0 [1%nat] None Tests.single
           (snd (retry_loop (Tests.retries 1) [0; 1]%nat None Tests.single))
           "key-1" None
           (resume_of (fst (retry_loop (Tests.retries 1) [0; 1]%nat None Tests.single)))
           (MockError 500) Tests.single).
  - reflexivity.
  - reflexivity.
  - reflexivity.
Defined.

(** X14. When [fn] returns, the call ends with that value, and the key is
    credited with a success whose latency is the time between the clock
    reading taken just before [fn] was awaited and the one taken on its
    return: the record of the key is rewritten by [mark_success], no other
    record changes, and [executeSuccess] is the last event emitted.  [fn]
    was awaited under the timeout of the options, if that is set and not 0. *)
Theorem successful_attempt_is_credited (options : ExecuteOptions) (attempt : nat)
    (rest : list nat) (last_error : option PyError) (s s1 : State) (name : string)
    (timeout : option Z) (resume : Outcome -> State -> Task * State)
    (v : PyValue) (s2 : State) (r : nat) :
  retry_loop options (attempt :: rest) last_error s =
    (Await (CallFn name timeout) resume, s1) ->
  find_from name (keys s2) 0 = Some r ->
  let duration := clock s2 (reads s2) - clock s1 (pred (reads s1)) in
  timeout = wait_for_timeout options /\
  fst (resume (Return v) s2) = Done (Return v) /\
  keys (snd (resume (Return v) s2)) = alter (record_success (Some duration)) r (keys s2) /\
  hd_error (events (snd (resume (Return v) s2))) = Some (executeSuccess name duration).
Proof.
  intros Hloop Hf duration.
  destruct (retry_loop_awaits_fn _ _ _ _ _ _ _ _ _ Hloop) as (Ht & _ & ->).
  split; [exact Ht|]. split; [apply attempt_succeeded_task|].
  unfold attempt_succeeded, bind, time_ms. fold duration.
  pose proof (mark_success_keys name (Some duration) (set_reads (S (reads s2)) s2) r Hf) as Hk.
  destruct (mark_success name (Some duration) (set_reads (S (reads s2)) s2)) as [[] s3].
  cbn [snd] in Hk. cbn. split; [exact Hk | reflexivity].
Qed.

(** The single-key manager while its first attempt awaits [fn]. *)
Definition awaiting : State := snd (retry_loop default_options [0%nat] None Tests.single).

Lemma successful_attempt_is_credited_witness :
  fst (resume_of (fst (retry_loop default_options [0%nat] None Tests.single))
         (Return (PyStr "ok")) awaiting) = Done (Return (PyStr "ok")) /\
  keys (snd (resume_of (fst (retry_loop default_options [0%nat] None Tests.single))
               (Return (PyStr "ok")) awaiting))
  = alter (record_success (Some 1)) 0%nat (keys awaiting).
Proof.
  pose proof (successful_attempt_is_credited default_options 0 [] None Tests.single
                awaiting "key-1" None
                (resume_of (fst (retry_loop default_options [0%nat] None Tests.single)))
                (PyStr "ok") awaiting 0 eq_refl eq_refl) as (_ & H1 & H2 & _).
  split; [exact H1 | exact H2].
Defined.

(** ** Construction: the registry built from [initial_keys] *)

Lemma dict_set_keys (k : string) (v : Q * string) (d : list (string * (Q * string))) (m : string) :
  In m (map fst (dict_set k v d)) <-> m = k \/ In m (map fst d).
Proof.
  induction d as [|[k' v'] d IH]; cbn [dict_set map In fst].
  - intuition.
  - destruct (String.eqb_spec k' k) as [->|Hne]; cbn [map In fst]; [intuition|].
    rewrite IH. intuition.
Qed.

Lemma dict_set_NoDup (k : string) (v : Q * string) (d : list (string * (Q * string))) :
  List.NoDup (map fst d) -> List.NoDup (map fst (dict_set k v d)).
Proof.
  induction d as [|[k' v'] d IH]; cbn [dict_set map fst]; intros Hnd.
  - constructor; [intros [] | constructor].
  - apply List.NoDup_cons_iff in Hnd as [Hni Hnd].
    destruct (String.eqb_spec k' k) as [->|Hne]; cbn [map fst].
    + constructor; assumption.
    + constructor; [|apply IH; exact Hnd].
      rewrite dict_set_keys. intros [E | Hin]; [congruence | contradiction].
Qed.

Lemma dict_set_entries (k : string) (v : Q * string) (d : list (string * (Q * string)))
    (m : string) (w : Q * string) :
  List.NoDup (map fst d) ->
  In (m, w) (dict_set k v d) -> (m = k /\ w = v) \/ (m <> k /\ In (m, w) d).
Proof.
  induction d as [|[k' v'] d IH]; cbn [dict_set map fst In]; intros Hnd.
  - intros [[= <- <-] | []]. left. auto.
  - apply List.NoDup_cons_iff in Hnd as [Hni Hnd].
    destruct (String.eqb_spec k' k) as [->|Hne]; cbn [In].
    + intros [[= <- <-] | Hin]; [left; auto|]. right. split; [|right; exact Hin].
      intros ->. apply Hni. apply in_map_iff. exists (k, w). auto.
    + intros [[= <- <-] | Hin]; [right; auto|].
      destruct (IH Hnd Hin) as [H | [H1 H2]]; [left; exact H | right; auto].
Qed.

Lemma unique_map_snoc (l : list KeySpec) (x : KeySpec) :
  unique_map (l ++ [x]) =
    if String.eqb (spec_key x) "" then unique_map l
    else dict_set (spec_key x) (spec_weight x, spec_provider x) (unique_map l).
Proof. unfold unique_map. rewrite fold_left_app. reflexivity. Qed.

(** What [unique_map] holds after the loop over [input_keys]. *)
Lemma unique_map_spec (specs : list KeySpec) :
  List.NoDup (map fst (unique_map specs)) /\
  (forall name, In name (map fst (unique_map specs)) <->
                name <> ""%string /\ In name (map spec_key specs)) /\
  (forall name w p, In (name, (w, p)) (unique_map specs) ->
     exists pre sp post, specs = pre ++ sp :: post /\
       ~ In name (map spec_key post) /\
       spec_key sp = name /\ spec_weight sp = w /\ spec_provider sp = p).
Proof.
  induction specs as [|x l (IH1 & IH2 & IH3)] using rev_ind.
  - cbn. split; [constructor|]. split; [intuition | intros ? ? ? []].
  - rewrite unique_map_snoc. destruct (String.eqb_spec (spec_key x) "") as [He|Hne].
    + split; [exact IH1|]. split.
      * intros name. rewrite IH2, map_app, in_app_iff. cbn [map In]. rewrite He.
        intuition congruence.
      * intros name w p Hin. destruct (IH3 name w p Hin) as (pre & sp & post & -> & Hni & Hsp).
        exists pre, sp, (post ++ [x]). rewrite <- app_assoc. split; [reflexivity|].
        split; [|exact Hsp]. rewrite map_app, in_app_iff. cbn [map In]. rewrite He.
        intros [H | [H | []]]; [contradiction|].
        assert (Hk : In name (map fst (unique_map (pre ++ sp :: post)))).
        { apply in_map_iff. exists (name, (w, p)). auto. }
        apply IH2 in Hk as [Hk _]. congruence.
    + split; [apply dict_set_NoDup; exact IH1|]. split.
      * intros name. rewrite dict_set_keys, IH2, map_app, in_app_iff. cbn [map In].
        split.
        -- intros [-> | [H1 H2]]; auto.
        -- intros [H1 [H2 | [H2 | []]]]; auto.
      * intros name w p Hin. apply (dict_set_entries _ _ _ _ _ IH1) in Hin.
        destruct Hin as [[-> [= -> ->]] | [Hn Hin]].
        -- exists l, x, []. cbn. auto.
        -- destruct (IH3 name w p Hin) as (pre & sp & post & -> & Hni & Hsp).
           exists pre, sp, (post ++ [x]). rewrite <- app_assoc. split; [reflexivity|].
           split; [|exact Hsp]. rewrite map_app, in_app_iff. cbn [map In].
           intros [H | [H | []]]; [contradiction | congruence].
Qed.

(** X15. The constructor registers one key per distinct non-empty name of
    [initial_keys]: the names of the registry are without repetition and are
    exactly the non-empty names given; every record is a fresh one (CLOSED,
    all counters 0), and when a name is given several times its weight and
    provider are those of the last record with that name. *)
Theorem constructor_registry
    (initial_keys : list KeySpec) (with_storage : bool) (strat : Strategy)
    (with_fallback : bool) (concurrency : option Z) (clk : nat -> Z) (rnd : nat -> Q) :
  let ks := keys (ApiKeyManager initial_keys with_storage strat with_fallback concurrency
                    clk rnd) in
  List.NoDup (map key ks) /\
  (forall name, In name (map key ks) <->
                name <> ""%string /\ In name (map spec_key initial_keys)) /\
  (forall k, In k ks ->
     exists pre sp post, initial_keys = pre ++ sp :: post /\
       ~ In (key k) (map spec_key post) /\
       k = new_KeyState (spec_key sp) (spec_weight sp) (spec_provider sp)).
Proof.
  cbn [ApiKeyManager keys]. destruct (unique_map_spec initial_keys) as (H1 & H2 & H3).
  assert (Hkeys : map key (map (fun kv => new_KeyState (fst kv) (fst (snd kv)) (snd (snd kv)))
                             (unique_map initial_keys)) = map fst (unique_map initial_keys)).
  { rewrite map_map. apply map_ext. reflexivity. }
  cbv zeta. rewrite Hkeys. split; [exact H1|]. split; [exact H2|].
  intros k Hin. apply in_map_iff in Hin as ([name [w p]] & <- & Hin). cbn [fst snd].
  destruct (H3 name w p Hin) as (pre & sp & post & E & Hni & <- & <- & <-).
  exists pre, sp, post. auto.
Qed.

(** Each name identifies one record: the lookup by name that [mark_success]
    and [mark_failed] perform finds the record at any given position. *)
Lemma find_from_NoDup (ks : list KeyState) (i r : nat) (k : KeyState) :
  List.NoDup (map key ks) -> ks !! r = Some k -> find_from (key k) ks i = Some (i + r)%nat.
Proof.
  revert i r. induction ks as [|k0 ks IH]; intros i r Hnd Hk; [discriminate|].
  cbn [map] in Hnd. apply List.NoDup_cons_iff in Hnd as [Hni Hnd]. cbn [find_from].
  destruct r as [|r]; cbn in Hk.
  - injection Hk as ->. rewrite String.eqb_refl. f_equal. lia.
  - destruct (String.eqb_spec (key k0) (key k)) as [E|_].
    + exfalso. apply Hni. rewrite E. apply in_map. apply list_elem_of_In.
      exact (list_elem_of_lookup_2 _ _ _ Hk).
    + rewrite (IH (S i) r Hnd Hk). f_equal. lia.
Qed.

(** X16. On a constructed manager and whatever is done with it, names stay
    unambiguous: the registry never holds two records with the same name, so
    the lookup by name of [mark_success] and [mark_failed] reaches exactly
    the record whose name was handed out. *)
Theorem names_identify_records
    (initial_keys : list KeySpec) (with_storage : bool) (strat : Strategy)
    (with_fallback : bool) (concurrency : option Z) (clk : nat -> Z) (rnd : nat -> Q)
    (l : Loop) :
  reachable (ApiKeyManager initial_keys with_storage strat with_fallback concurrency
               clk rnd) l ->
  List.NoDup (map key (keys (manager l))) /\
  forall r k, keys (manager l) !! r = Some k ->
              find_from (key k) (keys (manager l)) 0 = Some r.
Proof.
  intros Hreach.
  assert (Hnd : List.NoDup (map key (keys (manager l)))).
  { pose proof (evolves_map identity _ _ key_step_identity (reachable_evolves _ _ Hreach))
      as Hid.
    assert (Hk : forall ks, map key ks = map (fun t => fst (fst t)) (map identity ks)).
    { intros ks. rewrite map_map. reflexivity. }
    rewrite Hk, Hid, <- Hk. cbn [ApiKeyManager keys].
    rewrite map_map. cbn [new_KeyState key].
    exact (proj1 (unique_map_spec initial_keys)). }
  split; [exact Hnd|]. intros r k Hk. exact (find_from_NoDup _ 0 r k Hnd Hk).
Qed.

Lemma names_identify_records_witness :
  find_from "key-1" (keys cooling) 0 = Some 0%nat.
Proof.
  pose proof (names_identify_records [mkKeySpec "key-1" 1 "default"] true StandardStrategy
                false None Tests.test_clock Tests.test_rng
                (after_one_failure (MockError 500))
                (after_one_failure_reachable (MockError 500))) as [_ H].
  exact (H 0%nat failed_once eq_refl).
Defined.

(** ** Persistence: [save_state] and [load_state]

    [save_state] stores the dictionary [{k.key: k.model_dump() for k in
    self.keys}]; [load_state], called by the constructor when a storage
    adapter is given, reads it back with a synchronous [get_item] and
    overwrites the attributes of every key whose name it contains. *)

(** [raw[name]] in the dictionary built from the records [raw]: a later
    record with the same name has replaced an earlier one. *)
Definition raw_get (name : string) (raw : list KeyState) : option KeyState :=
  List.find (fun st => String.eqb (key st) name) (rev raw).

(** [apply_state(raw)]: every attribute of the stored record is assigned. *)
Definition apply_state (raw : option (list KeyState)) : M unit :=
  match raw with
  | None | Some [] => ret tt
  | Some raw =>
      modify (fun s => set_keys (map (fun k => match raw_get (key k) raw with
                                               | Some st => st
                                               | None => k
                                               end) (keys s)) s)
  end.

Definition load_state : M unit :=
  st <- gets storage ;;
  match st with
  | None => ret tt
  | Some raw => apply_state raw
  end.

(** [ApiKeyManager(initial_keys, storage, ...)] on an adapter that holds
    [stored] under the storage key. *)
Definition restart (initial_keys : list KeySpec) (stored : option (list KeyState))
    (strat : Strategy) (with_fallback : bool) (concurrency : option Z)
    (clk : nat -> Z) (rnd : nat -> Q) : State :=
  snd (load_state (set_storage (Some stored)
                     (ApiKeyManager initial_keys true strat with_fallback concurrency
                        clk rnd))).

(** Whether an adapter is configured never changes. *)
Definition same_adapter (s s' : State) : Prop := storage s' = None <-> storage s = None.

Lemma same_adapter_refl s : same_adapter s s.
Proof. unfold same_adapter. tauto. Qed.

Lemma same_adapter_trans a b c : same_adapter a b -> same_adapter b c -> same_adapter a c.
Proof. unfold same_adapter. tauto. Qed.

Lemma same_adapter_same (s s' : State) : storage s' = storage s -> same_adapter s s'.
Proof. unfold same_adapter. intros ->. tauto. Qed.

Lemma same_adapter_time_ms : respects same_adapter time_ms.
Proof. intros s. apply same_adapter_same. reflexivity. Qed.

Lemma same_adapter_random_uniform a b : respects same_adapter (random_uniform a b).
Proof. intros s. apply same_adapter_same. reflexivity. Qed.

Lemma same_adapter_emit ev : respects same_adapter (_emit ev).
Proof. intros s. apply same_adapter_same. reflexivity. Qed.

Lemma same_adapter_mutate r f : respects same_adapter (mutate r f).
Proof. intros s. apply same_adapter_same. reflexivity. Qed.

Lemma same_adapter_save_state : respects same_adapter save_state.
Proof.
  intros s. unfold same_adapter, save_state, modify. cbn.
  destruct (storage s) eqn:E; cbn; [|rewrite E]; split; intros; congruence.
Qed.

Lemma same_adapter_deref r : respects same_adapter (deref r).
Proof. intros s. apply same_adapter_refl. Qed.

Lemma same_adapter_resolve rs : respects same_adapter (resolve rs).
Proof. intros s. apply same_adapter_refl. Qed.

Lemma same_adapter_all_refs : respects same_adapter all_refs.
Proof. intros s. apply same_adapter_refl. Qed.

Lemma same_adapter_find_key name : respects same_adapter (find_key name).
Proof. intros s. apply same_adapter_refl. Qed.

Create HintDb same_adapter_db.
#[local] Hint Resolve same_adapter_time_ms same_adapter_random_uniform same_adapter_emit
  same_adapter_mutate same_adapter_save_state same_adapter_deref same_adapter_resolve
  same_adapter_all_refs same_adapter_find_key : same_adapter_db.

Ltac same_adapter_steps :=
  repeat first
    [ solve [auto with same_adapter_db]
    | apply (respects_ret _ same_adapter_refl)
    | apply (respects_gets _ same_adapter_refl)
    | apply (respects_comprehension _ same_adapter_refl same_adapter_trans); intros
    | apply (respects_bind _ same_adapter_trans); [|intros]
    | match goal with
      | |- respects _ (match ?x with _ => _ end) => destruct x
      | |- respects _ (if ?b then _ else _) => destruct b
      | |- respects _ (let _ := _ in _) => cbv zeta
      end ].

Lemma same_adapter_get_key : respects same_adapter get_key.
Proof.
  unfold get_key, eligible, _is_on_cooldown, not_dead, key_of, strategy_next, weighted_next,
    use_selected.
  same_adapter_steps.
Qed.

Lemma same_adapter_get_key_by_provider p : respects same_adapter (get_key_by_provider p).
Proof.
  unfold get_key_by_provider, has_provider, eligible, _is_on_cooldown, not_dead, key_of,
    strategy_next, weighted_next, use_selected.
  same_adapter_steps.
Qed.

Lemma same_adapter_mark_success name d : respects same_adapter (mark_success name d).
Proof. unfold mark_success. same_adapter_steps. Qed.

Lemma same_adapter_mark_failed name c : respects same_adapter (mark_failed name c).
Proof. unfold mark_failed, open_circuit. same_adapter_steps. Qed.

Lemma same_adapter_calculate_backoff a : respects same_adapter (calculate_backoff a).
Proof. unfold calculate_backoff. same_adapter_steps. Qed.

Lemma reachable_adapter (init : State) (l : Loop) :
  reachable init l -> (storage (manager l) = None <-> storage init = None).
Proof.
  intros Hreach.
  exact (proj1 (reachable_respects same_adapter same_adapter_refl
                  same_adapter_trans same_adapter_get_key same_adapter_get_key_by_provider
                  same_adapter_mark_success same_adapter_mark_failed same_adapter_time_ms
                  same_adapter_emit same_adapter_calculate_backoff
                  (fun n s => same_adapter_refl s) init l Hreach)).
Qed.

Lemma find_key_NoDup (l : list KeyState) (st : KeyState) :
  List.NoDup (map key l) -> In st l ->
  List.find (fun x => String.eqb (key x) (key st)) l = Some st.
Proof.
  induction l as [|x l IH]; intros Hnd Hin; [contradiction|].
  cbn [map] in Hnd. apply List.NoDup_cons_iff in Hnd as [Hni Hnd]. cbn [List.find].
  destruct Hin as [-> | Hin].
  - rewrite String.eqb_refl. reflexivity.
  - destruct (String.eqb_spec (key x) (key st)) as [E|_]; [|exact (IH Hnd Hin)].
    exfalso. apply Hni. rewrite E. apply in_map. exact Hin.
Qed.

Lemma raw_get_NoDup (raw : list KeyState) (st : KeyState) :
  List.NoDup (map key raw) -> In st raw -> raw_get (key st) raw = Some st.
Proof.
  intros Hnd Hin. unfold raw_get. apply find_key_NoDup.
  - rewrite map_rev. apply List.NoDup_rev. exact Hnd.
  - apply in_rev in Hin. exact Hin.
Qed.

Lemma apply_state_keys (raw : list KeyState) (s : State) :
  raw <> [] ->
  keys (snd (apply_state (Some raw) s)) =
    map (fun k => match raw_get (key k) raw with
                  | Some st => st
                  | None => k
                  end) (keys s).
Proof. destruct raw; [contradiction | reflexivity]. Qed.

Lemma map_raw_get (whole part ks : list KeyState) :
  (forall st, In st part -> raw_get (key st) whole = Some st) ->
  map key ks = map key part ->
  map (fun k => match raw_get (key k) whole with
                | Some st => st
                | None => k
                end) ks = part.
Proof.
  revert ks. induction part as [|st part IH]; intros [|k ks] Hall Hnames; try discriminate.
  - reflexivity.
  - cbn [map] in *. injection Hnames as Hk Hrest. rewrite Hk.
    rewrite (Hall st (or_introl eq_refl)). f_equal.
    apply IH; [|exact Hrest]. intros st' Hin. apply Hall. right. exact Hin.
Qed.

(** Loading a snapshot with the names of the registry, in its order, puts
    the snapshot in place of the registry. *)
Lemma apply_state_same_names (raw : list KeyState) (s : State) :
  List.NoDup (map key raw) ->
  map key (keys s) = map key raw ->
  keys (snd (apply_state (Some raw) s)) = raw.
Proof.
  intros Hnd Hnames. destruct raw as [|st0 raw'] eqn:Eraw.
  - cbn. destruct (keys s); [reflexivity | discriminate].
  - rewrite <- Eraw in *. rewrite apply_state_keys by (rewrite Eraw; discriminate).
    apply map_raw_get; [|exact Hnames].
    intros st. apply raw_get_NoDup. exact Hnd.
Qed.

Lemma dict_set_names (k : string) (v v' : Q * string) (d d' : list (string * (Q * string))) :
  map fst d = map fst d' -> map fst (dict_set k v d) = map fst (dict_set k v' d').
Proof.
  revert d'. induction d as [|[k0 v0] d IH]; intros [|[k0' v0'] d'] H; try discriminate.
  - reflexivity.
  - cbn [map fst] in H. injection H as <- H. cbn [dict_set].
    destruct (String.eqb k0 k); cbn [map fst]; f_equal; auto.
Qed.

(** The names registered depend on the names given only. *)
Lemma unique_map_names (a b : list KeySpec) :
  map spec_key a = map spec_key b -> map fst (unique_map a) = map fst (unique_map b).
Proof.
  unfold unique_map.
  assert (H : forall a b d d', map spec_key a = map spec_key b -> map fst d = map fst d' ->
            map fst (fold_left (fun d ks => if String.eqb (spec_key ks) ""
                                            then d
                                            else dict_set (spec_key ks)
                                                   (spec_weight ks, spec_provider ks) d) a d)
            = map fst (fold_left (fun d ks => if String.eqb (spec_key ks) ""
                                              then d
                                              else dict_set (spec_key ks)
                                                     (spec_weight ks, spec_provider ks) d) b d')).
  { clear. induction a as [|x a IH]; intros [|y b] d d' Hab Hd; try discriminate.
    - exact Hd.
    - cbn [map] in Hab. injection Hab as Hxy Hab. cbn [fold_left]. apply IH; [exact Hab|].
      rewrite Hxy. destruct (String.eqb (spec_key y) ""); [exact Hd|].
      apply dict_set_names. exact Hd. }
  intros Hab. apply H; [exact Hab | reflexivity].
Qed.

(** X17. What [save_state] writes is the whole registry, and a manager
    constructed later on the same storage, for the same names in the same
    order, starts from exactly the saved records: circuit states, counters,
    times and latencies are resumed, and so are the saved weights and
    providers, whatever the new [initial_keys] say. *)
Theorem restart_resumes_saved_state
    (initial_keys : list KeySpec) (strat : Strategy) (with_fallback : bool)
    (concurrency : option Z) (clk : nat -> Z) (rnd : nat -> Q) (l : Loop)
    (initial_keys' : list KeySpec) (strat' : Strategy) (with_fallback' : bool)
    (concurrency' : option Z) (clk' : nat -> Z) (rnd' : nat -> Q) :
  reachable (ApiKeyManager initial_keys true strat with_fallback concurrency clk rnd) l ->
  map spec_key initial_keys' = map spec_key initial_keys ->
  storage (snd (save_state (manager l))) = Some (Some (keys (manager l))) /\
  keys (restart initial_keys' (Some (keys (manager l))) strat' with_fallback' concurrency'
          clk' rnd') = keys (manager l).
Proof.
  intros Hreach Hnames. split.
  - pose proof (reachable_adapter _ _ Hreach) as Had. cbn [ApiKeyManager storage] in Had.
    unfold save_state, modify. cbn [snd].
    destruct (storage (manager l)) as [x|] eqn:E; [reflexivity|].
    exfalso. assert (Hn : Some (@None (list KeyState)) = None) by (apply Had; reflexivity).
    discriminate.
  - assert (Hk : forall ks, map key ks = map (fun t => fst (fst t)) (map identity ks)).
    { intros ks. rewrite map_map. reflexivity. }
    pose proof (evolves_map identity _ _ key_step_identity (reachable_evolves _ _ Hreach))
      as Hid.
    assert (Hsame : map key (keys (manager l)) = map fst (unique_map initial_keys)).
    { rewrite Hk, Hid, <- Hk. cbn [ApiKeyManager keys]. rewrite map_map. reflexivity. }
    unfold restart, load_state, bind, gets. cbn [storage set_storage].
    apply apply_state_same_names.
    + rewrite Hsame. exact (proj1 (unique_map_spec initial_keys)).
    + rewrite Hsame. cbn [ApiKeyManager keys set_storage]. rewrite map_map.
      cbn [new_KeyState key]. apply unique_map_names. exact Hnames.
Qed.

Lemma restart_resumes_saved_state_witness :
  keys (restart [mkKeySpec "key-1" 5 "other"] (Some (keys cooling)) LatencyStrategy true
          (Some 3) Tests.test_clock Tests.test_rng) = [failed_once].
Proof.
  pose proof (restart_resumes_saved_state [mkKeySpec "key-1" 1 "default"] StandardStrategy
                false None Tests.test_clock Tests.test_rng
                (after_one_failure (MockError 500))
                [mkKeySpec "key-1" 5 "other"] LatencyStrategy true (Some 3)
                Tests.test_clock Tests.test_rng
                (after_one_failure_reachable (MockError 500)) eq_refl) as [_ H].
  exact H.
Defined.

(** ** What is stored is up to date *)

(** Between [s] and [s'] either neither the registry nor the storage has
    changed, or the storage holds the registry of [s'] (or there is no
    adapter). *)
Definition persisted (s s' : State) : Prop :=
  (keys s' = keys s /\ storage s' = storage s) \/
  storage s' = Some (Some (keys s')) \/
  storage s' = None.

Lemma persisted_refl s : persisted s s.
Proof. left. split; reflexivity. Qed.

Lemma persisted_trans a b c : persisted a b -> persisted b c -> persisted a c.
Proof.
  unfold persisted. intros Hab [[Hk Hs] | Hbc]; [|right; exact Hbc].
  rewrite Hk, Hs. exact Hab.
Qed.

Lemma persisted_time_ms : respects persisted time_ms.
Proof. intros s. left. split; reflexivity. Qed.

Lemma persisted_emit ev : respects persisted (_emit ev).
Proof. intros s. left. split; reflexivity. Qed.

Lemma persisted_calculate_backoff a : respects persisted (calculate_backoff a).
Proof. intros s. left. split; reflexivity. Qed.

(** A computation after which the storage is up to date wherever it starts. *)
Definition saves {A} (c : M A) : Prop := forall s0 s, persisted s0 (snd (c s)).

Lemma saves_save_state : saves save_state.
Proof.
  intros s0 s. right. unfold save_state, modify. cbn [snd].
  destruct (storage s) eqn:E; [left; reflexivity | right; exact E].
Qed.

Lemma saves_bind {A B} (c : M A) (f : A -> M B) : (forall a, saves (f a)) -> saves (bind c f).
Proof. intros Hf s0 s. unfold bind. destruct (c s) as [a s1]. apply Hf. Qed.

Lemma saves_then {A B} (c : M A) (f : A -> M B) :
  saves c -> (forall a, respects persisted (f a)) -> saves (bind c f).
Proof.
  intros Hc Hf s0 s. unfold bind. specialize (Hc s0 s). destruct (c s) as [a s1].
  eapply persisted_trans; [exact Hc | apply Hf].
Qed.

Lemma persisted_mark_success name d : respects persisted (mark_success name d).
Proof.
  intros s. unfold mark_success.
  rewrite (bind_run (find_key name) _ s s (find_from name (keys s) 0) eq_refl).
  destruct (find_from name (keys s) 0) as [r|]; [|apply persisted_refl].
  rewrite (bind_run (deref r) _ s s (keys s !! r) eq_refl).
  destruct (keys s !! r) as [k|]; [|apply persisted_refl].
  cbv zeta. apply saves_bind. intros _. apply saves_bind. intros _. apply saves_save_state.
Qed.

Lemma persisted_mark_failed name c : respects persisted (mark_failed name c).
Proof.
  intros s. unfold mark_failed.
  rewrite (bind_run (find_key name) _ s s (find_from name (keys s) 0) eq_refl).
  destruct (find_from name (keys s) 0) as [r|]; [|apply persisted_refl].
  rewrite (bind_run (deref r) _ s s (keys s !! r) eq_refl).
  destruct (keys s !! r) as [k|]; [|apply persisted_refl].
  destruct (CircuitState_eqb (circuitState k) DEAD); [apply persisted_refl|].
  destruct (negb (markKeyFailed c)); [apply persisted_refl|].
  apply saves_bind. intros now. apply saves_bind. intros _. apply saves_bind. intros _.
  apply saves_save_state.
Qed.

Lemma saves_use_selected (r : nat) : saves (use_selected (Some r)).
Proof.
  unfold use_selected. apply saves_bind. intros now. apply saves_bind. intros _.
  apply saves_then; [apply saves_save_state|]. intros _ s. apply persisted_refl.
Qed.

(** A key that fails the eligibility test has not been touched by it. *)
Lemma eligible_false_unchanged (r : nat) (s : State) :
  fst (eligible r s) = false ->
  keys (snd (eligible r s)) = keys s /\ storage (snd (eligible r s)) = storage s.
Proof.
  destruct (keys s !! r) as [k|] eqn:Hk.
  2: { rewrite (eligible_absent r s Hk). auto. }
  unfold eligible.
  rewrite (bind_run (not_dead r) _ s s
             (negb (CircuitState_eqb (circuitState k) DEAD)))
    by (cbv [not_dead deref gets bind ret]; rewrite Hk; reflexivity).
  destruct (circuitState k) eqn:Hc; cbn [CircuitState_eqb negb]; [| | |auto].
  all: unfold bind; rewrite (is_on_cooldown_run r s k Hk), Hc.
  2: destruct (half_open_due _ _); [cbn; discriminate|].
  all: cbn; auto.
Qed.

Lemma provider_eligible_false_unchanged (p : string) (r : nat) (s : State) :
  fst ((hp <- has_provider p r ;; if hp then eligible r else ret false) s) = false ->
  keys (snd ((hp <- has_provider p r ;; if hp then eligible r else ret false) s)) = keys s /\
  storage (snd ((hp <- has_provider p r ;; if hp then eligible r else ret false) s))
  = storage s.
Proof.
  rewrite (bind_run (has_provider p r) _ s s
             (match keys s !! r with
              | Some k => String.eqb (provider k) p
              | None => false
              end) eq_refl).
  destruct (keys s !! r) as [k|]; [|auto].
  destruct (String.eqb (provider k) p); [apply eligible_false_unchanged | auto].
Qed.

Lemma comprehension_nil_unchanged (cond : nat -> M bool) (rs : list nat) (s : State) :
  (forall r s, fst (cond r s) = false ->
               keys (snd (cond r s)) = keys s /\ storage (snd (cond r s)) = storage s) ->
  fst (comprehension cond rs s) = [] ->
  keys (snd (comprehension cond rs s)) = keys s /\
  storage (snd (comprehension cond rs s)) = storage s.
Proof.
  intros Hcond. revert s. induction rs as [|r rs IH]; intros s; cbn [comprehension].
  - auto.
  - specialize (Hcond r s). destruct (cond r s) as [b s1] eqn:Hc.
    specialize (IH s1). destruct (comprehension cond rs s1) as [rest s2] eqn:Hr.
    rewrite (bind_run _ _ _ _ _ Hc), (bind_run _ _ _ _ _ Hr).
    cbn [ret fst snd] in *. destruct b; [discriminate|]. intros ->.
    destruct (Hcond eq_refl) as [H1 H2]. destruct (IH eq_refl) as [H3 H4].
    split; congruence.
Qed.

Lemma scan_valid (cond : nat -> M bool) (p : option string) (rs : list nat) (s : State) :
  (forall r, respects same_life (cond r)) ->
  (forall r s, fst (cond r s) = true -> live_of p (map life (keys s)) r) ->
  forall r, In r (fst (comprehension cond rs s)) ->
            exists k, keys (snd (comprehension cond rs s)) !! r = Some k.
Proof.
  intros Hres Hcond r Hi.
  pose proof (respects_comprehension same_life same_life_refl same_life_trans cond rs Hres s)
    as Hlife.
  destruct (comprehension_sound cond p Hres Hcond rs s r Hi) as [_ Hl].
  unfold same_life in Hlife. rewrite <- Hlife in Hl.
  destruct (live_of_lookup p _ r Hl) as (k & Hk & _). eauto.
Qed.

Lemma saves_selection (cands : list nat) (s0 s : State) :
  cands <> [] ->
  (forall r, In r cands -> exists k, keys s !! r = Some k) ->
  persisted s0 (snd ((selected <- strategy_next cands ;; use_selected selected) s)).
Proof.
  intros Hne Hvalid.
  destruct (strategy_next_member cands s Hne Hvalid) as (r & k & _ & _ & Hf & _).
  unfold bind. destruct (strategy_next cands s) as [sel s1]. cbn [fst] in Hf. subst sel.
  apply saves_use_selected.
Qed.

Lemma persisted_get_key : respects persisted get_key.
Proof.
  intros s. unfold get_key.
  set (rs := seq 0 (length (keys s))).
  rewrite (bind_run all_refs _ s s rs eq_refl). unfold bind at 1.
  pose proof (comprehension_nil_unchanged eligible rs s eligible_false_unchanged) as Hnil.
  pose proof (scan_valid eligible None rs s same_life_eligible eligible_live) as Hvalid.
  destruct (comprehension eligible rs s) as [cands s1]. cbn [fst snd] in *.
  destruct cands as [|c cands'].
  - destruct (Hnil eq_refl) as [Hk Hs].
    rewrite (bind_run _ _ _ _ _ (comprehension_not_dead rs s1)).
    left. destruct (List.filter (alive s1) rs).
    + cbn. auto.
    + cbv [resolve gets bind ret key_of deref].
      destruct (first_ref _); cbn; auto.
  - apply saves_selection; [discriminate | exact Hvalid].
Qed.

Lemma persisted_get_key_by_provider p : respects persisted (get_key_by_provider p).
Proof.
  intros s. unfold get_key_by_provider.
  set (rs := seq 0 (length (keys s))).
  rewrite (bind_run all_refs _ s s rs eq_refl). unfold bind at 1.
  pose proof (comprehension_nil_unchanged _ rs s (provider_eligible_false_unchanged p))
    as Hnil.
  pose proof (scan_valid _ (Some p) rs s (same_life_provider_eligible p)
                (provider_eligible_live p)) as Hvalid.
  destruct (comprehension _ rs s) as [cands s1]. cbn [fst snd] in *.
  destruct cands as [|c cands'].
  - left. exact (Hnil eq_refl).
  - apply saves_selection; [discriminate | exact Hvalid].
Qed.

(** X18. With a synchronous storage adapter, what is stored never lags
    behind: on a manager constructed on an empty adapter and whatever is done
    with it, either nothing has been stored yet and every record is still as
    constructed, or the adapter holds exactly the current registry.  Every
    change of a record (a selection, a probe becoming due, a success, a
    failure) is saved before the method that made it returns. *)
Theorem storage_is_up_to_date
    (initial_keys : list KeySpec) (strat : Strategy) (with_fallback : bool)
    (concurrency : option Z) (clk : nat -> Z) (rnd : nat -> Q) (l : Loop) :
  reachable (ApiKeyManager initial_keys true strat with_fallback concurrency clk rnd) l ->
  (storage (manager l) = Some None /\
   keys (manager l) =
     keys (ApiKeyManager initial_keys true strat with_fallback concurrency clk rnd)) \/
  storage (manager l) = Some (Some (keys (manager l))).
Proof.
  intros Hreach.
  pose proof (proj1 (reachable_respects persisted persisted_refl persisted_trans
                       persisted_get_key persisted_get_key_by_provider
                       persisted_mark_success persisted_mark_failed persisted_time_ms
                       persisted_emit persisted_calculate_backoff
                       (fun n s => or_introl (conj eq_refl eq_refl)) _ l Hreach))
    as [[Hk Hs] | [Hs | Hs]].
  - left. split; [exact Hs | exact Hk].
  - right. exact Hs.
  - exfalso. apply (reachable_adapter _ _ Hreach) in Hs. discriminate.
Qed.

Lemma storage_is_up_to_date_witness :
  storage cooling = Some (Some (keys cooling)).
Proof.
  destruct (storage_is_up_to_date [mkKeySpec "key-1" 1 "default"] StandardStrategy
              false None Tests.test_clock Tests.test_rng
              (after_one_failure (MockError 500))
              (after_one_failure_reachable (MockError 500))) as [[H _] | H].
  - discriminate H.
  - exact H.
Defined.

Lemma raw_get_Some (name : string) (raw : list KeyState) (st : KeyState) :
  raw_get name raw = Some st -> In st raw /\ key st = name.
Proof.
  unfold raw_get. intros H. apply List.find_some in H as [Hin He].
  split; [apply in_rev; exact Hin | apply String.eqb_eq; exact He].
Qed.

Lemma raw_get_None (name : string) (raw : list KeyState) :
  ~ In name (map key raw) -> raw_get name raw = None.
Proof.
  intros Hni. unfold raw_get. destruct (List.find _ _) as [st|] eqn:H; [|reflexivity].
  destruct (raw_get_Some name raw st H) as [Hin <-]. exfalso. apply Hni.
  apply in_map. exact Hin.
Qed.

(** X19. [load_state] never renames, adds or removes a key: it replaces the
    record of a key by the stored record of the same name and leaves a key
    without a stored record as it is; stored records under other names are
    ignored.  Without an adapter, with an adapter that holds nothing, or with
    an empty stored dictionary, it does nothing. *)
Theorem load_state_by_name (s : State) :
  map key (keys (snd (load_state s))) = map key (keys s) /\
  (forall r k, keys s !! r = Some k ->
     keys (snd (load_state s)) !! r =
       Some (match storage s with
             | Some (Some raw) => match raw_get (key k) raw with
                                  | Some st => st
                                  | None => k
                                  end
             | _ => k
             end)) /\
  (forall r k raw, keys s !! r = Some k -> storage s = Some (Some raw) ->
     ~ In (key k) (map key raw) -> keys (snd (load_state s)) !! r = Some k) /\
  (storage s = None \/ storage s = Some None \/ storage s = Some (Some []) ->
   load_state s = (tt, s)).
Proof.
  assert (Hrun : load_state s = match storage s with
                                | Some raw => apply_state raw s
                                | None => (tt, s)
                                end).
  { unfold load_state, bind, gets. destruct (storage s); reflexivity. }
  assert (Hlookup : forall r k, keys s !! r = Some k ->
            keys (snd (load_state s)) !! r =
              Some (match storage s with
                    | Some (Some raw) => match raw_get (key k) raw with
                                         | Some st => st
                                         | None => k
                                         end
                    | _ => k
                    end)).
  { intros r k Hk. rewrite Hrun. destruct (storage s) as [[raw|]|]; [|exact Hk..].
    destruct raw as [|st0 raw']; [exact Hk|].
    rewrite apply_state_keys by discriminate.
    change (map ?f ?l) with (f <$> l). rewrite list_lookup_fmap, Hk. reflexivity. }
  split; [|split; [exact Hlookup|split]].
  - rewrite Hrun. destruct (storage s) as [[raw|]|]; [|reflexivity..].
    destruct raw as [|st0 raw']; [reflexivity|].
    rewrite apply_state_keys by discriminate. rewrite map_map. apply map_ext.
    intros k. destruct (raw_get (key k) (st0 :: raw')) as [st|] eqn:Hg; [|reflexivity].
    exact (proj2 (raw_get_Some _ _ _ Hg)).
  - intros r k raw Hk Hs Hni. rewrite (Hlookup r k Hk), Hs, (raw_get_None _ _ Hni).
    reflexivity.
  - rewrite Hrun. intros [-> | [-> | ->]]; reflexivity.
Qed.

(** * The semantic cache

    [SemanticCache] of [manager.py].  The one reading of the clock that
    [set] and [get] make is their argument [now]; [sqrt] stands for
    [x ** 0.5] on floats and [Response] for the type of the cached values. *)

Module SemanticCache.
Section Cache.
Variable Response : Type.
Variable sqrt : Q -> Q.

Record CacheEntry := mkEntry {
  vector : list Q;
  prompt : string;
  response : Response;
  timestamp : Z
}.

Record t := mkCache {
  entries : list CacheEntry;
  threshold : Q;
  ttl_ms : Z
}.

(** [SemanticCache(threshold, ttl_ms)] *)
Definition init (threshold : Q) (ttl_ms : Z) : t := mkCache [] threshold ttl_ms.

(** [set(prompt, vector, response)]; [entries.pop(0)] drops the oldest. *)
Definition set (now : Z) (p : string) (v : list Q) (r : Response) (c : t) : t :=
  let es := List.filter (fun e => negb (String.eqb (prompt e) p)) (entries c)
            ++ [mkEntry v p r now] in
  mkCache (if (500 <? length es)%nat then tl es else es) (threshold c) (ttl_ms c).

Definition _cosine_similarity (vec_a vec_b : list Q) : Q :=
  if negb (length vec_a =? length vec_b)%nat then 0%Q
  else
    let dot_product := sumQ (map (fun ab => (fst ab * snd ab)%Q) (combine vec_a vec_b)) in
    let norm_a := sumQ (map (fun a => (a * a)%Q) vec_a) in
    let norm_b := sumQ (map (fun b => (b * b)%Q) vec_b) in
    let denominator := (sqrt norm_a * sqrt norm_b)%Q in
    if Qeq_bool denominator 0 then 0%Q else (dot_product / denominator)%Q.

(** The loop [for i in range(len(self.entries) - 1, -1, -1)] of [get], with
    [n = i + 1]; the index is always in range. *)
Fixpoint get_loop (now : Z) (v : list Q) (thr : Q) (ttl : Z) (n : nat)
    (es : list CacheEntry) (best_match : option CacheEntry) (highest_similarity : Q)
  : list CacheEntry * option CacheEntry :=
  match n with
  | O => (es, best_match)
  | S i =>
      match es !! i with
      | None => (es, best_match)
      | Some entry =>
          if ttl <? now - timestamp entry then
            get_loop now v thr ttl i (delete i es) best_match highest_similarity
          else
            let similarity := _cosine_similarity v (vector entry) in
            if Qle_bool thr similarity && negb (Qle_bool similarity highest_similarity)
            then get_loop now v thr ttl i es (Some entry) similarity
            else get_loop now v thr ttl i es best_match highest_similarity
      end
  end.

(** [get(vector)]: the value returned and the cache left behind. *)
Definition get (now : Z) (v : list Q) (c : t) : option Response * t :=
  let (es, best_match) :=
    get_loop now v (threshold c) (ttl_ms c) (length (entries c)) (entries c) None (-1)%Q in
  (option_map response best_match, mkCache es (threshold c) (ttl_ms c)).

(** The operations on a cache, and a cache after a sequence of them. *)
Inductive Op :=
  | op_set (now : Z) (p : string) (v : list Q) (r : Response)
  | op_get (now : Z) (v : list Q).

Definition apply_op (c : t) (o : Op) : t :=
  match o with
  | op_set now p v r => set now p v r c
  | op_get now v => snd (get now v c)
  end.

Definition after (ops : list Op) (c : t) : t := fold_left apply_op ops c.

(** An entry that [get] at [now] does not purge. *)
Definition fresh (now ttl : Z) (e : CacheEntry) : bool := negb (ttl <? now - timestamp e).

(** The same scan over the entries in the order in which the loop visits
    them, without the purge. *)
Fixpoint scan (now : Z) (v : list Q) (thr : Q) (ttl : Z) (l : list CacheEntry)
    (best : option CacheEntry) (highest : Q) : option CacheEntry :=
  match l with
  | [] => best
  | entry :: l' =>
      if fresh now ttl entry
         && Qle_bool thr (_cosine_similarity v (vector entry))
         && negb (Qle_bool (_cosine_similarity v (vector entry)) highest)
      then scan now v thr ttl l' (Some entry) (_cosine_similarity v (vector entry))
      else scan now v thr ttl l' best highest
  end.

Lemma get_loop_scan (now : Z) (v : list Q) (thr : Q) (ttl : Z) (n : nat) :
  forall es best highest, (n <= length es)%nat ->
    get_loop now v thr ttl n es best highest =
      (List.filter (fresh now ttl) (take n es) ++ drop n es,
       scan now v thr ttl (rev (take n es)) best highest).
Proof.
  induction n as [|i IH]; intros es best highest Hn.
  - cbn. rewrite drop_0. reflexivity.
  - cbn [get_loop]. destruct (es !! i) as [entry|] eqn:He.
    2: { apply lookup_ge_None in He. lia. }
    rewrite (take_S_r es i entry He), rev_unit, List.filter_app. cbn [List.filter scan].
    unfold fresh at 2 3. destruct (ttl <? now - timestamp entry) eqn:Hexp; cbn [negb andb].
    + rewrite IH by (rewrite length_delete by eauto; lia).
      rewrite delete_take_drop.
      rewrite take_app_le by (rewrite length_take; lia).
      rewrite take_take, Nat.min_id.
      rewrite drop_app_length' by (rewrite length_take; lia).
      rewrite app_nil_r. reflexivity.
    + destruct (Qle_bool thr (_cosine_similarity v (vector entry))
                && negb (Qle_bool (_cosine_similarity v (vector entry)) highest));
        rewrite IH by lia; rewrite (drop_S es entry i He), <- app_assoc; reflexivity.
Qed.

Lemma get_run (now : Z) (v : list Q) (c : t) :
  get now v c =
    (option_map response
       (scan now v (threshold c) (ttl_ms c) (rev (entries c)) None (-1)%Q),
     mkCache (List.filter (fresh now (ttl_ms c)) (entries c)) (threshold c) (ttl_ms c)).
Proof.
  unfold get. rewrite get_loop_scan by lia.
  rewrite firstn_all, drop_all, app_nil_r. reflexivity.
Qed.

(** What the scan leaves: either nothing new qualified, or the entry it
    holds is the first of the best ones in scanning order. *)
Lemma scan_spec (now : Z) (v : list Q) (thr : Q) (ttl : Z) (l : list CacheEntry) :
  forall best highest,
    (scan now v thr ttl l best highest = best /\
     forall e, In e l -> fresh now ttl e = true ->
               (thr <= _cosine_similarity v (vector e))%Q ->
               (_cosine_similarity v (vector e) <= highest)%Q) \/
    (exists before e later,
       l = before ++ e :: later /\
       scan now v thr ttl l best highest = Some e /\
       fresh now ttl e = true /\
       (thr <= _cosine_similarity v (vector e))%Q /\
       (highest < _cosine_similarity v (vector e))%Q /\
       (forall e', In e' before -> fresh now ttl e' = true ->
                   (thr <= _cosine_similarity v (vector e'))%Q ->
                   (_cosine_similarity v (vector e') < _cosine_similarity v (vector e))%Q) /\
       (forall e', In e' later -> fresh now ttl e' = true ->
                   (thr <= _cosine_similarity v (vector e'))%Q ->
                   (_cosine_similarity v (vector e') <= _cosine_similarity v (vector e))%Q)).
Proof.
  induction l as [|x l IH]; intros best highest; cbn [scan].
  - left. split; [reflexivity | intros e []].
  - set (sx := _cosine_similarity v (vector x)).
    destruct (fresh now ttl x && Qle_bool thr sx && negb (Qle_bool sx highest)) eqn:Hq.
    + apply andb_true_iff in Hq as [Hq Hhi]. apply andb_true_iff in Hq as [Hfresh Hthr].
      apply Qle_bool_iff in Hthr. apply negb_true_iff in Hhi.
      assert (Hlt : (highest < sx)%Q).
      { apply Qnot_le_lt. intros Hle. apply Qle_bool_iff in Hle. congruence. }
      right. destruct (IH (Some x) sx) as [[Hs Hall] | (before & e & later & -> & Hs & Hf & Ht & Hh & Hb & Hl)].
      * exists [], x, l. split; [reflexivity|]. split; [exact Hs|]. fold sx.
        split; [exact Hfresh|]. split; [exact Hthr|]. split; [exact Hlt|].
        split; [intros e' [] | exact Hall].
      * exists (x :: before), e, later. split; [reflexivity|]. split; [exact Hs|].
        split; [exact Hf|]. split; [exact Ht|]. split; [fold sx in Hh; lra|].
        split; [|exact Hl]. intros e' [<- | Hin] Hf' Ht'; [exact Hh | exact (Hb e' Hin Hf' Ht')].
    + assert (Hx : fresh now ttl x = true -> (thr <= sx)%Q -> (sx <= highest)%Q).
      { intros Hf Ht. apply Qle_bool_iff in Ht. rewrite Hf, Ht in Hq. cbn in Hq.
        apply negb_false_iff in Hq. apply Qle_bool_iff. exact Hq. }
      destruct (IH best highest) as [[Hs Hall] | (before & e & later & -> & Hs & Hf & Ht & Hh & Hb & Hl)].
      * left. split; [exact Hs|]. intros e [<- | Hin]; [exact Hx | exact (Hall e Hin)].
      * right. exists (x :: before), e, later. split; [reflexivity|]. split; [exact Hs|].
        split; [exact Hf|]. split; [exact Ht|]. split; [exact Hh|].
        split; [|exact Hl]. intros e' [<- | Hin] Hf' Ht'; [|exact (Hb e' Hin Hf' Ht')].
        fold sx. specialize (Hx Hf' Ht'). lra.
Qed.

End Cache.
End SemanticCache.

Section CacheProperties.
Variable Response : Type.
Variable sqrt : Q -> Q.

Abbreviation Entry := (SemanticCache.CacheEntry Response).
Abbreviation Cache := (SemanticCache.t Response).
Abbreviation prompt := (SemanticCache.prompt Response).
Abbreviation vector := (SemanticCache.vector Response).
Abbreviation response := (SemanticCache.response Response).
Abbreviation timestamp := (SemanticCache.timestamp Response).
Abbreviation entries := (SemanticCache.entries Response).
Abbreviation threshold := (SemanticCache.threshold Response).
Abbreviation ttl_ms := (SemanticCache.ttl_ms Response).
Abbreviation similarity := (SemanticCache._cosine_similarity sqrt).

Lemma NoDup_map_filter {A B} (f : A -> B) (p : A -> bool) (l : list A) :
  List.NoDup (map f l) -> List.NoDup (map f (List.filter p l)).
Proof.
  induction l as [|x l IH]; cbn [map List.filter]; intros Hnd; [constructor|].
  apply List.NoDup_cons_iff in Hnd as [Hni Hnd]. destruct (p x); cbn [map]; [|auto].
  constructor; [|auto]. intros Hin. apply Hni. apply in_map_iff in Hin as (y & <- & Hy).
  apply List.filter_In in Hy as [Hy _]. apply in_map. exact Hy.
Qed.

Lemma NoDup_tl {A} (l : list A) : List.NoDup l -> List.NoDup (tl l).
Proof. destruct l; cbn; [auto|]. intros H. apply List.NoDup_cons_iff in H as [_ H]. exact H. Qed.

Definition cache_ok (c : Cache) : Prop :=
  (length (entries c) <= 500)%nat /\ List.NoDup (map prompt (entries c)).

Lemma set_entries (now : Z) (p : string) (v : list Q) (r : Response) (c : Cache) :
  exists older,
    entries (SemanticCache.set Response now p v r c)
      = older ++ [SemanticCache.mkEntry Response v p r now] /\
    (older = List.filter (fun e => negb (String.eqb (prompt e) p)) (entries c) \/
     ((500 <= length (List.filter (fun e => negb (String.eqb (prompt e) p)) (entries c)))%nat /\
      older = tl (List.filter (fun e => negb (String.eqb (prompt e) p)) (entries c)))).
Proof.
  unfold SemanticCache.set. cbn [SemanticCache.entries].
  set (kept := List.filter _ (entries c)).
  rewrite length_app. cbn [length].
  destruct (Nat.ltb_spec 500 (length kept + 1)) as [Hfull|Hroom].
  - exists (tl kept). split; [|right; split; [lia | reflexivity]].
    destruct kept as [|e kept']; [cbn in Hfull; lia | reflexivity].
  - exists kept. split; [reflexivity | left; reflexivity].
Qed.

Lemma cache_ok_set (now : Z) (p : string) (v : list Q) (r : Response) (c : Cache) :
  cache_ok c -> cache_ok (SemanticCache.set Response now p v r c).
Proof.
  intros [Hlen Hnd]. unfold cache_ok, SemanticCache.set. cbn [SemanticCache.entries].
  set (kept := List.filter (fun e => negb (String.eqb (prompt e) p)) (entries c)).
  assert (Hk : (length kept <= length (entries c))%nat) by apply List.filter_length_le.
  assert (Hnd' : List.NoDup (map prompt (kept ++ [SemanticCache.mkEntry Response v p r now]))).
  { rewrite map_app. cbn [map SemanticCache.prompt]. apply List.NoDup_app.
    - apply NoDup_map_filter. exact Hnd.
    - constructor; [intros [] | constructor].
    - intros q Hq Hq'. destruct Hq' as [<- | []].
      apply in_map_iff in Hq as (e & He & Hin). apply List.filter_In in Hin as [_ Hne].
      rewrite He, String.eqb_refl in Hne. discriminate. }
  rewrite length_app. cbn [length].
  destruct (Nat.ltb_spec 500 (length kept + 1)).
  - split.
    + destruct kept; cbn in *; [lia|]. rewrite length_app. cbn. lia.
    + destruct kept as [|e kept']; cbn [app tl map] in *; [constructor|].
      apply List.NoDup_cons_iff in Hnd' as [_ H']. exact H'.
  - split; [rewrite length_app; cbn; lia | exact Hnd'].
Qed.

Lemma cache_ok_get (now : Z) (v : list Q) (c : Cache) :
  cache_ok c -> cache_ok (snd (SemanticCache.get Response sqrt now v c)).
Proof.
  intros [Hlen Hnd]. rewrite SemanticCache.get_run. cbn [snd SemanticCache.entries]. split.
  - eapply Nat.le_trans; [apply List.filter_length_le | exact Hlen].
  - apply NoDup_map_filter. exact Hnd.
Qed.

(** X20. A semantic cache never holds more than 500 entries nor two entries
    for the same prompt, whatever sequence of [set] and [get] is applied to
    a new cache, and its threshold and time to live are those it was created
    with. *)
Theorem cache_stays_bounded (thr : Q) (ttl : Z) (ops : list (SemanticCache.Op Response)) :
  let c := SemanticCache.after Response sqrt ops (SemanticCache.init Response thr ttl) in
  (length (entries c) <= 500)%nat /\
  List.NoDup (map prompt (entries c)) /\
  threshold c = thr /\ ttl_ms c = ttl.
Proof.
  cbv zeta.
  assert (H : forall c0, cache_ok c0 ->
            cache_ok (SemanticCache.after Response sqrt ops c0) /\
            threshold (SemanticCache.after Response sqrt ops c0) = threshold c0 /\
            ttl_ms (SemanticCache.after Response sqrt ops c0) = ttl_ms c0).
  { induction ops as [|o ops IH]; intros c0 Hok; [auto|].
    unfold SemanticCache.after. cbn [fold_left].
    fold (SemanticCache.after Response sqrt ops (SemanticCache.apply_op Response sqrt c0 o)).
    assert (Hstep : cache_ok (SemanticCache.apply_op Response sqrt c0 o) /\
                    threshold (SemanticCache.apply_op Response sqrt c0 o) = threshold c0 /\
                    ttl_ms (SemanticCache.apply_op Response sqrt c0 o) = ttl_ms c0).
    { destruct o as [now p v r | now v]; cbn [SemanticCache.apply_op].
      - split; [apply cache_ok_set; exact Hok | split; reflexivity].
      - split; [apply cache_ok_get; exact Hok|].
        rewrite SemanticCache.get_run. split; reflexivity. }
    destruct Hstep as (Hok' & Ht & Hl). destruct (IH _ Hok') as (H1 & H2 & H3).
    split; [exact H1|]. split; congruence. }
  destruct (H (SemanticCache.init Response thr ttl)) as ([H1 H2] & H3 & H4).
  - split; [cbn; lia | constructor].
  - auto.
Qed.

(** X21. [get] purges exactly the entries older than the time to live (an
    entry of age [ttl_ms] is kept) and keeps the others in order.  It returns
    the response of the kept entry most similar to the query among those
    reaching the threshold (and a similarity above -1), the most recent one
    when several are equally similar; it returns nothing exactly when no
    kept entry qualifies. *)
Theorem get_returns_best_fresh_match (now : Z) (v : list Q) (c : Cache) :
  entries (snd (SemanticCache.get Response sqrt now v c))
    = List.filter (fun e => now - timestamp e <=? ttl_ms c) (entries c) /\
  match fst (SemanticCache.get Response sqrt now v c) with
  | Some r =>
      exists pre e post,
        entries c = pre ++ e :: post /\ response e = r /\
        now - timestamp e <= ttl_ms c /\
        (threshold c <= similarity v (vector e))%Q /\
        (-1 < similarity v (vector e))%Q /\
        (forall e', In e' pre -> now - timestamp e' <= ttl_ms c ->
                    (threshold c <= similarity v (vector e'))%Q ->
                    (similarity v (vector e') <= similarity v (vector e))%Q) /\
        (forall e', In e' post -> now - timestamp e' <= ttl_ms c ->
                    (threshold c <= similarity v (vector e'))%Q ->
                    (similarity v (vector e') < similarity v (vector e))%Q)
  | None =>
      forall e, In e (entries c) -> now - timestamp e <= ttl_ms c ->
                (threshold c <= similarity v (vector e))%Q ->
                (similarity v (vector e) <= -1)%Q
  end.
Proof.
  assert (Hfresh : forall e, SemanticCache.fresh Response now (ttl_ms c) e = true <->
                             now - timestamp e <= ttl_ms c).
  { intros e. unfold SemanticCache.fresh. rewrite negb_true_iff, Z.ltb_ge. reflexivity. }
  rewrite SemanticCache.get_run. cbn [fst snd SemanticCache.entries]. split.
  - apply List.filter_ext. intros e. unfold SemanticCache.fresh.
    destruct (Z.ltb_spec (ttl_ms c) (now - timestamp e)), (Z.leb_spec (now - timestamp e) (ttl_ms c));
      try reflexivity; lia.
  - destruct (SemanticCache.scan_spec Response sqrt now v (threshold c) (ttl_ms c)
                (rev (entries c)) None (-1)%Q)
      as [[-> Hall] | (before & e & later & Hrev & -> & Hf & Ht & Hh & Hb & Hl)];
      cbn [option_map].
    + intros e Hin Hage Hthr. apply (Hall e); [apply in_rev in Hin; exact Hin | | exact Hthr].
      apply Hfresh. exact Hage.
    + exists (rev later), e, (rev before). split.
      { rewrite <- (rev_involutive (entries c)), Hrev, rev_app_distr. cbn [rev].
        rewrite <- app_assoc. reflexivity. }
      split; [reflexivity|]. split; [apply Hfresh; exact Hf|].
      split; [exact Ht|]. split; [exact Hh|]. split.
      * intros e' Hin Hage. apply Hl; [apply in_rev; exact Hin | apply Hfresh; exact Hage].
      * intros e' Hin Hage. apply Hb; [apply in_rev; exact Hin | apply Hfresh; exact Hage].
Qed.

(** X22. A response that has just been stored is found again: if the query
    reaches the threshold on its vector (with a similarity above -1), the
    entry has not outlived the time to live, and no other entry still alive
    is strictly closer to the query, [get] returns that response. *)
Theorem stored_response_is_found (now : Z) (p : string) (v : list Q) (r : Response)
    (c : Cache) (now' : Z) (v' : list Q) :
  now' - now <= ttl_ms c ->
  (threshold c <= similarity v' v)%Q ->
  (-1 < similarity v' v)%Q ->
  (forall e, In e (entries c) -> prompt e <> p -> now' - timestamp e <= ttl_ms c ->
             (similarity v' (vector e) <= similarity v' v)%Q) ->
  fst (SemanticCache.get Response sqrt now' v' (SemanticCache.set Response now p v r c))
  = Some r.
Proof.
  intros Hage Hthr Hpos Hbest.
  destruct (set_entries now p v r c) as (older & Hes & Holder).
  assert (Hin : forall e, In e older -> In e (entries c) /\ prompt e <> p).
  { intros e He.
    assert (Hk : In e (List.filter (fun e => negb (String.eqb (prompt e) p)) (entries c))).
    { destruct Holder as [-> | [_ ->]]; [exact He|].
      destruct (List.filter _ (entries c)); [contradiction | right; exact He]. }
    apply List.filter_In in Hk as [H1 H2]. split; [exact H1|].
    intros E. rewrite E, String.eqb_refl in H2. discriminate. }
  rewrite SemanticCache.get_run. cbn [fst]. rewrite Hes, rev_unit. cbn [SemanticCache.scan].
  change (SemanticCache.threshold Response (SemanticCache.set Response now p v r c))
    with (threshold c).
  change (SemanticCache.ttl_ms Response (SemanticCache.set Response now p v r c))
    with (ttl_ms c).
  cbn [SemanticCache.vector].
  assert (H1 : SemanticCache.fresh Response now' (ttl_ms c)
                 (SemanticCache.mkEntry Response v p r now) = true).
  { unfold SemanticCache.fresh. cbn. apply negb_true_iff, Z.ltb_ge. exact Hage. }
  assert (H2 : Qle_bool (threshold c) (similarity v' v) = true) by (apply Qle_bool_iff; exact Hthr).
  assert (H3 : Qle_bool (similarity v' v) (-1) = false).
  { destruct (Qle_bool (similarity v' v) (-1)) eqn:E; [|reflexivity].
    apply Qle_bool_iff in E. lra. }
  rewrite H1, H2, H3. cbn [andb negb].
  destruct (SemanticCache.scan_spec Response sqrt now' v' (threshold c) (ttl_ms c) (rev older)
              (Some (SemanticCache.mkEntry Response v p r now)) (similarity v' v))
    as [[-> _] | (before & e & later & Hrev & _ & Hf & _ & Hh & _)]; [reflexivity|].
  exfalso.
  assert (He : In e older).
  { apply in_rev. rewrite Hrev. apply in_or_app. right. left. reflexivity. }
  destruct (Hin e He) as [Hi Hp].
  assert (Hage' : now' - timestamp e <= ttl_ms c).
  { unfold SemanticCache.fresh in Hf. apply negb_true_iff, Z.ltb_ge in Hf. exact Hf. }
  specialize (Hbest e Hi Hp Hage'). lra.
Qed.

End CacheProperties.

(** A cache with threshold 0.95 and a day to live, holding one response. *)
Definition cached : SemanticCache.t string :=
  SemanticCache.set string 1000 "hello" [1%Q] "world"%string
    (SemanticCache.init string (95 # 100) 86400000).

Lemma stored_response_is_found_witness :
  fst (SemanticCache.get string (fun x => x) 2000 [1%Q] cached) = Some "world"%string.
Proof.
  apply (stored_response_is_found string (fun x => x) 1000 "hello" [1%Q] "world"%string
           (SemanticCache.init string (95 # 100) 86400000) 2000 [1%Q]).
  - vm_compute. discriminate.
  - vm_compute. discriminate.
  - vm_compute. reflexivity.
  - intros e [].
Defined.

(** * Presets

    [BasePreset] of [presets/base.py]: a manager whose keys all carry the
    provider tag of the preset, on a file storage cleared at construction,
    with [LatencyStrategy] unless another strategy is given, and whose
    [get_key] is [get_key_by_provider] for that tag. *)

Module BasePreset.

(** [BasePreset(api_keys, options).manager] *)
Definition manager_of (api_keys : list string) (provider : string) (strat : option Strategy)
    (with_fallback : bool) (concurrency : Z) (clk : nat -> Z) (rnd : nat -> Q) : State :=
  ApiKeyManager (map (fun k => mkKeySpec k 1 provider) api_keys) true
                (default LatencyStrategy strat) with_fallback (Some concurrency) clk rnd.

(** [BasePreset.get_key] *)
Definition get_key (provider : string) : M (option string) := get_key_by_provider provider.

End BasePreset.

(** On a registry tagged throughout with [p], the provider filter lets every
    key through. *)
Lemma provider_filter_passes (p : string) (r : nat) (s : State) :
  Forall (fun k => provider k = p) (keys s) ->
  (hp <- has_provider p r ;; if hp then eligible r else ret false) s = eligible r s.
Proof.
  intros Hall.
  rewrite (bind_run (has_provider p r) _ s s
             (match keys s !! r with
              | Some k => String.eqb (provider k) p
              | None => false
              end) eq_refl).
  destruct (keys s !! r) as [k|] eqn:Hk.
  - rewrite (Forall_lookup_1 _ _ _ _ Hall Hk), String.eqb_refl. reflexivity.
  - rewrite (eligible_absent r s Hk). reflexivity.
Qed.

Lemma same_life_providers (p : string) (s s' : State) :
  same_life s s' ->
  Forall (fun k => provider k = p) (keys s) -> Forall (fun k => provider k = p) (keys s').
Proof.
  intros Hlife Hall. apply Forall_lookup_2. intros i k' Hk'.
  destruct (same_life_lookup s s' i k' Hlife Hk') as (k & Hk & El).
  pose proof (Forall_lookup_1 _ _ _ _ Hall Hk) as Hp. cbn in Hp.
  unfold life in El. congruence.
Qed.

Lemma provider_scan_same (p : string) (rs : list nat) (s : State) :
  Forall (fun k => provider k = p) (keys s) ->
  comprehension (fun r => hp <- has_provider p r ;; if hp then eligible r else ret false) rs s
  = comprehension eligible rs s.
Proof.
  revert s. induction rs as [|r rs IH]; intros s Hall; cbn [comprehension]; [reflexivity|].
  pose proof (provider_filter_passes p r s Hall) as Hc.
  pose proof (same_life_eligible r s) as Hlife.
  destruct (eligible r s) as [b s1] eqn:He. cbn [snd] in Hlife.
  rewrite (bind_run _ _ _ _ _ Hc), (bind_run _ _ _ _ _ He).
  pose proof (IH s1 (same_life_providers p s s1 Hlife Hall)) as IH'.
  destruct (comprehension eligible rs s1) as [rest s2] eqn:Hr.
  rewrite (bind_run _ _ _ _ _ IH'), (bind_run _ _ _ _ _ Hr). reflexivity.
Qed.

Lemma key_step_provider (a b : KeyState) : key_step a b -> provider b = provider a.
Proof. intros H. apply key_step_identity in H. unfold identity in H. congruence. Qed.

(** X23. For a preset, whose keys all carry its provider tag, [get_key] of
    the preset differs from the unfiltered [get_key] of its manager only by
    the last resort: in every reachable state, whenever it returns a key, the
    unfiltered selection would have returned the same key and left the same
    state. *)
Theorem preset_get_key_is_unfiltered_selection
    (api_keys : list string) (tag : string) (strat : option Strategy)
    (with_fallback : bool) (concurrency : Z) (clk : nat -> Z) (rnd : nat -> Q) (l : Loop) :
  reachable (BasePreset.manager_of api_keys tag strat with_fallback concurrency clk rnd) l ->
  Forall (fun k => provider k = tag) (keys (manager l)) /\
  (fst (BasePreset.get_key tag (manager l)) = None \/
   BasePreset.get_key tag (manager l) = get_key (manager l)).
Proof.
  intros Hreach.
  assert (Hall : Forall (fun k => provider k = tag) (keys (manager l))).
  { apply (evolves_Forall _ _ _ (fun k k' Hs (Hp : provider k = tag) =>
                                   eq_trans (key_step_provider k k' Hs) Hp)
             (reachable_evolves _ _ Hreach)).
    unfold BasePreset.manager_of. cbn [ApiKeyManager keys].
    apply Forall_forall. intros k Hin. apply list_elem_of_In, in_map_iff in Hin as (kv & <- & Hin).
    destruct (unique_map_spec (map (fun k => mkKeySpec k 1 tag) api_keys)) as (_ & _ & H3).
    destruct kv as [name [w q]]. destruct (H3 name w q Hin) as (pre & sp & post & E & _ & _ & _ & <-).
    assert (Hsp : In sp (map (fun k => mkKeySpec k 1 tag) api_keys)).
    { rewrite E. apply in_or_app. right. left. reflexivity. }
    apply in_map_iff in Hsp as (k0 & <- & _). reflexivity. }
  split; [exact Hall|].
  unfold BasePreset.get_key, get_key_by_provider, get_key.
  set (rs := seq 0 (length (keys (manager l)))).
  rewrite !(bind_run all_refs _ (manager l) (manager l) rs eq_refl).
  pose proof (provider_scan_same tag rs (manager l) Hall) as Hscan.
  destruct (comprehension eligible rs (manager l)) as [cands s1] eqn:He.
  rewrite (bind_run _ _ _ _ _ Hscan), (bind_run _ _ _ _ _ He).
  destruct cands as [|c cands']; [left; reflexivity | right; reflexivity].
Qed.

Lemma preset_get_key_is_unfiltered_selection_witness :
  fst (BasePreset.get_key "gemini"
         (BasePreset.manager_of ["k1"; "k2"]%string "gemini" None false 20
            Tests.test_clock Tests.test_rng)) = None \/
  BasePreset.get_key "gemini"
    (BasePreset.manager_of ["k1"; "k2"]%string "gemini" None false 20
       Tests.test_clock Tests.test_rng)
  = get_key (BasePreset.manager_of ["k1"; "k2"]%string "gemini" None false 20
               Tests.test_clock Tests.test_rng).
Proof.
  exact (proj2 (preset_get_key_is_unfiltered_selection ["k1"; "k2"]%string "gemini" None
                  false 20 Tests.test_clock Tests.test_rng _ (reach_init _))).
Defined.

(** * [initial_keys] given as strings

    [ApiKeyManager(["k1,k2", "k3"])]: every string is split at the commas and
    every piece stripped of surrounding whitespace; weight 1.0 and provider
    ['default'] are filled in. *)

(** [str.isspace] on the characters below 256. *)
Definition is_space (a : ascii) : bool :=
  let n := nat_of_ascii a in
  ((9 <=? n) && (n <=? 13) || (28 <=? n) && (n <=? 32) || (n =? 133) || (n =? 160))%nat.

Fixpoint lstrip (s : string) : string :=
  match s with
  | EmptyString => EmptyString
  | String a s' => if is_space a then lstrip s' else s
  end.

Fixpoint rstrip (s : string) : string :=
  match s with
  | EmptyString => EmptyString
  | String a s' =>
      match rstrip s' with
      | EmptyString => if is_space a then EmptyString else String a EmptyString
      | t => String a t
      end
  end.

(** [s.strip()] *)
Definition strip (s : string) : string := lstrip (rstrip s).

(** [s.split(sep)] for a separator of one character: never empty. *)
Fixpoint split (sep : ascii) (s : string) : list string :=
  match s with
  | EmptyString => [EmptyString]
  | String a s' =>
      if Ascii.eqb a sep then EmptyString :: split sep s'
      else match split sep s' with
           | x :: xs => String a x :: xs
           | [] => [String a EmptyString]
           end
  end.

(** The list comprehension that fills [input_keys]. *)
Definition input_keys_of_strings (initial_keys : list string) : list KeySpec :=
  flat_map (fun k => map (fun s => mkKeySpec (strip s) 1 "default") (split "," k))
           initial_keys.

(** [c in s] *)
Fixpoint has_char (c : ascii) (s : string) : bool :=
  match s with
  | EmptyString => false
  | String a s' => Ascii.eqb a c || has_char c s'
  end.

Lemma rstrip_cons (a : ascii) (s : string) :
  rstrip (String a s) =
    match rstrip s with
    | EmptyString => if is_space a then EmptyString else String a EmptyString
    | t => String a t
    end.
Proof. reflexivity. Qed.

Lemma rstrip_idempotent (s : string) : rstrip (rstrip s) = rstrip s.
Proof.
  induction s as [|a s IH]; [reflexivity|]. rewrite rstrip_cons.
  destruct (rstrip s) as [|b t] eqn:E.
  - destruct (is_space a) eqn:Ha; [reflexivity|].
    rewrite rstrip_cons. cbn [rstrip]. rewrite Ha. reflexivity.
  - rewrite rstrip_cons, IH. reflexivity.
Qed.

Lemma rstrip_lstrip (s : string) : rstrip s = s -> rstrip (lstrip s) = lstrip s.
Proof.
  induction s as [|a s IH]; [reflexivity|]. intros H. cbn [lstrip].
  destruct (is_space a) eqn:Ha; [|exact H]. apply IH. rewrite rstrip_cons in H.
  destruct (rstrip s) as [|b t]; [rewrite Ha in H; discriminate|]. congruence.
Qed.

Lemma lstrip_idempotent (s : string) : lstrip (lstrip s) = lstrip s.
Proof.
  induction s as [|a s IH]; [reflexivity|]. cbn [lstrip].
  destruct (is_space a) eqn:Ha; [exact IH|]. cbn [lstrip]. rewrite Ha. reflexivity.
Qed.

Lemma strip_idempotent (s : string) : strip (strip s) = strip s.
Proof.
  unfold strip. rewrite (rstrip_lstrip (rstrip s) (rstrip_idempotent s)).
  apply lstrip_idempotent.
Qed.

Lemma has_char_lstrip (c : ascii) (s : string) :
  has_char c s = false -> has_char c (lstrip s) = false.
Proof.
  induction s as [|a s IH]; [reflexivity|]. cbn [lstrip has_char]. intros H.
  apply orb_false_iff in H as [H1 H2]. destruct (is_space a); [auto|].
  cbn [has_char]. rewrite H1, H2. reflexivity.
Qed.

Lemma has_char_rstrip (c : ascii) (s : string) :
  has_char c s = false -> has_char c (rstrip s) = false.
Proof.
  induction s as [|a s IH]; [reflexivity|]. rewrite rstrip_cons. cbn [has_char]. intros H.
  apply orb_false_iff in H as [H1 H2]. specialize (IH H2).
  destruct (rstrip s) as [|b t].
  - destruct (is_space a); [reflexivity|]. cbn [has_char]. rewrite H1. reflexivity.
  - cbn [has_char] in *. rewrite H1. exact IH.
Qed.

Lemma split_pieces (sep : ascii) (s : string) :
  Forall (fun x => has_char sep x = false) (split sep s).
Proof.
  induction s as [|a s IH]; cbn [split]; [repeat constructor|].
  destruct (Ascii.eqb a sep) eqn:Ha; [constructor; [reflexivity | exact IH]|].
  destruct (split sep s) as [|x xs]; [repeat constructor; cbn; rewrite Ha; reflexivity|].
  apply Forall_cons in IH as [Hx Hxs]. constructor; [|exact Hxs].
  cbn [has_char]. rewrite Ha, Hx. reflexivity.
Qed.

Lemma split_whole (sep : ascii) (s : string) : has_char sep s = false -> split sep s = [s].
Proof.
  induction s as [|a s IH]; [reflexivity|]. cbn [has_char split]. intros H.
  apply orb_false_iff in H as [H1 H2]. rewrite H1, (IH H2). reflexivity.
Qed.

Lemma split_app (sep : ascii) (s t : string) :
  has_char sep s = false -> split sep (s ++ String sep t) = s :: split sep t.
Proof.
  induction s as [|a s IH]; cbn [has_char append split]; intros H.
  - rewrite Ascii.eqb_refl. reflexivity.
  - apply orb_false_iff in H as [H1 H2]. rewrite H1, (IH H2). reflexivity.
Qed.

(** Splitting undoes joining with commas. *)
Lemma split_concat (names : list string) :
  names <> [] ->
  Forall (fun n => has_char "," n = false) names ->
  split "," (String.concat "," names) = names.
Proof.
  induction names as [|n names IH]; [contradiction|]. intros _ Hall.
  apply Forall_cons in Hall as [Hn Hall]. destruct names as [|m names].
  - cbn [String.concat]. apply split_whole. exact Hn.
  - change (String.concat "," (n :: m :: names))
      with (n ++ String "," (String.concat "," (m :: names)))%string.
    rewrite (split_app _ _ _ Hn), (IH ltac:(discriminate) Hall). reflexivity.
Qed.

Lemma dict_set_new (k : string) (v : Q * string) (d : list (string * (Q * string))) :
  ~ In k (map fst d) -> dict_set k v d = d ++ [(k, v)].
Proof.
  induction d as [|[k' v'] d IH]; cbn [dict_set map fst In app]; intros H; [reflexivity|].
  destruct (String.eqb_spec k' k) as [E|_]; [exfalso; auto|]. rewrite IH by tauto. reflexivity.
Qed.

(** Distinct non-empty names are registered as they come. *)
Lemma unique_map_distinct (w : Q) (p : string) (names : list string) :
  List.NoDup names -> ~ In ""%string names ->
  unique_map (map (fun n => mkKeySpec n w p) names) = map (fun n => (n, (w, p))) names.
Proof.
  unfold unique_map.
  assert (H : forall acc, List.NoDup names -> ~ In ""%string names ->
            (forall n, In n names -> ~ In n (map fst acc)) ->
            fold_left (fun d ks => if String.eqb (spec_key ks) "" then d
                                   else dict_set (spec_key ks) (spec_weight ks, spec_provider ks) d)
                      (map (fun n => mkKeySpec n w p) names) acc
            = acc ++ map (fun n => (n, (w, p))) names).
  { induction names as [|n names IH]; intros acc Hnd Hne Hacc; cbn [map fold_left].
    - rewrite app_nil_r. reflexivity.
    - apply List.NoDup_cons_iff in Hnd as [Hni Hnd]. cbn [spec_key spec_weight spec_provider].
      destruct (String.eqb_spec n "") as [E|_]; [exfalso; apply Hne; left; auto|].
      rewrite (dict_set_new n (w, p) acc (Hacc n (or_introl eq_refl))).
      rewrite IH; [rewrite <- app_assoc; reflexivity | exact Hnd | |].
      + intros Hin. apply Hne. right. exact Hin.
      + intros m Hm. rewrite map_app, in_app_iff. cbn [map fst In].
        intros [Hin | [E | []]]; [exact (Hacc m (or_intror Hm) Hin) | congruence]. }
  intros Hnd Hne. apply (H [] Hnd Hne). intros n _ [].
Qed.

(** X24. Keys given as strings: every registered name is a non-empty piece
    between commas, without surrounding whitespace, with weight 1 and provider
    ['default'].  Conversely, joining distinct names by commas gives back
    exactly these names, in order, as fresh keys, provided the names are not
    empty, contain no comma and have no surrounding whitespace; giving them
    as separate strings does the same. *)
Theorem keys_from_strings
    (with_storage : bool) (strat : Strategy) (with_fallback : bool)
    (concurrency : option Z) (clk : nat -> Z) (rnd : nat -> Q) :
  (forall initial_keys k,
     In k (keys (ApiKeyManager (input_keys_of_strings initial_keys) with_storage strat
                   with_fallback concurrency clk rnd)) ->
     key k <> ""%string /\ has_char "," (key k) = false /\ strip (key k) = key k /\
     k = new_KeyState (key k) 1 "default") /\
  (forall names,
     List.NoDup names ->
     Forall (fun n => n <> ""%string /\ has_char "," n = false /\ strip n = n) names ->
     keys (ApiKeyManager (input_keys_of_strings [String.concat "," names]) with_storage strat
             with_fallback concurrency clk rnd)
       = map (fun n => new_KeyState n 1 "default") names /\
     keys (ApiKeyManager (input_keys_of_strings names) with_storage strat
             with_fallback concurrency clk rnd)
       = map (fun n => new_KeyState n 1 "default") names).
Proof.
  split.
  - intros initial_keys k Hin. cbn [ApiKeyManager keys] in Hin.
    apply in_map_iff in Hin as ([name [w p]] & <- & Hin). cbn [fst snd new_KeyState key].
    destruct (unique_map_spec (input_keys_of_strings initial_keys)) as (_ & H2 & H3).
    assert (Hname : name <> ""%string).
    { apply (H2 name). apply in_map_iff. exists (name, (w, p)). auto. }
    destruct (H3 name w p Hin) as (pre & sp & post & E & _ & <- & <- & <-).
    assert (Hsp : In sp (input_keys_of_strings initial_keys)).
    { rewrite E. apply in_or_app. right. left. reflexivity. }
    unfold input_keys_of_strings in Hsp. apply in_flat_map in Hsp as (str & _ & Hsp).
    apply in_map_iff in Hsp as (piece & <- & Hpiece). cbn [spec_key spec_weight spec_provider].
    split; [exact Hname|]. split; [|split; [apply strip_idempotent | reflexivity]].
    unfold strip. apply has_char_lstrip, has_char_rstrip.
    pose proof (split_pieces "," str) as Hall.
    exact (proj1 (List.Forall_forall _ _) Hall piece Hpiece).
  - intros names Hnd Hclean.
    assert (Hne : ~ In ""%string names).
    { intros Hin. destruct (proj1 (List.Forall_forall _ _) Hclean _ Hin) as [H _]. auto. }
    assert (Hstrip : map (fun s => mkKeySpec (strip s) 1 "default") names
                     = map (fun n => mkKeySpec n 1 "default") names).
    { apply map_ext_in. intros n Hin.
      destruct (proj1 (List.Forall_forall _ _) Hclean _ Hin) as (_ & _ & ->). reflexivity. }
    assert (Hreg : map (fun kv => new_KeyState (fst kv) (fst (snd kv)) (snd (snd kv)))
                       (unique_map (map (fun n => mkKeySpec n 1 "default") names))
                   = map (fun n => new_KeyState n 1 "default") names).
    { rewrite (unique_map_distinct 1 "default" names Hnd Hne), map_map. reflexivity. }
    cbn [ApiKeyManager keys]. split.
    + destruct names as [|n0 names0] eqn:En; [reflexivity|]. rewrite <- En in *.
      unfold input_keys_of_strings. cbn [flat_map]. rewrite app_nil_r.
      rewrite split_concat.
      * rewrite Hstrip. exact Hreg.
      * rewrite En. discriminate.
      * apply List.Forall_forall. intros n Hin.
        exact (proj1 (proj2 (proj1 (List.Forall_forall _ _) Hclean n Hin))).
    + assert (Hflat : input_keys_of_strings names
                      = map (fun n => mkKeySpec n 1 "default") names).
      { unfold input_keys_of_strings. clear Hreg Hstrip Hne Hnd.
        induction names as [|n names IH]; [reflexivity|].
        apply Forall_cons in Hclean as [(_ & Hc & Hs) Hclean]. cbn [flat_map map].
        rewrite (split_whole _ _ Hc). cbn [map app]. rewrite Hs, (IH Hclean). reflexivity. }
      rewrite Hflat. exact Hreg.
Qed.

Example keys_from_strings_sample :
  map (fun k => (key k, weight k, provider k))
      (keys (ApiKeyManager (input_keys_of_strings ["k1, k2 ,,k1"; " k3"]%string) false
               StandardStrategy false None Tests.test_clock Tests.test_rng))
  = [("k1", 1%Q, "default"); ("k2", 1%Q, "default"); ("k3", 1%Q, "default")]%string.
Proof. reflexivity. Qed.

(** * Edges of the retry loop *)

(** X25. The back-off before a retry doubles from one second and is capped:
    its base is [1000 * 2 ^ attempt] milliseconds for the first six attempts
    (0 to 5) and [MAX_BACKOFF = 64000] from then on, and it never decreases
    from one attempt to the next. *)
Theorem backoff_doubles_until_capped (attempt : nat) :
  capped_backoff attempt =
    (if (attempt <? 6)%nat then 1000 * 2 ^ Z.of_nat attempt else 64000) /\
  capped_backoff attempt <= capped_backoff (S attempt) /\
  1000 <= capped_backoff attempt <= CONFIG.MAX_BACKOFF.
Proof.
  assert (Hval : forall a, capped_backoff a =
                           if (a <? 6)%nat then 1000 * 2 ^ Z.of_nat a else 64000).
  { intros a. unfold capped_backoff, CONFIG.BASE_BACKOFF, CONFIG.MAX_BACKOFF.
    destruct (Nat.ltb_spec a 6) as [Hlt|Hge].
    - assert (H : 2 ^ Z.of_nat a <= 2 ^ 5) by (apply Z.pow_le_mono_r; lia).
      change (2 ^ 5) with 32 in H. lia.
    - assert (H : 2 ^ 6 <= 2 ^ Z.of_nat a) by (apply Z.pow_le_mono_r; lia).
      change (2 ^ 6) with 64 in H. lia. }
  assert (Hpow : forall a, 2 ^ Z.of_nat (S a) = 2 * 2 ^ Z.of_nat a).
  { intros a. rewrite Nat2Z.inj_succ, Z.pow_succ_r by lia. reflexivity. }
  assert (Hpos : 1 <= 2 ^ Z.of_nat attempt).
  { change 1 with (2 ^ 0). apply Z.pow_le_mono_r; lia. }
  split; [apply Hval|]. rewrite !Hval. unfold CONFIG.MAX_BACKOFF.
  destruct (Nat.ltb_spec attempt 6) as [Hlt|Hge].
  - assert (H : 2 ^ Z.of_nat attempt <= 2 ^ 5) by (apply Z.pow_le_mono_r; lia).
    change (2 ^ 5) with 32 in H.
    destruct (Nat.ltb_spec (S attempt) 6) as [Hlt'|Hge']; [rewrite Hpow|]; lia.
  - destruct (Nat.ltb_spec (S attempt) 6); lia.
Qed.

Lemma get_key_all_dead (s : State) :
  Forall (fun k => circuitState k = DEAD) (keys s) ->
  get_key s = (None, set_events (allKeysExhausted :: events s) s).
Proof.
  intros Hd. unfold get_key.
  rewrite (bind_run all_refs _ s s (seq 0 (length (keys s))) eq_refl).
  rewrite (bind_run _ _ _ _ _ (all_dead_scan s _ Hd)).
  rewrite (bind_run _ _ _ _ _ (comprehension_not_dead _ s)).
  rewrite (all_dead_not_alive s _ Hd). reflexivity.
Qed.

Lemma get_key_by_provider_all_dead (p : string) (s : State) :
  Forall (fun k => circuitState k = DEAD) (keys s) ->
  get_key_by_provider p s = (None, s).
Proof.
  intros Hd. unfold get_key_by_provider.
  rewrite (bind_run all_refs _ s s (seq 0 (length (keys s))) eq_refl).
  assert (Hscan : forall rs,
            comprehension (fun r => hp <- has_provider p r ;;
                                    if hp then eligible r else ret false) rs s = ([], s)).
  { induction rs as [|r rs IH]; cbn [comprehension]; [reflexivity|].
    assert (He : (hp <- has_provider p r ;; if hp then eligible r else ret false) s
                 = (false, s)).
    { rewrite (bind_run (has_provider p r) _ s s
                 (match keys s !! r with
                  | Some k => String.eqb (provider k) p
                  | None => false
                  end) eq_refl).
      destruct (keys s !! r) as [k|] eqn:Hk; [|reflexivity].
      destruct (String.eqb (provider k) p); [|reflexivity].
      cbv [eligible not_dead deref gets bind ret].
      rewrite Hk, (Forall_lookup_1 _ _ _ _ Hd Hk). reflexivity. }
    rewrite (bind_run _ _ _ _ _ He), (bind_run _ _ _ _ _ IH). reflexivity. }
  rewrite (bind_run _ _ _ _ _ (Hscan _)). reflexivity.
Qed.

(** X26. When every key is DEAD (or there is no key), a call of [execute]
    that is admitted and allowed at least one attempt never invokes [fn],
    whatever its options: it hands over to the fallback when one is
    configured, whose outcome is the outcome of the call, and otherwise
    raises [AllKeysExhaustedError] at once, leaving the registry and the
    count of active calls as they were. *)
Theorem execute_with_all_keys_dead (options : ExecuteOptions) (s : State) :
  Forall (fun k => circuitState k = DEAD) (keys s) ->
  at_capacity s = false ->
  0 <= maxRetries options ->
  if fallback_fn s
  then exists resume,
         fst (execute options s) = Await CallFallback resume /\
         forall o s', fst (resume o s') = Done o /\
                      keys (snd (resume o s')) = keys s' /\
                      active_calls (snd (resume o s')) = active_calls s' - 1
  else fst (execute options s) = Done (Raise AllKeysExhaustedError) /\
       keys (snd (execute options s)) = keys s /\
       active_calls (snd (execute options s)) = active_calls s.
Proof.
  intros Hd Hcap Hmax.
  rewrite (execute_admitted options s Hcap). unfold _execute_with_retry.
  destruct (Z.to_nat (maxRetries options + 1)) as [|m] eqn:Hm; [lia|].
  cbn [seq].
  set (s1 := set_active_calls (active_calls s + 1) s).
  assert (Hd1 : Forall (fun k => circuitState k = DEAD) (keys s1)) by exact Hd.
  assert (Hsel : exists s2, select_key options s1 = (None, s2) /\ keys s2 = keys s /\
                            active_calls s2 = active_calls s + 1 /\
                            fallback_fn s2 = fallback_fn s).
  { unfold select_key. destruct (truthy_str (opt_provider options)).
    - rewrite (get_key_by_provider_all_dead _ s1 Hd1). exists s1. repeat split.
    - rewrite (get_key_all_dead s1 Hd1). eexists. repeat split. }
  destruct Hsel as (s2 & Hsel & Hk2 & Ha2 & Hf2).
  rewrite (retry_loop_no_key _ _ _ _ _ _ _ Hsel eq_refl).
  cbv [no_key gets bind]. rewrite Hf2. destruct (fallback_fn s).
  - cbn. eexists. split; [reflexivity|]. intros o s'. cbn. repeat split.
  - cbn. rewrite Hk2, Ha2. repeat split. lia.
Qed.

Definition all_dead : State := snd (mark_failed "key-1" (classify_error (MockError 403) None)
                                      Tests.single).

Lemma execute_with_all_keys_dead_witness :
  fst (execute default_options all_dead) = Done (Raise AllKeysExhaustedError) /\
  keys (snd (execute default_options all_dead)) = keys all_dead /\
  active_calls (snd (execute default_options all_dead)) = active_calls all_dead.
Proof.
  apply (execute_with_all_keys_dead default_options all_dead).
  - repeat constructor.
  - reflexivity.
  - reflexivity.
Defined.

(** X27. With a negative [maxRetries] the loop of [_execute_with_retry] is
    empty: an admitted call selects no key, invokes neither [fn] nor the
    fallback, and fails on [raise last_error] with [last_error = None], a
    [TypeError]; the slot of the bulkhead is given back and nothing else
    changes. *)
Theorem negative_max_retries_raises_type_error (options : ExecuteOptions) (s : State) :
  maxRetries options < 0 ->
  at_capacity s = false ->
  fst (execute options s) = Done (Raise RaiseNoneTypeError) /\
  keys (snd (execute options s)) = keys s /\
  active_calls (snd (execute options s)) = active_calls s /\
  events (snd (execute options s)) = events s /\
  reads (snd (execute options s)) = reads s.
Proof.
  intros Hneg Hcap. rewrite (execute_admitted options s Hcap). unfold _execute_with_retry.
  replace (Z.to_nat (maxRetries options + 1)) with 0%nat by lia.
  cbn. repeat split. lia.
Qed.

Lemma negative_max_retries_raises_type_error_witness :
  fst (execute (Tests.retries (-1)) Tests.single) = Done (Raise RaiseNoneTypeError) /\
  keys (snd (execute (Tests.retries (-1)) Tests.single)) = keys Tests.single /\
  active_calls (snd (execute (Tests.retries (-1)) Tests.single)) = active_calls Tests.single /\
  events (snd (execute (Tests.retries (-1)) Tests.single)) = events Tests.single /\
  reads (snd (execute (Tests.retries (-1)) Tests.single)) = reads Tests.single.
Proof.
  apply (negative_max_retries_raises_type_error (Tests.retries (-1)) Tests.single).
  - reflexivity.
  - reflexivity.
Defined.

(** * Cosine similarity *)

Section Cosine.
Variable sqrt : Q -> Q.

Lemma dot_product_sym (a b : list Q) :
  (sumQ (map (fun ab => (fst ab * snd ab)%Q) (combine a b))
   == sumQ (map (fun ab => (fst ab * snd ab)%Q) (combine b a)))%Q.
Proof.
  revert b. induction a as [|x a IH]; intros [|y b]; cbn [combine map]; try reflexivity.
  rewrite !sumQ_cons, (IH b). cbn [fst snd]. rewrite (Qmult_comm x y). reflexivity.
Qed.

Lemma sum_of_squares_zero (a : list Q) :
  Forall (fun x => x == 0)%Q a -> (sumQ (map (fun x => (x * x)%Q) a) == 0)%Q.
Proof.
  induction 1 as [|x a Hx _ IH]; [reflexivity|]. cbn [map].
  rewrite sumQ_cons, IH, Hx. reflexivity.
Qed.

(** X28. [_cosine_similarity] is 0 for vectors of different lengths, and for
    a null vector on either side when the square root of 0 is 0 (no division
    is attempted); and it is symmetric in its two arguments. *)
Theorem cosine_similarity_edges (a b : list Q) :
  (length a <> length b -> SemanticCache._cosine_similarity sqrt a b = 0%Q) /\
  ((forall x, x == 0 -> sqrt x == 0)%Q ->
   Forall (fun x => x == 0)%Q a \/ Forall (fun x => x == 0)%Q b ->
   SemanticCache._cosine_similarity sqrt a b = 0%Q) /\
  (SemanticCache._cosine_similarity sqrt a b == SemanticCache._cosine_similarity sqrt b a)%Q.
Proof.
  unfold SemanticCache._cosine_similarity. split; [|split].
  - intros Hlen. apply Nat.eqb_neq in Hlen. rewrite Hlen. reflexivity.
  - intros Hsqrt Hzero. destruct (negb (length a =? length b)%nat); [reflexivity|].
    assert (Hden : (sqrt (sumQ (map (fun x => (x * x)%Q) a)) * sqrt (sumQ (map (fun x => (x * x)%Q) b))
                    == 0)%Q).
    { destruct Hzero as [Ha | Hb].
      - rewrite (Hsqrt _ (sum_of_squares_zero a Ha)). apply Qmult_0_l.
      - rewrite (Hsqrt _ (sum_of_squares_zero b Hb)). apply Qmult_0_r. }
    apply Qeq_bool_iff in Hden. rewrite Hden. reflexivity.
  - rewrite (Nat.eqb_sym (length b) (length a)).
    destruct (negb (length a =? length b)%nat); [reflexivity|].
    set (na := sqrt (sumQ (map (fun x => (x * x)%Q) a))).
    set (nb := sqrt (sumQ (map (fun x => (x * x)%Q) b))).
    assert (Hd : (na * nb == nb * na)%Q) by apply Qmult_comm.
    destruct (Qeq_bool (na * nb) 0) eqn:E1, (Qeq_bool (nb * na) 0) eqn:E2.
    + reflexivity.
    + exfalso. apply Qeq_bool_iff in E1. rewrite Hd in E1. apply Qeq_bool_iff in E1. congruence.
    + exfalso. apply Qeq_bool_iff in E2. rewrite <- Hd in E2. apply Qeq_bool_iff in E2.
      congruence.
    + rewrite (dot_product_sym a b), Hd. reflexivity.
Qed.

End Cosine.

Example cosine_similarity_samples :
  SemanticCache._cosine_similarity (fun x => x) [1; 0]%Q [1]%Q = 0%Q /\
  SemanticCache._cosine_similarity (fun x => x) [0; 0]%Q [1; 1]%Q = 0%Q /\
  (SemanticCache._cosine_similarity (fun x => x) [1]%Q [1]%Q == 1)%Q.
Proof. split; [reflexivity | split; reflexivity]. Qed.
